(** * dance-diffusion: noise schedule, DDIM sampler and EMA tracker

    A shallow embedding of [audio_diffusion/utils.py] and of the sampler,
    the training objective and the callbacks of [train_uncond.py].

    Conventions of the embedding.
    - Floating-point numbers are read as real numbers ([R]): every statement
      below is a statement of exact real arithmetic.
    - Python integers that count things ([steps], loop indices) are [nat];
      the epoch counters of [EMAWarmup], which may be negative, are [Z].
    - An exception is a value of [exn]; a function that can raise returns a
      [result].
    - The [torch] primitives the sources call are in [Module Torch], written
      from their documented meaning on real numbers. *)

From Stdlib Require Import Reals Lra Lia List String ZArith Bool Sorted.
From Stdlib Require Import FunctionalExtensionality.
Import ListNotations.

Open Scope R_scope.

(** ** Exceptions and results *)

Inductive exn : Type :=
| AssertionError
| RuntimeError
| KeyError
| IndexError
| UnboundLocalError
| ZeroDivisionError
| TypeError
| ValueError.

Inductive result (A : Type) : Type :=
| Ok (a : A)
| Raise (e : exn).

Arguments Ok {A} a.
Arguments Raise {A} e.

(** ** The torch primitives used by the schedule *)

Module Torch.

(** [torch.atan2(y, x)]: the angle of the point [(x, y)], in (-PI, PI]. *)
Definition atan2 (y x : R) : R :=
  if Rlt_dec 0 x then atan (y / x)
  else if Rlt_dec x 0 then
    (if Rle_dec 0 y then atan (y / x) + PI else atan (y / x) - PI)
  else if Rlt_dec 0 y then PI / 2
  else if Rlt_dec y 0 then - (PI / 2)
  else 0.

(** [torch.linspace(start, end, n)]: [n] evenly spaced points, both ends
    included; entry [i] is [start + i * (end - start) / (n - 1)]. *)
Definition linspace (start stop : R) (n : nat) : list R :=
  map (fun i => start + INR i * ((stop - start) / INR (n - 1))) (seq 0 n).

(** Boolean mask [v < c] of a 1-D tensor against a scalar. *)
Definition lt_mask (c : R) (v : R) : bool :=
  if Rlt_dec v c then true else false.

End Torch.

(** ** Utilities for the diffusion noise schedule (utils.py, 143-161) *)

Definition get_alphas_sigmas (t : R) : R * R :=
  (cos (t * PI / 2), sin (t * PI / 2)).

Definition alpha_sigma_to_t (alpha sigma : R) : R :=
  Torch.atan2 sigma alpha / PI * 2.

(** [** 2] is a square and [** 0.5] a square root (its argument
    [1 - sigma ** 2] is never negative). *)
Definition get_crash_schedule (t : R) : R :=
  let sigma := (sin (t * PI / 2)) ^ 2 in
  let alpha := sqrt (1 - sigma ^ 2) in
  alpha_sigma_to_t alpha sigma.

Definition t_to_alpha_sigma (t : R) : R * R :=
  (cos (t * PI / 2), sin (t * PI / 2)).

(** ** A state and exception monad

    [M S A]: a computation that reads and writes a state [S] and either
    returns an [A] or raises.  The state is returned in both cases, so
    that what was mutated before an exception stays visible. *)

Section StateExn.

Context {S : Type}.

Definition M (A : Type) : Type := S -> result A * S.

Definition ret {A} (a : A) : M A := fun s => (Ok a, s).

Definition raise {A} (e : exn) : M A := fun s => (Raise e, s).

Definition bind {A B} (c : M A) (k : A -> M B) : M B :=
  fun s => match c s with
           | (Ok a, s') => k a s'
           | (Raise e, s') => (Raise e, s')
           end.

Definition get : M S := fun s => (Ok s, s).

Definition put (s : S) : M unit := fun _ => (Ok tt, s).

Definition lift {A} (r : result A) : M A := fun s => (r, s).

(** [assert b]. *)
Definition assert_ (b : bool) : M unit :=
  if b then ret tt else raise AssertionError.

(** [for a in l: body(a)]. *)
Fixpoint for_each {A} (l : list A) (body : A -> M unit) : M unit :=
  match l with
  | [] => ret tt
  | a :: rest => bind (body a) (fun _ => for_each rest body)
  end.

End StateExn.

Declare Scope monad_scope.
Delimit Scope monad_scope with monad.
Notation "x <- c ;; k" := (bind c (fun x => k))
  (at level 61, c at next level, right associativity) : monad_scope.
Notation "c ;; k" := (bind c (fun _ => k))
  (at level 61, right associativity) : monad_scope.
Open Scope monad_scope.

(** [l[i]] on a 1-D tensor. *)
Definition index {S A} (l : list A) (i : nat) : M (S := S) A :=
  match nth_error l i with
  | Some a => ret a
  | None => raise IndexError
  end.

(** ** train_mode and eval_mode (utils.py, 14-29)

    The state is the list of the [training] flags of [model.modules()],
    in the order of that traversal; the body of the [with] block is a
    computation on it. *)

(** [try: c finally: fin]: [fin] runs whatever [c] did; what [c] returned
    or raised stands, unless [fin] raises. *)
Definition try_finally {S A : Type} (c : M (S := S) A)
           (fin : M (S := S) unit) : M (S := S) A :=
  fun s => match c s with
           | (r, s1) => match fin s1 with
                        | (Ok _, s2) => (r, s2)
                        | (Raise e, s2) => (Raise e, s2)
                        end
           end.

(** [for i, module in enumerate(model.modules()):
       module.training = modes[i]]. *)
Fixpoint restore_modes (modes flags : list bool)
  : result unit * list bool :=
  match flags, modes with
  | [], _ => (Ok tt, [])
  | f :: flags', [] => (Raise IndexError, f :: flags')
  | _ :: flags', m :: modes' =>
    match restore_modes modes' flags' with
    | (r, restored) => (r, m :: restored)
    end
  end.

(** [model.train(mode)] sets the flag of every module. *)
Definition train_mode {A : Type} (mode : bool)
           (body : M (S := list bool) A) : M (S := list bool) A :=
  modes <- get ;;
  try_finally
    (put (map (fun _ => mode) modes) ;; body)
    (restore_modes modes).

Definition eval_mode {A : Type} (body : M (S := list bool) A)
  : M (S := list bool) A :=
  train_mode false body.

(** ** EMAWarmup (utils.py, 50-95) *)

(** Python's [x ** y] on floats.  A negative base with a fractional
    exponent gives a complex number, which the comparisons of
    [get_value] reject with [TypeError]; that exception is raised here. *)
Definition float_pow (x y : R) : result R :=
  if Req_dec_T y 0 then Ok 1
  else if Rlt_dec 0 x then Ok (Rpower x y)
  else if Req_dec_T x 0 then
    (if Rlt_dec y 0 then Raise ZeroDivisionError else Ok 0)
  else if Req_dec_T (frac_part y) 0 then
    Ok (if Z.even (Int_part y) then Rpower (- x) y else - Rpower (- x) y)
  else Raise TypeError.

(** Python's [a / b] with a float divisor. *)
Definition float_div (a b : R) : result R :=
  if Req_dec_T b 0 then Raise ZeroDivisionError else Ok (a / b).

Record EMAWarmup : Type := {
  inv_gamma : R;
  power : R;
  min_value : R;
  max_value : R;
  start_at : Z;
  last_epoch : Z
}.

Definition get_value (self : EMAWarmup) : result R :=
  let epoch := Z.max 0 (last_epoch self - start_at self) in
  match float_div (IZR epoch) (inv_gamma self) with
  | Raise e => Raise e
  | Ok q =>
    match float_pow (1 + q) (- power self) with
    | Raise e => Raise e
    | Ok p =>
      let value := 1 - p in
      Ok (if (epoch <? 0)%Z then 0
          else Rmin (max_value self) (Rmax (min_value self) value))
    end
  end.

Definition step (self : EMAWarmup) : EMAWarmup :=
  {| inv_gamma := inv_gamma self; power := power self;
     min_value := min_value self; max_value := max_value self;
     start_at := start_at self; last_epoch := last_epoch self + 1 |}.

(** ** ema_update (utils.py, 31-47) *)

(** A tensor is the list of its entries; its shape is its length. *)
Definition Tensor : Type := list R.

Module TensorOps.

(** [self.mul_(c)], in place. *)
Definition mul_ (self : Tensor) (c : R) : Tensor :=
  map (fun x => x * c) self.

Fixpoint add_scaled (self other : Tensor) (alpha : R) : Tensor :=
  match self, other with
  | x :: xs, y :: ys => (x + alpha * y) :: add_scaled xs ys alpha
  | _, _ => []
  end.

(** [self.add_(other, alpha=alpha)], in place: [self + alpha * other].
    Tensors of different shapes are refused (broadcasting is not
    modelled). *)
Definition add_ (self other : Tensor) (alpha : R) : result Tensor :=
  if Nat.eqb (List.length self) (List.length other)
  then Ok (add_scaled self other alpha)
  else Raise RuntimeError.

(** [self.copy_(src)], in place. *)
Definition copy_ (self src : Tensor) : result Tensor :=
  if Nat.eqb (List.length self) (List.length src) then Ok src
  else Raise RuntimeError.

End TensorOps.

(** [dict(module.named_parameters())]: names in registration order, each
    name once. *)
Definition Dict : Type := list (string * Tensor).

Definition keys (d : Dict) : list string := map fst d.

Fixpoint dict_get (d : Dict) (name : string) : option Tensor :=
  match d with
  | [] => None
  | (k, v) :: rest => if String.eqb k name then Some v else dict_get rest name
  end.

(** The tensor stored under [name] is replaced by its mutated value; the
    order of the names does not change. *)
Fixpoint dict_set (d : Dict) (name : string) (v : Tensor) : Dict :=
  match d with
  | [] => []
  | (k, w) :: rest =>
    if String.eqb k name then (k, v) :: rest
    else (k, w) :: dict_set rest name v
  end.

Definition mem (k : string) (l : list string) : bool :=
  existsb (String.eqb k) l.

(** [a.keys() == b.keys()]: equality of key sets. *)
Definition keys_eq (a b : Dict) : bool :=
  forallb (fun k => mem k (keys b)) (keys a) &&
  forallb (fun k => mem k (keys a)) (keys b).

Record Model : Type := {
  named_parameters : Dict;
  named_buffers : Dict
}.

(** The state of [ema_update] is the averaged model, which it mutates. *)
Definition averaged_param (name : string) : M (S := Model) Tensor :=
  fun s => match dict_get (named_parameters s) name with
           | Some v => (Ok v, s)
           | None => (Raise KeyError, s)
           end.

Definition averaged_buffer (name : string) : M (S := Model) Tensor :=
  fun s => match dict_get (named_buffers s) name with
           | Some v => (Ok v, s)
           | None => (Raise KeyError, s)
           end.

Definition store_param (name : string) (v : Tensor) : M (S := Model) unit :=
  fun s => (Ok tt, {| named_parameters := dict_set (named_parameters s) name v;
                      named_buffers := named_buffers s |}).

Definition store_buffer (name : string) (v : Tensor) : M (S := Model) unit :=
  fun s => (Ok tt, {| named_parameters := named_parameters s;
                      named_buffers := dict_set (named_buffers s) name v |}).

(** The body of the first loop:
    [averaged_params[name].mul_(decay).add_(param, alpha=1 - decay)].
    [mul_] has already scaled the tensor when [add_] refuses a shape. *)
Definition update_param (decay : R) (item : string * Tensor)
  : M (S := Model) unit :=
  let '(name, param) := item in
  a <- averaged_param name ;;
  store_param name (TensorOps.mul_ a decay) ;;
  a' <- lift (TensorOps.add_ (TensorOps.mul_ a decay) param (1 - decay)) ;;
  store_param name a'.

(** The body of the second loop: [averaged_buffers[name].copy_(buf)]. *)
Definition update_buffer (item : string * Tensor) : M (S := Model) unit :=
  let '(name, buf) := item in
  b <- averaged_buffer name ;;
  b' <- lift (TensorOps.copy_ b buf) ;;
  store_buffer name b'.

Definition ema_update (model : Model) (decay : R) : M (S := Model) unit :=
  let model_params := named_parameters model in
  averaged_model <- get ;;
  assert_ (keys_eq model_params (named_parameters averaged_model)) ;;
  for_each model_params (update_param decay) ;;
  let model_buffers := named_buffers model in
  averaged_model <- get ;;
  assert_ (keys_eq model_buffers (named_buffers averaged_model)) ;;
  for_each model_buffers update_buffer.

(** A dictionary holds each name once. *)
Definition dict_ok (d : Dict) : Prop := NoDup (keys d).

(** Tensors stored under one name in both dictionaries have one shape. *)
Definition same_shapes (m a : Dict) : Prop :=
  forall (name : string) (p q : Tensor),
    dict_get m name = Some p -> dict_get a name = Some q ->
    List.length q = List.length p.

(** The names of a dictionary with the shapes stored under them. *)
Definition shapes (d : Dict) : list (string * nat) :=
  map (fun item => (fst item, List.length (snd item))) d.

(** ** n_params (utils.py, 356-358)

    [sum(p.numel() for p in module.parameters())]: the parameters are the
    values of [named_parameters], [numel] the number of entries. *)
Definition n_params (module : Model) : nat :=
  list_sum (map (fun item => List.length (snd item))
                (named_parameters module)).

(** ** InverseLR (utils.py, 98-136)

    The scheduler's own fields, and [base_lrs] and [last_epoch], which its
    base class [_LRScheduler] (of torch) keeps. *)

Module InverseLR.

Record t : Type := {
  inv_gamma : R;
  power : R;
  warmup : R;
  final_lr : R;
  last_epoch : Z;
  base_lrs : list R
}.

(** Assignments to the four attributes the class itself holds. *)
Definition set_inv_gamma (self : t) (v : R) : t :=
  {| inv_gamma := v; power := power self; warmup := warmup self;
     final_lr := final_lr self; last_epoch := last_epoch self;
     base_lrs := base_lrs self |}.

Definition set_power (self : t) (v : R) : t :=
  {| inv_gamma := inv_gamma self; power := v; warmup := warmup self;
     final_lr := final_lr self; last_epoch := last_epoch self;
     base_lrs := base_lrs self |}.

Definition set_warmup (self : t) (v : R) : t :=
  {| inv_gamma := inv_gamma self; power := power self; warmup := v;
     final_lr := final_lr self; last_epoch := last_epoch self;
     base_lrs := base_lrs self |}.

Definition set_final_lr (self : t) (v : R) : t :=
  {| inv_gamma := inv_gamma self; power := power self;
     warmup := warmup self; final_lr := v;
     last_epoch := last_epoch self; base_lrs := base_lrs self |}.

(** [__init__] (lines 115-123), on the object [self] under construction.
    Its last statement calls the constructor of the base class, torch's
    [_LRScheduler], which is outside the repository: it is the parameter
    [super_init], applied to the object as the four assignments left it,
    the optimizer, [last_epoch] and [verbose].  What it returns, or
    raises, is the outcome of the construction. *)
Definition init {Optimizer : Type}
           (super_init : t -> Optimizer -> Z -> bool -> result t)
           (self : t) (optimizer : Optimizer)
           (inv_gamma power warmup final_lr : R) (last_epoch : Z)
           (verbose : bool) : result t :=
  let self := set_inv_gamma self inv_gamma in
  let self := set_power self power in
  if Rle_dec 0 warmup then
    if Rlt_dec warmup 1 then
      let self := set_warmup self warmup in
      let self := set_final_lr self final_lr in
      super_init self optimizer last_epoch verbose
    else Raise ValueError
  else Raise ValueError.

Definition _get_closed_form_lr (self : t) : result (list R) :=
  match float_pow (warmup self) (IZR (last_epoch self + 1)) with
  | Raise e => Raise e
  | Ok w =>
    let warmup := 1 - w in
    match float_div (IZR (last_epoch self)) (inv_gamma self) with
    | Raise e => Raise e
    | Ok q =>
      match float_pow (1 + q) (- power self) with
      | Raise e => Raise e
      | Ok lr_mult =>
        Ok (map (fun base_lr =>
                   warmup * Rmax (final_lr self) (base_lr * lr_mult))
                (base_lrs self))
      end
    end
  end.

End InverseLR.

(** ** Data augmentation (utils.py, 168-219) *)

(** A 2-D tensor of shape [(n, s)]: [n] rows (channels) of [s] entries. *)
Record Matrix : Type := {
  width : nat;
  rows : list (list R)
}.

Definition matrix_ok (m : Matrix) : Prop :=
  Forall (fun row => List.length row = width m) (rows m).

(** [signal.new_zeros([n, k])]. *)
Definition new_zeros (n k : nat) : Matrix :=
  {| width := k; rows := repeat (repeat 0 k) n |}.

(** [m[:, start:stop]]: slices are clamped to the width. *)
Definition slice_columns (m : Matrix) (start stop : nat) : Matrix :=
  {| width := Nat.min stop (width m) - Nat.min start (width m);
     rows := map (fun row => firstn (stop - start) (skipn start row))
                 (rows m) |}.

Fixpoint assign_rows (out src : list (list R)) (k : nat) : list (list R) :=
  match out, src with
  | o :: out', r :: src' => (r ++ skipn k o) :: assign_rows out' src' k
  | _, _ => out
  end.

(** [out[:, :k] = src]: the shapes must agree (a source of one column
    would be broadcast by torch; that is not modelled). *)
Definition assign_columns (out : Matrix) (k : nat) (src : Matrix)
  : result Matrix :=
  if Nat.eqb (Nat.min k (width out)) (width src)
     && Nat.eqb (List.length (rows out)) (List.length (rows src))
  then Ok {| width := width out;
             rows := assign_rows (rows out) (rows src) k |}
  else Raise RuntimeError.

Section PadCropDefs.

Context {G : Type}.

(** [torch.randint(0, high, []).item()]: a draw below [high], and the
    generator advanced; [high] must be positive. *)
Variable randint : nat -> G -> nat * G.

Definition draw_int (high : nat) : M (S := G) nat :=
  fun g => if Nat.eqb high 0 then (Raise RuntimeError, g)
           else let (v, g') := randint high g in (Ok v, g').

(** [PadCrop(n_samples, randomize).__call__(signal)]. *)
Definition PadCrop (n_samples : nat) (randomize : bool) (signal : Matrix)
  : M (S := G) Matrix :=
  let n := List.length (rows signal) in
  let s := width signal in
  start <- (if negb randomize then ret 0%nat
            else draw_int (Nat.max 0 (s - n_samples) + 1)) ;;
  let stop := (start + n_samples)%nat in
  let output := new_zeros n n_samples in
  lift (assign_columns output (Nat.min s n_samples)
                       (slice_columns signal start stop)).

End PadCropDefs.

(** A signal given to the mixing transforms: 1-D, 2-D, or of another
    rank (kept as its shape and its entries). *)
Inductive Signal : Type :=
| Sig1 (v : list R)
| Sig2 (m : Matrix)
| SigOther (shape : list nat) (entries : list R).

(** [v.unsqueeze(0)]. *)
Definition unsqueeze0 (v : list R) : Matrix :=
  {| width := List.length v; rows := [v] |}.

Fixpoint row_add (a b : list R) : list R :=
  match a, b with
  | x :: a', y :: b' => (x + y) :: row_add a' b'
  | _, _ => []
  end.

(** [torch.sum(weights * signal, dim=0)], [weights] of shape [(n, 1)]:
    row [i] is scaled by [weights[i]] and the rows are added up. *)
Fixpoint weighted_sum (weights : list R) (rs : list (list R)) (s : nat)
  : list R :=
  match weights, rs with
  | w :: weights', row :: rs' =>
    row_add (map (fun x => w * x) row) (weighted_sum weights' rs' s)
  | _, _ => repeat 0 s
  end.

(** [EqualMix().__call__(signal)]. *)
Definition EqualMix (signal : Signal) : Signal :=
  match signal with
  | Sig1 v => Sig2 (unsqueeze0 v)
  | Sig2 m =>
    let n_channel := List.length (rows m) in
    if (1 <? n_channel)%nat then
      let weights := repeat (1 / INR n_channel) n_channel in
      Sig2 {| width := width m;
              rows := [weighted_sum weights (rows m) (width m)] |}
    else Sig2 m
  | SigOther shape entries => SigOther shape entries
  end.

(** What [RandomMix] returns: a signal, or, when the weights drawn add up
    to 0, one row of [0/0] (not a number). *)
Inductive Mixed : Type :=
| Finite (signal : Signal)
| NotANumber (width : nat).

(** [RandomMix().__call__(signal)]; [rand n] is [torch.rand(n, 1)], [n]
    draws in [0,1) with the generator advanced. *)
Definition RandomMix {G : Type} (rand : nat -> G -> list R * G)
           (signal : Signal) : M (S := G) Mixed :=
  match signal with
  | Sig1 v => ret (Finite (Sig2 (unsqueeze0 v)))
  | Sig2 m =>
    let n_channel := List.length (rows m) in
    if (1 <? n_channel)%nat then
      fun g =>
        let (weights, g') := rand n_channel g in
        let total := fold_right Rplus 0 weights in
        if Req_dec_T total 0 then (Ok (NotANumber (width m)), g')
        else
          let weights := map (fun w => w / total) weights in
          (Ok (Finite
                 (Sig2 {| width := width m;
                          rows := [weighted_sum weights (rows m)
                                                (width m)] |})), g')
    else ret (Finite (Sig2 m))
  | SigOther shape entries => ret (Finite (SigOther shape entries))
  end.

(** [RandomPhaseInvert(p).__call__(signal)]; [random] is
    [random.random()], a draw in [0,1) with the generator advanced. *)
Definition RandomPhaseInvert {G : Type} (random : G -> R * G) (p : R)
           (signal : list R) : M (S := G) (list R) :=
  fun g => let (u, g') := random g in
           (Ok (if Rlt_dec u p then map Ropp signal else signal), g').

(** ** append_dims (utils.py, 348-353) *)

(** A tensor with its shape. *)
Record Shaped : Type := {
  shape : list nat;
  entries : list R
}.

Definition ndim (x : Shaped) : nat := List.length (shape x).

(** [x[(...,) + (None,) * k]] appends [k] dimensions of size 1. *)
Definition append_dims (x : Shaped) (target_dims : Z) : result Shaped :=
  let dims_to_append := (target_dims - Z.of_nat (ndim x))%Z in
  if (dims_to_append <? 0)%Z then Raise ValueError
  else Ok {| shape := shape x ++ repeat 1%nat (Z.to_nat dims_to_append);
             entries := entries x |}.

(** ** The sampler (train_uncond.py, 25-66) *)

(** The sample tensor is an opaque numeric array: the sampler only
    multiplies it by 0-dim tensors and adds and subtracts it entrywise. *)
Class Array (T : Type) : Type := {
  scale : T -> R -> T;
  plus : T -> T -> T;
  minus : T -> T -> T
}.

(** Arrays of rank 0: one real number. *)
#[export] Instance real_array : Array R :=
  {| scale := Rmult; plus := Rplus; minus := Rminus |}.

(** Arrays of one shape, read entry by entry: the array of shape [I]
    (the type of its indices) holds one real number per index. *)
Definition fun_array (I : Type) : Array (I -> R) :=
  {| scale := fun x a i => x i * a;
     plus := fun x y i => x i + y i;
     minus := fun x y i => x i - y i |}.

(** What the operations of the sampler do to the entries of the arrays of
    one shape: [x * a] with [a] a 0-dim tensor multiplies every entry by
    [a], [x + y] and [x - y] work entry by entry, and two arrays with the
    same entries are the same array.  [entry x i] reads entry [i] of
    [x]. *)
Record Entrywise {I T : Type} `{Array T} (entry : T -> I -> R) : Prop := {
  entry_scale : forall (x : T) (a : R) (i : I),
      entry (scale x a) i = entry x i * a;
  entry_plus : forall (x y : T) (i : I),
      entry (plus x y) i = entry x i + entry y i;
  entry_minus : forall (x y : T) (i : I),
      entry (minus x y) i = entry x i - entry y i;
  entry_ext : forall x y : T, (forall i : I, entry x i = entry y i) -> x = y
}.

(** What a run of [sample] reads and writes: its locals [x] and [pred]
    ([pred] is unbound until the loop body has run once), the random
    generator, the number of draws made from it and the calls made to the
    model (latest first). *)
Record Sampler (T G : Type) : Type := {
  local_x : T;
  local_pred : option T;
  generator : G;
  drawn : nat;
  queries : list (T * R)
}.

Arguments local_x {T G} _.
Arguments local_pred {T G} _.
Arguments generator {T G} _.
Arguments drawn {T G} _.
Arguments queries {T G} _.

Section SamplerDefs.

Context {T G : Type} `{Array T}.

(** [torch.randn_like(x)]: an array of the shape of [x], and the
    generator advanced. *)
Variable randn_like : T -> G -> T * G.

Definition get_x : M (S := Sampler T G) T :=
  fun s => (Ok (local_x s), s).

Definition set_x (x : T) : M (S := Sampler T G) unit :=
  fun s => (Ok tt, {| local_x := x; local_pred := local_pred s;
                      generator := generator s; drawn := drawn s;
                      queries := queries s |}).

Definition set_pred (p : T) : M (S := Sampler T G) unit :=
  fun s => (Ok tt, {| local_x := local_x s; local_pred := Some p;
                      generator := generator s; drawn := drawn s;
                      queries := queries s |}).

Definition get_pred : M (S := Sampler T G) T :=
  fun s => match local_pred s with
           | Some p => (Ok p, s)
           | None => (Raise UnboundLocalError, s)
           end.

(** [model(x, ts * t)]: [ts] is a vector of ones, one per batch entry, so
    the second argument is the constant vector [t], given here by [t]. *)
Definition call_model (model : T -> R -> T) (x : T) (t : R)
  : M (S := Sampler T G) T :=
  fun s => (Ok (model x t),
            {| local_x := local_x s; local_pred := local_pred s;
               generator := generator s; drawn := drawn s;
               queries := (x, t) :: queries s |}).

Definition draw_like (x : T) : M (S := Sampler T G) T :=
  fun s => let (n, g) := randn_like x (generator s) in
           (Ok n, {| local_x := local_x s; local_pred := local_pred s;
                     generator := g; drawn := S (drawn s);
                     queries := queries s |}).

(** The noise schedule of [sample]. *)
Definition sample_schedule (steps : nat) : list R :=
  map get_crash_schedule (removelast (Torch.linspace 1 0 (steps + 1))).

Definition sample_step (model : T -> R -> T) (steps : nat) (eta : R)
           (t alphas sigmas : list R) (i : nat)
  : M (S := Sampler T G) unit :=
  x <- get_x ;;
  ti <- index t i ;;
  v <- call_model model x ti ;;
  alpha_i <- index alphas i ;;
  sigma_i <- index sigmas i ;;
  let pred := minus (scale x alpha_i) (scale v sigma_i) in
  let eps := plus (scale x sigma_i) (scale v alpha_i) in
  set_pred pred ;;
  if (i <? steps - 1)%nat then
    sigma_n <- index sigmas (i + 1) ;;
    alpha_n <- index alphas (i + 1) ;;
    let ddim_sigma :=
      eta * sqrt (sigma_n ^ 2 / sigma_i ^ 2) *
      sqrt (1 - alpha_i ^ 2 / alpha_n ^ 2) in
    let adjusted_sigma := sqrt (sigma_n ^ 2 - ddim_sigma ^ 2) in
    let x' := plus (scale pred alpha_n) (scale eps adjusted_sigma) in
    set_x x' ;;
    if Req_dec_T eta 0 then ret tt
    else (noise <- draw_like x' ;;
          set_x (plus x' (scale noise ddim_sigma)))
  else ret tt.

Definition sample_loop (model : T -> R -> T) (steps : nat) (eta : R)
  : M (S := Sampler T G) T :=
  let t := sample_schedule steps in
  let alphas := map (fun u => fst (get_alphas_sigmas u)) t in
  let sigmas := map (fun u => snd (get_alphas_sigmas u)) t in
  for_each (seq 0 steps) (sample_step model steps eta t alphas sigmas) ;;
  get_pred.

(** [sample(model, x, steps, eta)], run with the generator in state [g]. *)
Definition sample (model : T -> R -> T) (x : T) (steps : nat) (eta : R)
           (g : G) : result T * Sampler T G :=
  sample_loop model steps eta
    {| local_x := x; local_pred := None; generator := g; drawn := 0;
       queries := [] |}.

(** ** do_style_transfer (utils.py, 286-314) *)

(** [torch.randn(shape)] is drawn with the shape of the audio; the state
    is the generator and the number of draws. *)
Definition randn_shape_of (x : T) : M (S := G * nat) T :=
  fun s => let (n, g) := randn_like x (fst s) in (Ok n, (g, S (snd s))).

(** [step_list[-1]]. *)
Definition index_last {S} (l : list R) : M (S := S) R :=
  match l with
  | [] => raise IndexError
  | _ => ret (last l 0)
  end.

(** [sampling.sample] belongs to the package [diffusion], outside this
    repository: it is a parameter, applied to the model, the start
    tensor, the timesteps and eta. *)
Definition do_style_transfer {Out : Type}
           (sampling_sample :
              (T -> R -> T) -> T -> list R -> R -> M (S := G * nat) Out)
           (model : T -> R -> T) (audio_sample : T) (steps : nat)
           (noise_level : R) (eta : R) : M (S := G * nat) Out :=
  let t := Torch.linspace 0 1 (steps + 1) in
  let step_list := map get_crash_schedule t in
  let step_list := filter (Torch.lt_mask noise_level) step_list in
  t_start <- index_last step_list ;;
  let '(alpha, sigma) := t_to_alpha_sigma t_start in
  noised <- randn_shape_of audio_sample ;;
  let noised := plus (scale audio_sample alpha) (scale noised sigma) in
  let noise := noised in
  sampling_sample model noise (removelast (rev step_list)) eta.

End SamplerDefs.

(** ** training_step and validation_step (train_uncond.py, 82-134)

    A batch is the list of its samples.  [alphas[:, None, None]] gives
    each sample its own pair of scaling factors. *)

(** One sample of [noised_reals] and of [targets] (lines 91-98). *)
Definition velocity_target {T : Type} `{Array T} (real noise : T) (t : R)
  : T * T :=
  let '(alpha, sigma) := get_alphas_sigmas t in
  (plus (scale real alpha) (scale noise sigma),
   minus (scale noise alpha) (scale real sigma)).

(** What a training step reads and writes: the quasi-random sequence
    [self.rng], the generator of [torch.randn_like] and the values given
    to [self.log] (latest first). *)
Record Trainer (Q G : Type) : Type := {
  sobol : Q;
  noise_generator : G;
  logged : list (string * R)
}.

Arguments sobol {Q G} _.
Arguments noise_generator {Q G} _.
Arguments logged {Q G} _.

Section TrainingDefs.

Context {T Q G : Type} `{Array T}.

(** [self.rng.draw(n)[:, 0]]: [n] quasi-random numbers. *)
Variable sobol_draw : nat -> Q -> list R * Q.

(** [torch.randn_like(reals)], sample by sample. *)
Variable randn_like_batch : list T -> G -> list T * G.

(** [F.mse_loss], of torch. *)
Variable mse_loss : list T -> list T -> R.

Definition draw_timesteps (n : nat) : M (S := Trainer Q G) (list R) :=
  fun s => let (t, q) := sobol_draw n (sobol s) in
           (Ok t, {| sobol := q; noise_generator := noise_generator s;
                     logged := logged s |}).

Definition draw_noise (reals : list T) : M (S := Trainer Q G) (list T) :=
  fun s => let (noise, g) := randn_like_batch reals (noise_generator s) in
           (Ok noise, {| sobol := sobol s; noise_generator := g;
                         logged := logged s |}).

Definition log (name : string) (value : R) : M (S := Trainer Q G) unit :=
  fun s => (Ok tt, {| sobol := sobol s;
                      noise_generator := noise_generator s;
                      logged := (name, value) :: logged s |}).

Fixpoint velocity_targets (reals noise : list T) (t : list R)
  : list (T * T) :=
  match reals, noise, t with
  | r :: reals', n :: noise', u :: t' =>
    velocity_target r n u :: velocity_targets reals' noise' t'
  | _, _, _ => []
  end.

(** The arithmetic of lines 93-98, refused when the batch sizes of
    [reals], [noise] and [t] differ. *)
Definition noised_and_targets (reals noise : list T) (t : list R)
  : result (list T * list T) :=
  if Nat.eqb (List.length noise) (List.length reals)
     && Nat.eqb (List.length t) (List.length reals)
  then Ok (split (velocity_targets reals noise t))
  else Raise RuntimeError.

(** The lines [training_step] and [validation_step] have in common. *)
Definition objective (diffusion : list T -> list R -> list T)
           (reals : list T) : M (S := Trainer Q G) R :=
  t <- draw_timesteps (List.length reals) ;;
  let t := map get_crash_schedule t in
  noise <- draw_noise reals ;;
  pair <- lift (noised_and_targets reals noise t) ;;
  let v := diffusion (fst pair) t in
  ret (mse_loss v (snd pair)).

Definition training_step (diffusion : list T -> list R -> list T)
           (reals : list T) : M (S := Trainer Q G) R :=
  loss <- objective diffusion reals ;;
  log "train_loss" loss ;;
  log "train_mse_loss" loss ;;
  ret loss.

Definition validation_step (diffusion : list T -> list R -> list T)
           (reals : list T) : M (S := Trainer Q G) unit :=
  loss <- objective diffusion reals ;;
  log "valid_loss" loss ;;
  log "valid_mse_loss" loss.

End TrainingDefs.

(** ** on_before_zero_grad (train_uncond.py, 136-138) *)

Definition on_before_zero_grad (current_epoch : Z) (ema_decay : R)
           (diffusion : Model) : M (S := Model) unit :=
  let decay := if (current_epoch <? 25)%Z then 95 / 100 else ema_decay in
  ema_update diffusion decay.

(** ** DemoCallback.on_train_epoch_end (train_uncond.py, 155-171) *)

(** [try: c except Exception as e: handler(e)]. *)
Definition try_except {S A : Type} (c : M (S := S) A)
           (handler : exn -> M (S := S) A) : M (S := S) A :=
  fun s => match c s with
           | (Ok a, s') => (Ok a, s')
           | (Raise e, s') => handler e s'
           end.

(** What the callback reads and writes: its counter, the random
    generator, the lines printed to [sys.stderr] and the demos given to
    the logger (latest first). *)
Record Demo (T G : Type) : Type := {
  epoch_num : Z;
  torch_generator : G;
  stderr : list exn;
  audio_logged : list T;
  image_logged : list T
}.

Arguments epoch_num {T G} _.
Arguments torch_generator {T G} _.
Arguments stderr {T G} _.
Arguments audio_logged {T G} _.
Arguments image_logged {T G} _.

Section DemoDefs.

Context {T G : Type} `{Array T}.

Variable randn_like : T -> G -> T * G.

(** [torch.randn([num_demos, 1, demo_samples])]. *)
Variable randn : nat -> nat -> G -> T * G.

(** [rearrange] (einops), [add_audio] and [add_image] with
    [audio_spectrogram_image] (the logger, viz): each may raise. *)
Variable rearrange : T -> result T.
Variable add_audio : T -> result unit.
Variable add_image : T -> result unit.

Definition bump_epoch : M (S := Demo T G) Z :=
  fun s => (Ok (epoch_num s + 1)%Z,
            {| epoch_num := epoch_num s + 1;
               torch_generator := torch_generator s;
               stderr := stderr s; audio_logged := audio_logged s;
               image_logged := image_logged s |}).

Definition demo_noise (num_demos demo_samples : nat) : M (S := Demo T G) T :=
  fun s => let (noise, g) := randn num_demos demo_samples
                                   (torch_generator s) in
           (Ok noise,
            {| epoch_num := epoch_num s; torch_generator := g;
               stderr := stderr s; audio_logged := audio_logged s;
               image_logged := image_logged s |}).

(** [sample(module.diffusion_ema, noise, self.demo_steps, 0)]. *)
Definition demo_sample (model : T -> R -> T) (noise : T) (demo_steps : nat)
  : M (S := Demo T G) T :=
  fun s => match sample randn_like model noise demo_steps 0
                        (torch_generator s) with
           | (r, final) =>
             (r, {| epoch_num := epoch_num s;
                    torch_generator := generator final;
                    stderr := stderr s; audio_logged := audio_logged s;
                    image_logged := image_logged s |})
           end.

Definition log_audio (fakes : T) : M (S := Demo T G) unit :=
  fun s => match add_audio fakes with
           | Ok _ =>
             (Ok tt, {| epoch_num := epoch_num s;
                        torch_generator := torch_generator s;
                        stderr := stderr s;
                        audio_logged := fakes :: audio_logged s;
                        image_logged := image_logged s |})
           | Raise e => (Raise e, s)
           end.

Definition log_image (fakes : T) : M (S := Demo T G) unit :=
  fun s => match add_image fakes with
           | Ok _ =>
             (Ok tt, {| epoch_num := epoch_num s;
                        torch_generator := torch_generator s;
                        stderr := stderr s;
                        audio_logged := audio_logged s;
                        image_logged := fakes :: image_logged s |})
           | Raise e => (Raise e, s)
           end.

Definition print_stderr (e : exn) : M (S := Demo T G) unit :=
  fun s => (Ok tt, {| epoch_num := epoch_num s;
                      torch_generator := torch_generator s;
                      stderr := e :: stderr s;
                      audio_logged := audio_logged s;
                      image_logged := image_logged s |}).

(** [rank_zero] tells whether the process has rank 0: on the others the
    decorator [rank_zero_only] skips the call. *)
Definition on_train_epoch_end (rank_zero : bool)
           (num_demos demo_samples demo_steps : nat)
           (demo_every_n_epochs : Z) (diffusion_ema : T -> R -> T)
  : M (S := Demo T G) unit :=
  if negb rank_zero then ret tt
  else
    epoch <- bump_epoch ;;
    if (demo_every_n_epochs =? 0)%Z then raise ZeroDivisionError
    else if (epoch mod demo_every_n_epochs =? 0)%Z then
      noise <- demo_noise num_demos demo_samples ;;
      try_except
        (fakes <- demo_sample diffusion_ema noise demo_steps ;;
         fakes <- lift (rearrange fakes) ;;
         log_audio fakes ;;
         log_image fakes)
        print_stderr
    else ret tt.

End DemoDefs.

(** ** Facts about the schedule *)

Section ScheduleFacts.

Lemma scaled_angle_range (t : R) :
  0 <= t <= 1 -> 0 <= t * PI / 2 <= PI / 2.
Proof. pose proof PI_RGT_0; intros [H0 H1]; split; nra. Qed.

Lemma atan2_pos_x (y x : R) : 0 < x -> Torch.atan2 y x = atan (y / x).
Proof.
  intros Hx; unfold Torch.atan2.
  destruct (Rlt_dec 0 x); [reflexivity | contradiction].
Qed.

Lemma atan2_zero_x (y : R) : 0 < y -> Torch.atan2 y 0 = PI / 2.
Proof.
  intros Hy; unfold Torch.atan2.
  destruct (Rlt_dec 0 0) as [H | _]; [lra |].
  destruct (Rlt_dec 0 y); [reflexivity | contradiction].
Qed.

Lemma sin_scaled_range (t : R) :
  0 <= t <= 1 -> 0 <= sin (t * PI / 2) <= 1.
Proof.
  intros Ht; pose proof (scaled_angle_range t Ht) as [Ha Hb].
  pose proof PI_RGT_0.
  split; [apply sin_ge_0; lra | apply SIN_bound].
Qed.

Lemma sin_scaled_pos (t : R) : 0 < t <= 1 -> 0 < sin (t * PI / 2).
Proof.
  intros [H0 H1]; pose proof PI_RGT_0.
  apply sin_gt_0; nra.
Qed.

Lemma sin_scaled_lt_1 (t : R) : 0 <= t < 1 -> sin (t * PI / 2) < 1.
Proof.
  intros [H0 H1]; pose proof PI_RGT_0.
  rewrite <- sin_PI2.
  apply sin_increasing_1; nra.
Qed.

Lemma sin_scaled_incr (s t : R) :
  0 <= s -> s < t -> t <= 1 -> sin (s * PI / 2) < sin (t * PI / 2).
Proof.
  intros H0 Hst H1; pose proof PI_RGT_0.
  apply sin_increasing_1; nra.
Qed.

(** The warped noise scale [sin(t*PI/2)^2] and its companion. *)
Lemma crash_sigma_range (t : R) :
  0 <= t <= 1 -> 0 <= sin (t * PI / 2) ^ 2 <= 1.
Proof. intros Ht; pose proof (sin_scaled_range t Ht); nra. Qed.

Lemma crash_sigma_incr (s t : R) :
  0 <= s -> s < t -> t <= 1 ->
  sin (s * PI / 2) ^ 2 < sin (t * PI / 2) ^ 2.
Proof.
  intros H0 Hst H1.
  pose proof (sin_scaled_incr s t H0 Hst H1).
  assert (0 <= sin (s * PI / 2)) by (apply sin_scaled_range; lra).
  nra.
Qed.

Lemma crash_alpha_pos (u : R) : 0 <= u < 1 -> 0 < sqrt (1 - u ^ 2).
Proof. intros Hu; apply sqrt_lt_R0; nra. Qed.

Lemma slope_incr (u w : R) :
  0 <= u -> u < w -> w < 1 ->
  u / sqrt (1 - u ^ 2) < w / sqrt (1 - w ^ 2).
Proof.
  intros H0 Huw H1.
  assert (Ha : 0 < sqrt (1 - u ^ 2)) by (apply crash_alpha_pos; lra).
  assert (Hb : 0 < sqrt (1 - w ^ 2)) by (apply crash_alpha_pos; lra).
  assert (Hab : sqrt (1 - w ^ 2) < sqrt (1 - u ^ 2))
    by (apply sqrt_lt_1_alt; nra).
  apply Rlt_le_trans with (w / sqrt (1 - u ^ 2)).
  - unfold Rdiv; apply Rmult_lt_compat_r; [apply Rinv_0_lt_compat |]; lra.
  - unfold Rdiv; apply Rmult_le_compat_l; [lra |].
    apply Rinv_le_contravar; lra.
Qed.

Lemma crash_below_1 (t : R) :
  0 <= t < 1 ->
  get_crash_schedule t =
  atan (sin (t * PI / 2) ^ 2 / sqrt (1 - (sin (t * PI / 2) ^ 2) ^ 2))
  / PI * 2.
Proof.
  intros Ht; unfold get_crash_schedule, alpha_sigma_to_t.
  rewrite atan2_pos_x; [reflexivity |].
  apply crash_alpha_pos.
  pose proof (sin_scaled_range t ltac:(lra)).
  pose proof (sin_scaled_lt_1 t Ht); nra.
Qed.

Lemma crash_0 : get_crash_schedule 0 = 0.
Proof.
  rewrite crash_below_1 by lra.
  replace (0 * PI / 2) with 0 by lra.
  rewrite sin_0.
  replace (0 ^ 2 / sqrt (1 - (0 ^ 2) ^ 2)) with 0 by (unfold Rdiv; ring).
  rewrite atan_0; unfold Rdiv; ring.
Qed.

Lemma crash_1 : get_crash_schedule 1 = 1.
Proof.
  unfold get_crash_schedule, alpha_sigma_to_t.
  replace (1 * PI / 2) with (PI / 2) by lra.
  rewrite sin_PI2.
  replace (1 - (1 ^ 2) ^ 2) with 0 by ring.
  rewrite sqrt_0, atan2_zero_x by lra.
  pose proof PI_RGT_0; field; lra.
Qed.

Lemma crash_lt_1 (t : R) : 0 <= t < 1 -> get_crash_schedule t < 1.
Proof.
  intros Ht; rewrite crash_below_1 by assumption.
  pose proof PI_RGT_0 as HPI.
  match goal with |- atan ?x / _ * _ < _ =>
    pose proof (atan_bound x) as [_ Hb] end.
  apply Rmult_lt_reg_r with (PI / 2); [lra |].
  match goal with |- ?l * _ < _ => replace (l * (PI / 2)) with
    (atan (sin (t * PI / 2) ^ 2 / sqrt (1 - (sin (t * PI / 2) ^ 2) ^ 2)))
    by (field; lra) end.
  lra.
Qed.

(** The warp is strictly increasing on [0,1]. *)
Lemma crash_strictly_increasing (s t : R) :
  0 <= s -> s < t -> t <= 1 ->
  get_crash_schedule s < get_crash_schedule t.
Proof.
  intros H0 Hst H1.
  destruct (Rle_lt_or_eq_dec t 1 H1) as [Hlt | ->].
  - rewrite (crash_below_1 s), (crash_below_1 t) by lra.
    pose proof PI_RGT_0 as HPI.
    assert (Hat : atan (sin (s * PI / 2) ^ 2 /
                        sqrt (1 - (sin (s * PI / 2) ^ 2) ^ 2)) <
                  atan (sin (t * PI / 2) ^ 2 /
                        sqrt (1 - (sin (t * PI / 2) ^ 2) ^ 2))).
    { apply atan_increasing, slope_incr.
      - apply crash_sigma_range; lra.
      - apply crash_sigma_incr; lra.
      - pose proof (sin_scaled_range t ltac:(lra)).
        pose proof (sin_scaled_lt_1 t ltac:(lra)); nra. }
    unfold Rdiv; apply Rmult_lt_compat_r; [lra |].
    apply Rmult_lt_compat_r; [apply Rinv_0_lt_compat; lra | exact Hat].
  - rewrite crash_1; apply crash_lt_1; lra.
Qed.

Lemma crash_pos (t : R) : 0 < t <= 1 -> 0 < get_crash_schedule t.
Proof.
  intros [H0 H1]; rewrite <- crash_0.
  apply crash_strictly_increasing; lra.
Qed.

Lemma crash_le_1 (t : R) : 0 <= t <= 1 -> get_crash_schedule t <= 1.
Proof.
  intros [H0 H1].
  destruct (Rle_lt_or_eq_dec t 1 H1) as [Hlt | ->].
  - left; apply crash_lt_1; lra.
  - rewrite crash_1; lra.
Qed.

End ScheduleFacts.

(** ** Round trip and boundary values of the schedule *)

(** C7: for every t strictly between 0 and 1, [alpha_sigma_to_t] applied to
    the pair returned by [get_alphas_sigmas t] gives back exactly t. *)
Theorem alpha_sigma_round_trip (t : R) :
  0 < t < 1 ->
  alpha_sigma_to_t (fst (get_alphas_sigmas t)) (snd (get_alphas_sigmas t)) = t.
Proof.
  intros [H0 H1]; pose proof PI_RGT_0 as HPI.
  unfold get_alphas_sigmas, alpha_sigma_to_t; cbn [fst snd].
  assert (Hc : 0 < cos (t * PI / 2)) by (apply cos_gt_0; nra).
  rewrite atan2_pos_x by exact Hc.
  change (sin (t * PI / 2) / cos (t * PI / 2)) with (tan (t * PI / 2)).
  rewrite atan_tan by (split; nra).
  field; lra.
Qed.

Lemma alpha_sigma_round_trip_witness :
  alpha_sigma_to_t (fst (get_alphas_sigmas (1 / 2)))
                   (snd (get_alphas_sigmas (1 / 2))) = 1 / 2.
Proof. apply (alpha_sigma_round_trip (1 / 2)); lra. Defined.

(** C8: [get_alphas_sigmas 0 = (1, 0)], [get_alphas_sigmas 1 = (0, 1)],
    [get_crash_schedule 0 = 0], [get_crash_schedule 1 = 1], and
    [get_crash_schedule] is non-decreasing on [0,1]. *)
Theorem schedule_boundaries_and_monotone :
  get_alphas_sigmas 0 = (1, 0) /\
  get_alphas_sigmas 1 = (0, 1) /\
  get_crash_schedule 0 = 0 /\
  get_crash_schedule 1 = 1 /\
  (forall s t : R, 0 <= s -> s <= t -> t <= 1 ->
                   get_crash_schedule s <= get_crash_schedule t).
Proof.
  repeat split.
  - unfold get_alphas_sigmas.
    replace (0 * PI / 2) with 0 by lra.
    rewrite cos_0, sin_0; reflexivity.
  - unfold get_alphas_sigmas.
    replace (1 * PI / 2) with (PI / 2) by lra.
    rewrite cos_PI2, sin_PI2; reflexivity.
  - exact crash_0.
  - exact crash_1.
  - intros s t H0 Hst H1.
    destruct (Rle_lt_or_eq_dec s t Hst) as [Hlt | ->]; [| lra].
    left; apply crash_strictly_increasing; assumption.
Qed.

Lemma schedule_boundaries_and_monotone_witness :
  get_crash_schedule (1 / 4) <= get_crash_schedule (3 / 4).
Proof.
  destruct schedule_boundaries_and_monotone as (_ & _ & _ & _ & Hmono).
  apply (Hmono (1 / 4) (3 / 4)); lra.
Defined.

(** ** EMAWarmup: the decay curve *)

Ltac clamp_cases :=
  unfold Rmin, Rmax; repeat destruct (Rle_dec _ _); try lra.

Lemma float_div_nonzero (a b : R) : b <> 0 -> float_div a b = Ok (a / b).
Proof.
  intros Hb; unfold float_div.
  destruct (Req_dec_T b 0); [contradiction | reflexivity].
Qed.

Lemma float_div_zero (a : R) : float_div a 0 = Raise ZeroDivisionError.
Proof.
  unfold float_div; destruct (Req_dec_T 0 0); [reflexivity | lra].
Qed.

Lemma float_pow_pos (x y : R) : 0 < x -> float_pow x y = Ok (Rpower x y).
Proof.
  intros Hx; unfold float_pow.
  destruct (Req_dec_T y 0) as [-> | _].
  - rewrite Rpower_O by assumption; reflexivity.
  - destruct (Rlt_dec 0 x); [reflexivity | contradiction].
Qed.

Lemma float_pow_zero_neg (y : R) :
  y < 0 -> float_pow 0 y = Raise ZeroDivisionError.
Proof.
  intros Hy; unfold float_pow.
  destruct (Req_dec_T y 0); [lra |].
  destruct (Rlt_dec 0 0); [lra |].
  destruct (Req_dec_T 0 0); [| lra].
  destruct (Rlt_dec y 0); [reflexivity | contradiction].
Qed.

Lemma Rpower_base_1 (y : R) : Rpower 1 y = 1.
Proof. unfold Rpower; rewrite ln_1, Rmult_0_r; apply exp_0. Qed.

Lemma Rpower_inv (x : R) : 0 < x -> Rpower x (Ropp 1) = / x.
Proof. intros Hx; rewrite Rpower_Ropp, Rpower_1 by assumption; reflexivity. Qed.

Lemma epoch_not_negative (d : Z) : (Z.max 0 d <? 0)%Z = false.
Proof. apply Z.ltb_ge; lia. Qed.

Lemma epoch_IZR_nonneg (d : Z) : 0 <= IZR (Z.max 0 d).
Proof. apply IZR_le; lia. Qed.

(** With a positive [inv_gamma] nothing raises and the dead branch
    [epoch < 0] is never taken. *)
Lemma get_value_closed_form (self : EMAWarmup) :
  0 < inv_gamma self ->
  get_value self =
  Ok (Rmin (max_value self)
        (Rmax (min_value self)
           (1 - Rpower
                  (1 + IZR (Z.max 0 (last_epoch self - start_at self))
                       / inv_gamma self)
                  (- power self)))).
Proof.
  intros Hg; unfold get_value.
  rewrite float_div_nonzero by lra.
  pose proof (epoch_IZR_nonneg (last_epoch self - start_at self)) as He.
  rewrite float_pow_pos.
  - rewrite epoch_not_negative; reflexivity.
  - assert (0 <= IZR (Z.max 0 (last_epoch self - start_at self))
                 / inv_gamma self).
    { apply Rmult_le_pos; [assumption |].
      left; apply Rinv_0_lt_compat; assumption. }
    lra.
Qed.

(** Before [start_at] the epoch is clamped to 0 and the curve is at 0;
    what is returned is 0 clamped to the configured bounds. *)
Lemma get_value_before_start (self : EMAWarmup) :
  inv_gamma self <> 0 ->
  (last_epoch self < start_at self)%Z ->
  get_value self = Ok (Rmin (max_value self) (Rmax (min_value self) 0)).
Proof.
  intros Hg Hlt; unfold get_value.
  replace (Z.max 0 (last_epoch self - start_at self)) with 0%Z by lia.
  rewrite float_div_nonzero by assumption.
  replace (1 + 0 / inv_gamma self) with 1 by (unfold Rdiv; ring).
  rewrite float_pow_pos by lra.
  rewrite Rpower_base_1; cbn.
  replace (1 - 1) with 0 by ring; reflexivity.
Qed.

Lemma iter_step_fields (n : nat) (self : EMAWarmup) :
  inv_gamma (Nat.iter n step self) = inv_gamma self /\
  power (Nat.iter n step self) = power self /\
  min_value (Nat.iter n step self) = min_value self /\
  max_value (Nat.iter n step self) = max_value self /\
  start_at (Nat.iter n step self) = start_at self /\
  last_epoch (Nat.iter n step self) = (last_epoch self + Z.of_nat n)%Z.
Proof.
  induction n as [| n IH].
  - cbn; repeat split; lia.
  - destruct IH as (Hg & Hp & Hmin & Hmax & Hs & Hl).
    change (Nat.iter (S n) step self) with (step (Nat.iter n step self)).
    set (s := Nat.iter n step self) in *.
    unfold step; cbn [inv_gamma power min_value max_value start_at
                      last_epoch].
    repeat split; try assumption.
    rewrite Hl; lia.
Qed.

(** The unclamped curve does not decrease with the epoch. *)
Lemma curve_monotone (g p : R) (e e' : Z) :
  0 < g -> 0 <= p -> (0 <= e <= e')%Z ->
  1 - Rpower (1 + IZR e / g) (- p) <= 1 - Rpower (1 + IZR e' / g) (- p).
Proof.
  intros Hg Hp [He Hee].
  assert (H0 : 0 <= IZR e) by (apply IZR_le; assumption).
  assert (H1 : IZR e <= IZR e') by (apply IZR_le; assumption).
  assert (Hig : 0 < / g) by (apply Rinv_0_lt_compat; assumption).
  assert (Hb : 0 < 1 + IZR e / g) by (unfold Rdiv; nra).
  assert (Hbb : 1 + IZR e / g <= 1 + IZR e' / g) by (unfold Rdiv; nra).
  rewrite !Rpower_Ropp.
  assert (Hpw : Rpower (1 + IZR e / g) p <= Rpower (1 + IZR e' / g) p)
    by (apply Rle_Rpower_l; [assumption | split; assumption]).
  assert (Hpos : 0 < Rpower (1 + IZR e / g) p) by apply exp_pos.
  assert (Hinv : / Rpower (1 + IZR e' / g) p <= / Rpower (1 + IZR e / g) p)
    by (apply Rinv_le_contravar; assumption).
  lra.
Qed.

(** [get_value] on the default configuration. *)
Lemma get_value_default (n : Z) :
  (0 <= n)%Z ->
  get_value (Build_EMAWarmup 1 1 0 1 0 n) = Ok (1 - / (1 + IZR n)).
Proof.
  intros Hn; rewrite get_value_closed_form by (cbn [inv_gamma]; lra).
  cbn [inv_gamma power min_value max_value start_at last_epoch].
  replace (Z.max 0 (n - 0)) with n by lia.
  assert (H0 : 0 <= IZR n) by (apply IZR_le; assumption).
  replace (1 + IZR n / 1) with (1 + IZR n) by (unfold Rdiv; field).
  rewrite Rpower_inv by lra.
  assert (Hi : 0 < / (1 + IZR n) <= 1).
  { split; [apply Rinv_0_lt_compat; lra |].
    rewrite <- Rinv_1 at 2; apply Rinv_le_contravar; lra. }
  f_equal; clamp_cases.
Qed.

(** C3, as the code has it: with [inv_gamma=1, power=1, min_value=0,
    max_value=1, start_at=0], [get_value] returns 0 when [last_epoch=0],
    0.5 when [last_epoch=1] and 0.9 when [last_epoch=9]. *)
Theorem get_value_simple_average :
  get_value (Build_EMAWarmup 1 1 0 1 0 0) = Ok 0 /\
  get_value (Build_EMAWarmup 1 1 0 1 0 1) = Ok (1 / 2) /\
  get_value (Build_EMAWarmup 1 1 0 1 0 9) = Ok (9 / 10).
Proof.
  repeat split; rewrite get_value_default by lia; f_equal; field.
Qed.

(** C3 as stated fails: at [last_epoch=0] the value is 0, not 0.5. *)
Lemma get_value_simple_average_counterexample :
  get_value (Build_EMAWarmup 1 1 0 1 0 0) <> Ok (1 / 2).
Proof.
  rewrite get_value_default by lia.
  intros Heq; injection Heq; intros Hv.
  replace (1 - / (1 + 0)) with 0 in Hv by field; lra.
Qed.

(** C2, as the code has it: before [start_at], [get_value] returns exactly
    0 whenever [inv_gamma <> 0] and [min_value <= 0 <= max_value]; and from
    [start_at] on ([last_epoch >= start_at]), for [inv_gamma > 0],
    [power >= 0] and [min_value <= max_value], it returns a value within
    [[min_value, max_value]] that does not decrease as [last_epoch] is
    stepped. *)
Theorem get_value_warmup (self : EMAWarmup) :
  (inv_gamma self <> 0 ->
   min_value self <= 0 <= max_value self ->
   (last_epoch self < start_at self)%Z ->
   get_value self = Ok 0) /\
  (0 < inv_gamma self ->
   0 <= power self ->
   min_value self <= max_value self ->
   (start_at self <= last_epoch self)%Z ->
   exists v : R,
     get_value self = Ok v /\
     min_value self <= v <= max_value self /\
     forall n : nat,
     exists w : R, get_value (Nat.iter n step self) = Ok w /\ v <= w).
Proof.
  split.
  - intros Hg Hb Hlt.
    rewrite get_value_before_start by assumption.
    f_equal; clamp_cases.
  - intros Hg Hp Hmm Hstarted.
    eexists; split; [apply get_value_closed_form; assumption |].
    split; [clamp_cases |].
    intros n.
    destruct (iter_step_fields n self) as (Eg & Ep & Emin & Emax & Es & El).
    eexists; split.
    + apply get_value_closed_form; rewrite Eg; assumption.
    + rewrite Eg, Ep, Emin, Emax, Es, El.
      pose proof (curve_monotone (inv_gamma self) (power self)
                    (Z.max 0 (last_epoch self - start_at self))
                    (Z.max 0 (last_epoch self + Z.of_nat n - start_at self))
                    Hg Hp ltac:(lia)) as Hc.
      clamp_cases.
Qed.

Lemma get_value_warmup_witness :
  get_value (Build_EMAWarmup 1 1 0 1 5 3) = Ok 0 /\
  exists v : R,
    get_value (Build_EMAWarmup 1 1 0 1 5 7) = Ok v /\
    0 <= v <= 1 /\
    forall n : nat,
    exists w : R,
      get_value (Nat.iter n step (Build_EMAWarmup 1 1 0 1 5 7)) = Ok w /\
      v <= w.
Proof.
  split.
  - destruct (get_value_warmup (Build_EMAWarmup 1 1 0 1 5 3)) as [Ha _].
    apply Ha; cbn; [lra | lra | lia].
  - destruct (get_value_warmup (Build_EMAWarmup 1 1 0 1 5 7)) as [_ Hb].
    apply Hb; cbn; [lra | lra | lra | lia].
Defined.

(** C2 as stated fails on unvalidated configurations: with
    [min_value = 1/2] the value before [start_at] is 1/2 and not 0; with
    [power = -1] the value decreases from epoch 0 to epoch 1; with
    [min_value = 1 > max_value = 0] the value 0 is below [min_value]; with
    [inv_gamma = 0] the call raises, and with [inv_gamma = -1] it raises
    at epoch 1, where the base of the power is 0. *)
Lemma get_value_warmup_counterexample :
  get_value (Build_EMAWarmup 1 1 (1 / 2) 1 10 0) = Ok (1 / 2) /\
  (get_value (Build_EMAWarmup 1 (-1) (-5) 1 0 0) = Ok 0 /\
   get_value (Build_EMAWarmup 1 (-1) (-5) 1 0 1) = Ok (-1)) /\
  get_value (Build_EMAWarmup 1 1 1 0 0 0) = Ok 0 /\
  get_value (Build_EMAWarmup 0 1 0 1 0 0) = Raise ZeroDivisionError /\
  get_value (Build_EMAWarmup (-1) 1 0 1 0 1) = Raise ZeroDivisionError.
Proof.
  repeat split.
  - rewrite get_value_before_start by (cbn; try lra; lia).
    cbn; f_equal; clamp_cases.
  - rewrite get_value_closed_form by (cbn; lra).
    cbn [inv_gamma power min_value max_value start_at last_epoch].
    replace (1 + IZR (Z.max 0 (0 - 0)) / 1) with 1 by (cbn; lra).
    rewrite Rpower_base_1; f_equal; clamp_cases.
  - rewrite get_value_closed_form by (cbn; lra).
    cbn [inv_gamma power min_value max_value start_at last_epoch].
    replace (1 + IZR (Z.max 0 (1 - 0)) / 1) with 2 by (cbn; lra).
    replace (- -1) with 1 by lra.
    rewrite Rpower_1 by lra; f_equal; clamp_cases.
  - rewrite get_value_closed_form by (cbn; lra).
    cbn [inv_gamma power min_value max_value start_at last_epoch].
    replace (1 + IZR (Z.max 0 (0 - 0)) / 1) with 1 by (cbn; lra).
    rewrite Rpower_base_1; f_equal; clamp_cases.
  - unfold get_value; cbn [inv_gamma].
    rewrite float_div_zero; reflexivity.
  - unfold get_value.
    cbn [inv_gamma power min_value max_value start_at last_epoch].
    rewrite float_div_nonzero by lra.
    replace (1 + IZR (Z.max 0 (1 - 0)) / -1) with 0 by (cbn; lra).
    rewrite float_pow_zero_neg by lra; reflexivity.
Qed.

(** ** Dictionaries *)

Lemma mem_In (k : string) (l : list string) : mem k l = true <-> In k l.
Proof.
  unfold mem; rewrite existsb_exists; split.
  - intros [x [Hin Heq]]; apply String.eqb_eq in Heq; subst; assumption.
  - intros Hin; exists k; split; [assumption | apply String.eqb_refl].
Qed.

Lemma keys_eq_incl (a b : Dict) :
  keys_eq a b = true -> forall k, In k (keys a) -> In k (keys b).
Proof.
  unfold keys_eq; intros Heq k Hin.
  apply andb_prop in Heq as [Hab _].
  rewrite forallb_forall in Hab.
  apply mem_In, Hab, Hin.
Qed.

Lemma dict_get_in_keys (d : Dict) (k : string) :
  In k (keys d) -> exists v, dict_get d k = Some v.
Proof.
  induction d as [| [k0 v0] d IH]; cbn; [contradiction |].
  intros Hin; destruct (String.eqb_spec k0 k) as [_ | Hne].
  - eexists; reflexivity.
  - destruct Hin as [Heq | Hin]; [contradiction | apply IH, Hin].
Qed.

Lemma dict_get_some_in_keys (d : Dict) (k : string) (v : Tensor) :
  dict_get d k = Some v -> In k (keys d).
Proof.
  induction d as [| [k0 v0] d IH]; cbn; [discriminate |].
  destruct (String.eqb_spec k0 k) as [-> | Hne]; [left; reflexivity |].
  intros Hget; right; apply IH, Hget.
Qed.

Lemma dict_get_some_in (d : Dict) (k : string) (v : Tensor) :
  dict_get d k = Some v -> In (k, v) d.
Proof.
  induction d as [| [k0 v0] d IH]; cbn; [discriminate |].
  destruct (String.eqb_spec k0 k) as [-> | Hne].
  - intros [= ->]; left; reflexivity.
  - intros Hget; right; apply IH, Hget.
Qed.

Lemma in_dict_get (d : Dict) (k : string) (v : Tensor) :
  dict_ok d -> In (k, v) d -> dict_get d k = Some v.
Proof.
  unfold dict_ok; induction d as [| [k0 v0] d IH]; cbn; [contradiction |].
  intros Hnd [Heq | Hin].
  - injection Heq as -> ->; rewrite String.eqb_refl; reflexivity.
  - inversion Hnd as [| ? ? Hnotin Hnd']; subst.
    destruct (String.eqb_spec k0 k) as [-> | Hne].
    + exfalso; apply Hnotin.
      change k with (fst (k, v)); apply in_map, Hin.
    + apply IH; assumption.
Qed.

Lemma keys_dict_set (d : Dict) (k : string) (v : Tensor) :
  keys (dict_set d k v) = keys d.
Proof.
  induction d as [| [k0 v0] d IH]; cbn; [reflexivity |].
  destruct (String.eqb k0 k); cbn; [reflexivity | f_equal; exact IH].
Qed.

Lemma dict_get_set_same (d : Dict) (k : string) (a v : Tensor) :
  dict_get d k = Some a -> dict_get (dict_set d k v) k = Some v.
Proof.
  induction d as [| [k0 v0] d IH]; cbn; [discriminate |].
  destruct (String.eqb_spec k0 k) as [-> | Hne]; cbn.
  - rewrite String.eqb_refl; reflexivity.
  - intros Hget; destruct (String.eqb_spec k0 k); [contradiction |].
    apply IH, Hget.
Qed.

Lemma dict_get_set_other (d : Dict) (k k' : string) (v : Tensor) :
  k <> k' -> dict_get (dict_set d k v) k' = dict_get d k'.
Proof.
  intros Hne; induction d as [| [k0 v0] d IH]; cbn; [reflexivity |].
  destruct (String.eqb_spec k0 k) as [-> | Hk]; cbn.
  - destruct (String.eqb_spec k k'); [contradiction | reflexivity].
  - destruct (String.eqb k0 k'); [reflexivity | exact IH].
Qed.

Lemma dict_set_set (d : Dict) (k : string) (v w : Tensor) :
  dict_set (dict_set d k v) k w = dict_set d k w.
Proof.
  induction d as [| [k0 v0] d IH]; cbn; [reflexivity |].
  destruct (String.eqb_spec k0 k) as [-> | Hk]; cbn.
  - rewrite String.eqb_refl; reflexivity.
  - destruct (String.eqb_spec k0 k); [contradiction | f_equal; exact IH].
Qed.

(** ** Tensor arithmetic *)

Lemma length_mul_ (a : Tensor) (c : R) :
  List.length (TensorOps.mul_ a c) = List.length a.
Proof. apply length_map. Qed.

Lemma add__same_shape (a p : Tensor) (alpha : R) :
  List.length a = List.length p ->
  TensorOps.add_ a p alpha = Ok (TensorOps.add_scaled a p alpha).
Proof.
  intros Hlen; unfold TensorOps.add_.
  rewrite Hlen, Nat.eqb_refl; reflexivity.
Qed.

Lemma copy__same_shape (b src : Tensor) :
  List.length b = List.length src -> TensorOps.copy_ b src = Ok src.
Proof.
  intros Hlen; unfold TensorOps.copy_.
  rewrite Hlen, Nat.eqb_refl; reflexivity.
Qed.

(** [shadow * 1 + model * (1 - 1)] is the shadow. *)
Lemma blend_decay_1 (a p : Tensor) :
  List.length a = List.length p ->
  TensorOps.add_scaled (TensorOps.mul_ a 1) p (1 - 1) = a.
Proof.
  revert p; induction a as [| x a IH]; intros [| y p] Hlen;
    cbn in *; try discriminate; try reflexivity.
  f_equal; [ring | apply IH; lia].
Qed.

(** [shadow * 0 + model * (1 - 0)] is the model's tensor. *)
Lemma blend_decay_0 (a p : Tensor) :
  List.length a = List.length p ->
  TensorOps.add_scaled (TensorOps.mul_ a 0) p (1 - 0) = p.
Proof.
  revert p; induction a as [| x a IH]; intros [| y p] Hlen;
    cbn in *; try discriminate; try reflexivity.
  f_equal; [ring | apply IH; lia].
Qed.

(** ** The two loops of ema_update *)

Lemma update_param_ok (decay : R) (name : string) (p a : Tensor) (s : Model) :
  dict_get (named_parameters s) name = Some a ->
  List.length a = List.length p ->
  update_param decay (name, p) s =
  (Ok tt,
   {| named_parameters :=
        dict_set (named_parameters s) name
          (TensorOps.add_scaled (TensorOps.mul_ a decay) p (1 - decay));
      named_buffers := named_buffers s |}).
Proof.
  intros Hget Hlen.
  unfold update_param, bind, averaged_param, store_param, lift.
  rewrite Hget, add__same_shape by (rewrite length_mul_; exact Hlen).
  cbn [named_parameters named_buffers].
  rewrite dict_set_set; reflexivity.
Qed.

Lemma update_param_buffers (decay : R) (item : string * Tensor) (s : Model) :
  named_buffers (snd (update_param decay item s)) = named_buffers s.
Proof.
  destruct item as [name p].
  unfold update_param, bind, averaged_param, store_param, lift.
  destruct (dict_get (named_parameters s) name); [| reflexivity].
  destruct (TensorOps.add_ _ _ _); reflexivity.
Qed.

Lemma param_loop_buffers (decay : R) (items : Dict) (s : Model) :
  named_buffers (snd (for_each items (update_param decay) s))
  = named_buffers s.
Proof.
  revert s; induction items as [| item items IH]; intros s; [reflexivity |].
  cbn [for_each]; unfold bind.
  pose proof (update_param_buffers decay item s) as Hb.
  destruct (update_param decay item s) as [[[] | e] s1]; cbn [snd] in *.
  - rewrite IH; exact Hb.
  - exact Hb.
Qed.

(** With every name present in the shadow, under a tensor of the same
    shape, the first loop completes: each listed parameter is blended,
    the others and the buffers are as before. *)
Lemma param_loop_ok (decay : R) (items : Dict) :
  dict_ok items ->
  forall s : Model,
    (forall name p, In (name, p) items ->
       exists a, dict_get (named_parameters s) name = Some a /\
                 List.length a = List.length p) ->
    exists d' : Dict,
      for_each items (update_param decay) s =
      (Ok tt, {| named_parameters := d'; named_buffers := named_buffers s |})
      /\ keys d' = keys (named_parameters s)
      /\ (forall name p a,
            In (name, p) items ->
            dict_get (named_parameters s) name = Some a ->
            dict_get d' name =
            Some (TensorOps.add_scaled (TensorOps.mul_ a decay) p
                    (1 - decay)))
      /\ (forall name, ~ In name (keys items) ->
            dict_get d' name = dict_get (named_parameters s) name).
Proof.
  unfold dict_ok; induction items as [| [k p0] items IH]; intros Hnd s Hpre.
  - exists (named_parameters s); cbn; repeat split; try tauto.
    destruct s; reflexivity.
  - inversion Hnd as [| ? ? Hnotin Hnd']; subst.
    destruct (Hpre k p0 (or_introl eq_refl)) as [a0 [Hget0 Hlen0]].
    cbn [for_each]; unfold bind.
    rewrite (update_param_ok decay k p0 a0 s Hget0 Hlen0).
    set (s1 := {| named_parameters := _; named_buffers := named_buffers s |}).
    assert (Hother : forall name, name <> k ->
              dict_get (named_parameters s1) name
              = dict_get (named_parameters s) name).
    { intros name Hne; unfold s1; cbn [named_parameters].
      apply dict_get_set_other; congruence. }
    assert (Hrest : forall name p, In (name, p) items -> name <> k).
    { intros name p Hin ->; apply Hnotin.
      change k with (fst (k, p)); apply in_map, Hin. }
    destruct (IH Hnd' s1) as (d' & Hrun & Hkeys & Hblend & Hkeep).
    { intros name p Hin.
      destruct (Hpre name p (or_intror Hin)) as [a [Hget Hlen]].
      exists a; split; [| exact Hlen].
      rewrite Hother by (eapply Hrest; eassumption); exact Hget. }
    exists d'; split; [exact Hrun |].
    split; [rewrite Hkeys; unfold s1; cbn; apply keys_dict_set |].
    split.
    + intros name p a [Heq | Hin] Hget.
      * injection Heq as <- <-.
        rewrite Hkeep by exact Hnotin.
        unfold s1; cbn [named_parameters].
        rewrite Hget in Hget0; injection Hget0 as ->.
        eapply dict_get_set_same; eassumption.
      * apply Hblend; [exact Hin |].
        rewrite Hother by (eapply Hrest; eassumption); exact Hget.
    + intros name Hnin; cbn in Hnin.
      rewrite Hkeep by tauto.
      apply Hother; intros ->; tauto.
Qed.

Lemma update_buffer_ok (name : string) (buf b : Tensor) (s : Model) :
  dict_get (named_buffers s) name = Some b ->
  List.length b = List.length buf ->
  update_buffer (name, buf) s =
  (Ok tt,
   {| named_parameters := named_parameters s;
      named_buffers := dict_set (named_buffers s) name buf |}).
Proof.
  intros Hget Hlen.
  unfold update_buffer, bind, averaged_buffer, store_buffer, lift.
  rewrite Hget, copy__same_shape by exact Hlen; reflexivity.
Qed.

(** The second loop, under the same conditions: each listed buffer is
    replaced by the model's, the parameters are as before. *)
Lemma buffer_loop_ok (items : Dict) :
  dict_ok items ->
  forall s : Model,
    (forall name buf, In (name, buf) items ->
       exists b, dict_get (named_buffers s) name = Some b /\
                 List.length b = List.length buf) ->
    exists d' : Dict,
      for_each items update_buffer s =
      (Ok tt, {| named_parameters := named_parameters s;
                 named_buffers := d' |})
      /\ (forall name buf, In (name, buf) items ->
            dict_get d' name = Some buf)
      /\ (forall name, ~ In name (keys items) ->
            dict_get d' name = dict_get (named_buffers s) name).
Proof.
  unfold dict_ok; induction items as [| [k b0] items IH]; intros Hnd s Hpre.
  - exists (named_buffers s); cbn; repeat split; try tauto.
    destruct s; reflexivity.
  - inversion Hnd as [| ? ? Hnotin Hnd']; subst.
    destruct (Hpre k b0 (or_introl eq_refl)) as [a0 [Hget0 Hlen0]].
    cbn [for_each]; unfold bind.
    rewrite (update_buffer_ok k b0 a0 s Hget0 Hlen0).
    set (s1 := {| named_parameters := named_parameters s;
                  named_buffers := _ |}).
    assert (Hother : forall name, name <> k ->
              dict_get (named_buffers s1) name
              = dict_get (named_buffers s) name).
    { intros name Hne; unfold s1; cbn [named_buffers].
      apply dict_get_set_other; congruence. }
    assert (Hrest : forall name p, In (name, p) items -> name <> k).
    { intros name p Hin ->; apply Hnotin.
      change k with (fst (k, p)); apply in_map, Hin. }
    destruct (IH Hnd' s1) as (d' & Hrun & Hcopy & Hkeep).
    { intros name buf Hin.
      destruct (Hpre name buf (or_intror Hin)) as [b [Hget Hlen]].
      exists b; split; [| exact Hlen].
      rewrite Hother by (eapply Hrest; eassumption); exact Hget. }
    exists d'; split; [exact Hrun |].
    split.
    + intros name buf [Heq | Hin].
      * injection Heq as <- <-.
        rewrite Hkeep by exact Hnotin.
        unfold s1; cbn [named_buffers].
        eapply dict_get_set_same; eassumption.
      * apply Hcopy; exact Hin.
    + intros name Hnin; cbn in Hnin.
      rewrite Hkeep by tauto.
      apply Hother; intros ->; tauto.
Qed.

(** ** ema_update as a whole *)

Lemma ema_update_unfold (model : Model) (decay : R) (averaged : Model) :
  ema_update model decay averaged =
  if keys_eq (named_parameters model) (named_parameters averaged) then
    match for_each (named_parameters model) (update_param decay) averaged with
    | (Ok _, s1) =>
      if keys_eq (named_buffers model) (named_buffers s1)
      then for_each (named_buffers model) update_buffer s1
      else (Raise AssertionError, s1)
    | (Raise e, s1) => (Raise e, s1)
    end
  else (Raise AssertionError, averaged).
Proof.
  unfold ema_update, bind, get, assert_, ret, raise.
  destruct (keys_eq (named_parameters model) (named_parameters averaged));
    [| reflexivity].
  destruct (for_each _ _ averaged) as [[[] | e] s1]; [| reflexivity].
  destruct (keys_eq (named_buffers model) (named_buffers s1)); reflexivity.
Qed.

Lemma shadow_entries (m a : Dict) :
  dict_ok m -> keys_eq m a = true -> same_shapes m a ->
  forall name p, In (name, p) m ->
    exists q, dict_get a name = Some q /\ List.length q = List.length p.
Proof.
  intros Hok Hkeys Hshape name p Hin.
  pose proof (in_dict_get m name p Hok Hin) as Hget.
  destruct (dict_get_in_keys a name) as [q Hq].
  { apply (keys_eq_incl m a Hkeys).
    eapply dict_get_some_in_keys; eassumption. }
  exists q; split; [exact Hq | eapply Hshape; eassumption].
Qed.

(** The first half of an update whose parameter names and shapes match:
    the loop completes with every parameter blended and no buffer
    touched. *)
Lemma ema_update_param_half (model : Model) (decay : R) (averaged : Model) :
  dict_ok (named_parameters model) ->
  keys_eq (named_parameters model) (named_parameters averaged) = true ->
  same_shapes (named_parameters model) (named_parameters averaged) ->
  exists d' : Dict,
    for_each (named_parameters model) (update_param decay) averaged =
    (Ok tt, {| named_parameters := d';
               named_buffers := named_buffers averaged |}) /\
    forall name p a,
      dict_get (named_parameters model) name = Some p ->
      dict_get (named_parameters averaged) name = Some a ->
      dict_get d' name =
      Some (TensorOps.add_scaled (TensorOps.mul_ a decay) p (1 - decay)).
Proof.
  intros Hok Hkeys Hshape.
  destruct (param_loop_ok decay (named_parameters model) Hok averaged
              (shadow_entries _ _ Hok Hkeys Hshape))
    as (d' & Hrun & _ & Hblend & _).
  exists d'; split; [exact Hrun |].
  intros name p a Hp Ha; eapply Hblend; [| exact Ha].
  apply dict_get_some_in, Hp.
Qed.

(** An update whose names and shapes all match completes. *)
Lemma ema_update_completes (model : Model) (decay : R) (averaged : Model) :
  dict_ok (named_parameters model) ->
  dict_ok (named_buffers model) ->
  keys_eq (named_parameters model) (named_parameters averaged) = true ->
  keys_eq (named_buffers model) (named_buffers averaged) = true ->
  same_shapes (named_parameters model) (named_parameters averaged) ->
  same_shapes (named_buffers model) (named_buffers averaged) ->
  exists s' : Model,
    ema_update model decay averaged = (Ok tt, s') /\
    (forall name p a,
       dict_get (named_parameters model) name = Some p ->
       dict_get (named_parameters averaged) name = Some a ->
       dict_get (named_parameters s') name =
       Some (TensorOps.add_scaled (TensorOps.mul_ a decay) p (1 - decay))) /\
    (forall name buf,
       dict_get (named_buffers model) name = Some buf ->
       dict_get (named_buffers s') name = Some buf).
Proof.
  intros Hokp Hokb Hkp Hkb Hsp Hsb.
  destruct (ema_update_param_half model decay averaged Hokp Hkp Hsp)
    as (d1 & Hrun1 & Hblend).
  set (s1 := {| named_parameters := d1;
                named_buffers := named_buffers averaged |}) in *.
  destruct (buffer_loop_ok (named_buffers model) Hokb s1
              (shadow_entries _ _ Hokb Hkb Hsb))
    as (d2 & Hrun2 & Hcopy & _).
  eexists; split.
  - rewrite ema_update_unfold, Hkp, Hrun1.
    fold s1; unfold s1 at 1; cbn [named_buffers].
    rewrite Hkb; exact Hrun2.
  - cbn [named_parameters named_buffers]; split.
    + exact Hblend.
    + intros name buf Hget; apply Hcopy, dict_get_some_in, Hget.
Qed.

(** A run on one parameter and one buffer, with [decay = 1/2]. *)
Example ema_update_halfway :
  ema_update
    {| named_parameters := [("w"%string, [1; 2])];
       named_buffers := [("running_mean"%string, [7])] |}
    (1 / 2)
    {| named_parameters := [("w"%string, [5; 6])];
       named_buffers := [("running_mean"%string, [0])] |}
  = (Ok tt,
     {| named_parameters := [("w"%string, [3; 4])];
        named_buffers := [("running_mean"%string, [7])] |}).
Proof.
  cbv -[Rmult Rplus Rminus Rdiv Rinv Ropp IZR].
  repeat f_equal; lra.
Qed.

(** A shape mismatch stops the first loop after [mul_] has scaled the
    shadow's tensor. *)
Example ema_update_shape_mismatch :
  ema_update
    {| named_parameters := [("w"%string, [1])]; named_buffers := [] |}
    0
    {| named_parameters := [("w"%string, [5; 6])]; named_buffers := [] |}
  = (Raise RuntimeError,
     {| named_parameters := [("w"%string, [5 * 0; 6 * 0])];
        named_buffers := [] |}).
Proof. cbv -[Rmult Rplus Rminus Rdiv Rinv Ropp IZR]; reflexivity. Qed.

(** C5: for a model and a shadow with the same names (and, name by name,
    the same shapes), [ema_update] completes; with [decay = 1] every shadow
    parameter is unchanged, with [decay = 0] every shadow parameter is the
    model's parameter, and for every decay every shadow buffer is the
    model's buffer. *)
Theorem ema_update_identities (model averaged : Model) :
  dict_ok (named_parameters model) ->
  dict_ok (named_buffers model) ->
  keys_eq (named_parameters model) (named_parameters averaged) = true ->
  keys_eq (named_buffers model) (named_buffers averaged) = true ->
  same_shapes (named_parameters model) (named_parameters averaged) ->
  same_shapes (named_buffers model) (named_buffers averaged) ->
  (exists s' : Model,
     ema_update model 1 averaged = (Ok tt, s') /\
     forall name a,
       dict_get (named_parameters averaged) name = Some a ->
       dict_get (named_parameters s') name = Some a) /\
  (exists s' : Model,
     ema_update model 0 averaged = (Ok tt, s') /\
     forall name p,
       dict_get (named_parameters model) name = Some p ->
       dict_get (named_parameters s') name = Some p) /\
  (forall decay : R,
   exists s' : Model,
     ema_update model decay averaged = (Ok tt, s') /\
     forall name buf,
       dict_get (named_buffers model) name = Some buf ->
       dict_get (named_buffers s') name = Some buf).
Proof.
  intros Hokp Hokb Hkp Hkb Hsp Hsb.
  assert (Hback : forall name a,
            dict_get (named_parameters averaged) name = Some a ->
            exists p, dict_get (named_parameters model) name = Some p).
  { intros name a Ha; apply dict_get_in_keys.
    unfold keys_eq in Hkp; apply andb_prop in Hkp as [_ Hba].
    rewrite forallb_forall in Hba.
    apply mem_In, Hba; eapply dict_get_some_in_keys; eassumption. }
  assert (Hfwd : forall name p,
            dict_get (named_parameters model) name = Some p ->
            exists a, dict_get (named_parameters averaged) name = Some a).
  { intros name p Hp; apply dict_get_in_keys, (keys_eq_incl _ _ Hkp).
    eapply dict_get_some_in_keys; eassumption. }
  repeat split.
  - destruct (ema_update_completes model 1 averaged Hokp Hokb Hkp Hkb Hsp Hsb)
      as (s' & Hrun & Hblend & _).
    exists s'; split; [exact Hrun |].
    intros name a Ha; destruct (Hback name a Ha) as [p Hp].
    rewrite (Hblend name p a Hp Ha); f_equal.
    apply blend_decay_1; eapply Hsp; eassumption.
  - destruct (ema_update_completes model 0 averaged Hokp Hokb Hkp Hkb Hsp Hsb)
      as (s' & Hrun & Hblend & _).
    exists s'; split; [exact Hrun |].
    intros name p Hp; destruct (Hfwd name p Hp) as [a Ha].
    rewrite (Hblend name p a Hp Ha); f_equal.
    apply blend_decay_0; eapply Hsp; eassumption.
  - intros decay.
    destruct (ema_update_completes model decay averaged
                Hokp Hokb Hkp Hkb Hsp Hsb) as (s' & Hrun & _ & Hcopy).
    exists s'; split; [exact Hrun | exact Hcopy].
Qed.

(** C6: if the parameter names or the buffer names of model and shadow
    differ, [ema_update] raises and never completes: the exception is the
    [AssertionError] of the failed check, unless the parameter loop has
    itself raised before the buffer names are checked. *)
Theorem ema_update_name_mismatch (model : Model) (decay : R)
        (averaged : Model) :
  keys_eq (named_parameters model) (named_parameters averaged) = false \/
  keys_eq (named_buffers model) (named_buffers averaged) = false ->
  exists (e : exn) (s' : Model),
    ema_update model decay averaged = (Raise e, s') /\
    (e = AssertionError \/
     fst (for_each (named_parameters model) (update_param decay) averaged)
     = Raise e).
Proof.
  intros Hmis; rewrite ema_update_unfold.
  destruct (keys_eq (named_parameters model) (named_parameters averaged))
    eqn:Hkp.
  - destruct Hmis as [Hp | Hb]; [discriminate |].
    pose proof (param_loop_buffers decay (named_parameters model) averaged)
      as Hbuf.
    destruct (for_each _ _ averaged) as [[[] | e] s1]; cbn [fst snd] in *.
    + rewrite Hbuf, Hb.
      exists AssertionError, s1; split; [reflexivity | left; reflexivity].
    + exists e, s1; split; [reflexivity | right; reflexivity].
  - exists AssertionError, averaged; split; [reflexivity | left; reflexivity].
Qed.

(** C10: on a parameter-name mismatch [ema_update] raises
    [AssertionError] with the shadow unchanged; on a buffer-name mismatch
    (parameter names and shapes matching) it raises [AssertionError] with
    every shadow parameter already blended and every buffer untouched. *)
Theorem ema_update_failure_not_atomic (model : Model) (decay : R)
        (averaged : Model) :
  (keys_eq (named_parameters model) (named_parameters averaged) = false ->
   ema_update model decay averaged = (Raise AssertionError, averaged)) /\
  (dict_ok (named_parameters model) ->
   keys_eq (named_parameters model) (named_parameters averaged) = true ->
   same_shapes (named_parameters model) (named_parameters averaged) ->
   keys_eq (named_buffers model) (named_buffers averaged) = false ->
   exists d' : Dict,
     ema_update model decay averaged =
     (Raise AssertionError,
      {| named_parameters := d';
         named_buffers := named_buffers averaged |}) /\
     forall name p a,
       dict_get (named_parameters model) name = Some p ->
       dict_get (named_parameters averaged) name = Some a ->
       dict_get d' name =
       Some (TensorOps.add_scaled (TensorOps.mul_ a decay) p (1 - decay))).
Proof.
  split.
  - intros Hkp; rewrite ema_update_unfold, Hkp; reflexivity.
  - intros Hokp Hkp Hsp Hkb.
    destruct (ema_update_param_half model decay averaged Hokp Hkp Hsp)
      as (d1 & Hrun1 & Hblend).
    exists d1; split; [| exact Hblend].
    rewrite ema_update_unfold, Hkp, Hrun1; cbn [named_buffers].
    rewrite Hkb; reflexivity.
Qed.

Ltac one_entry_shapes :=
  let name := fresh "name" in
  let p := fresh "p" in
  let q := fresh "q" in
  let Hp := fresh "Hp" in
  let Hq := fresh "Hq" in
  unfold same_shapes; intros name p q; cbn -[String.eqb];
  destruct (String.eqb _ name);
  [ intros Hp Hq; injection Hp as <-; injection Hq as <-; reflexivity
  | discriminate ].

Ltac one_entry_ok := unfold dict_ok; cbn; repeat constructor; cbn; tauto.

Lemma ema_update_identities_witness :
  let model := {| named_parameters := [("w"%string, [1; 2])];
                  named_buffers := [("running_mean"%string, [3])] |} in
  let averaged := {| named_parameters := [("w"%string, [5; 6])];
                     named_buffers := [("running_mean"%string, [0])] |} in
  (exists s' : Model,
     ema_update model 1 averaged = (Ok tt, s') /\
     forall name a,
       dict_get (named_parameters averaged) name = Some a ->
       dict_get (named_parameters s') name = Some a) /\
  (exists s' : Model,
     ema_update model 0 averaged = (Ok tt, s') /\
     forall name p,
       dict_get (named_parameters model) name = Some p ->
       dict_get (named_parameters s') name = Some p) /\
  (forall decay : R,
   exists s' : Model,
     ema_update model decay averaged = (Ok tt, s') /\
     forall name buf,
       dict_get (named_buffers model) name = Some buf ->
       dict_get (named_buffers s') name = Some buf).
Proof.
  intros model averaged.
  apply (ema_update_identities model averaged); subst model averaged.
  - one_entry_ok.
  - one_entry_ok.
  - reflexivity.
  - reflexivity.
  - one_entry_shapes.
  - one_entry_shapes.
Defined.

Lemma ema_update_name_mismatch_witness :
  let model := {| named_parameters := [("w"%string, [1; 2])];
                  named_buffers := [] |} in
  let averaged := {| named_parameters := [("v"%string, [5; 6])];
                     named_buffers := [] |} in
  exists (e : exn) (s' : Model),
    ema_update model (1 / 2) averaged = (Raise e, s') /\
    (e = AssertionError \/
     fst (for_each (named_parameters model) (update_param (1 / 2)) averaged)
     = Raise e).
Proof.
  intros model averaged.
  apply (ema_update_name_mismatch model (1 / 2) averaged).
  left; reflexivity.
Defined.

Lemma ema_update_failure_not_atomic_witness :
  (let model := {| named_parameters := [("w"%string, [1; 2])];
                   named_buffers := [] |} in
   let averaged := {| named_parameters := [("v"%string, [5; 6])];
                      named_buffers := [] |} in
   ema_update model (1 / 2) averaged = (Raise AssertionError, averaged)) /\
  (let model := {| named_parameters := [("w"%string, [1; 2])];
                   named_buffers := [("running_mean"%string, [3])] |} in
   let averaged := {| named_parameters := [("w"%string, [5; 6])];
                      named_buffers := [("running_var"%string, [0])] |} in
   exists d' : Dict,
     ema_update model (1 / 2) averaged =
     (Raise AssertionError,
      {| named_parameters := d';
         named_buffers := named_buffers averaged |}) /\
     forall name p a,
       dict_get (named_parameters model) name = Some p ->
       dict_get (named_parameters averaged) name = Some a ->
       dict_get d' name =
       Some (TensorOps.add_scaled (TensorOps.mul_ a (1 / 2)) p
               (1 - 1 / 2))).
Proof.
  split.
  - intros model averaged.
    apply (ema_update_failure_not_atomic model (1 / 2) averaged).
    reflexivity.
  - intros model averaged.
    apply (ema_update_failure_not_atomic model (1 / 2) averaged);
      subst model averaged.
    + one_entry_ok.
    + reflexivity.
    + one_entry_shapes.
    + reflexivity.
Defined.

(** ** The schedule of the sampler *)

Lemma removelast_map_seq {A : Type} (f : nat -> A) (n : nat) :
  removelast (map f (seq 0 (S n))) = map f (seq 0 n).
Proof. rewrite seq_S, map_app; cbn [map]; apply removelast_last. Qed.

(** Entry [i] of the schedule is the warp of [1 - i / steps]. *)
Lemma sample_schedule_entries (steps : nat) :
  sample_schedule steps =
  map (fun i => get_crash_schedule (1 + INR i * ((0 - 1) / INR steps)))
      (seq 0 steps).
Proof.
  unfold sample_schedule, Torch.linspace.
  replace (steps + 1)%nat with (S steps) by lia.
  replace (S steps - 1)%nat with steps by lia.
  rewrite removelast_map_seq, map_map; reflexivity.
Qed.

Lemma sample_schedule_length (steps : nat) :
  List.length (sample_schedule steps) = steps.
Proof. rewrite sample_schedule_entries, length_map, length_seq; reflexivity. Qed.

Lemma fraction_range (i n : nat) :
  (i < n)%nat -> 0 <= INR i / INR n < 1.
Proof.
  intros Hlt.
  assert (Hi : 0 <= INR i) by apply pos_INR.
  assert (Hin : INR i < INR n) by (apply lt_INR; assumption).
  assert (Hn : 0 < / INR n) by (apply Rinv_0_lt_compat; lra).
  split.
  - unfold Rdiv; apply Rmult_le_pos; lra.
  - apply Rmult_lt_reg_r with (INR n); [lra |].
    unfold Rdiv; rewrite Rmult_assoc, Rinv_l by lra; lra.
Qed.

Lemma linspace_down_range (i steps : nat) :
  (i < steps)%nat -> 0 < 1 + INR i * ((0 - 1) / INR steps) <= 1.
Proof.
  intros Hlt; pose proof (fraction_range i steps Hlt) as Hq.
  replace (1 + INR i * ((0 - 1) / INR steps)) with (1 - INR i / INR steps)
    by (unfold Rdiv; ring).
  lra.
Qed.

Lemma sample_schedule_range (steps : nat) :
  Forall (fun u => 0 < u <= 1) (sample_schedule steps).
Proof.
  rewrite sample_schedule_entries; apply Forall_forall; intros u Hin.
  apply in_map_iff in Hin as [i [<- Hi]]; apply in_seq in Hi.
  pose proof (linspace_down_range i steps ltac:(lia)) as Hr.
  split; [apply crash_pos | apply crash_le_1]; lra.
Qed.

Lemma sample_sigmas_positive (steps : nat) :
  Forall (fun s => 0 < s)
         (map (fun u => snd (get_alphas_sigmas u)) (sample_schedule steps)).
Proof.
  apply Forall_forall; intros s Hin.
  apply in_map_iff in Hin as [u [<- Hu]].
  pose proof (sample_schedule_range steps) as Hr.
  rewrite Forall_forall in Hr.
  cbn [get_alphas_sigmas snd]; apply sin_scaled_pos, Hr, Hu.
Qed.

(** ** The sampling loop *)

Lemma index_in_range {S A : Type} (l : list A) (i : nat) (d : A) (s : S) :
  (i < List.length l)%nat -> index l i s = (Ok (nth i l d), s).
Proof.
  intros Hlt; unfold index.
  rewrite (nth_error_nth' l d) by assumption; reflexivity.
Qed.

Ltac step_cbn :=
  cbn [fst snd local_x local_pred generator drawn queries].

Section SamplerFacts.

Context {T G : Type} `{Array T}.

(** One iteration, with every index in range: it queries the model once,
    at the current [x] and at [t[i]], binds [pred], and draws from the
    generator only when [eta] is not 0. *)
Lemma sample_step_runs (randn_like : T -> G -> T * G) (model : T -> R -> T)
      (steps : nat) (eta : R) (t alphas sigmas : list R) (i : nat)
      (s : Sampler T G) :
  List.length t = steps ->
  List.length alphas = steps ->
  List.length sigmas = steps ->
  (i < steps)%nat ->
  exists s' : Sampler T G,
    sample_step randn_like model steps eta t alphas sigmas i s = (Ok tt, s')
    /\ queries s' = (local_x s, nth i t 0) :: queries s
    /\ local_pred s' <> None
    /\ (eta = 0 -> generator s' = generator s /\ drawn s' = drawn s).
Proof.
  intros Ht Ha Hs Hi.
  unfold sample_step, bind, get_x.
  rewrite (index_in_range t i 0) by lia.
  unfold call_model.
  rewrite (index_in_range alphas i 0), (index_in_range sigmas i 0) by lia.
  unfold set_pred; cbn [local_x local_pred generator drawn queries].
  destruct (i <? steps - 1)%nat eqn:Hnext.
  - apply Nat.ltb_lt in Hnext.
    rewrite (index_in_range sigmas (i + 1) 0),
            (index_in_range alphas (i + 1) 0) by lia.
    unfold set_x; cbn [local_x local_pred generator drawn queries].
    destruct (Req_dec_T eta 0) as [Heta | Heta].
    + eexists; split; [reflexivity |]; cbn.
      repeat split; discriminate.
    + unfold draw_like; cbn [local_x local_pred generator drawn queries].
      destruct (randn_like _ _) as [noise g'].
      eexists; split; [reflexivity |]; cbn.
      repeat split; try discriminate; contradiction.
  - eexists; split; [reflexivity |]; cbn.
    repeat split; discriminate.
Qed.

Lemma sample_loop_runs (randn_like : T -> G -> T * G) (model : T -> R -> T)
      (steps : nat) (eta : R) (t alphas sigmas : list R) (k : nat) :
  List.length t = steps ->
  List.length alphas = steps ->
  List.length sigmas = steps ->
  forall (a : nat) (s : Sampler T G),
    (a + k <= steps)%nat ->
    exists s' : Sampler T G,
      for_each (seq a k)
               (sample_step randn_like model steps eta t alphas sigmas) s
      = (Ok tt, s')
      /\ List.length (queries s') = (List.length (queries s) + k)%nat
      /\ ((0 < k)%nat -> local_pred s' <> None)
      /\ (eta = 0 -> generator s' = generator s /\ drawn s' = drawn s).
Proof.
  intros Ht Ha Hs; induction k as [| k IH]; intros a s Hak.
  - exists s; cbn; repeat split; try lia.
  - cbn [seq for_each]; unfold bind.
    destruct (sample_step_runs randn_like model steps eta t alphas sigmas
                a s Ht Ha Hs ltac:(lia)) as (s1 & Hrun & Hq & Hp & Hg).
    rewrite Hrun.
    destruct (IH (S a) s1 ltac:(lia)) as (s' & Hrun' & Hq' & Hp' & Hg').
    exists s'; split; [exact Hrun' |].
    split; [rewrite Hq', Hq; cbn; lia |].
    split.
    + intros _; destruct k as [| k'].
      * cbn in Hrun'; injection Hrun' as <-; exact Hp.
      * apply Hp'; lia.
    + intros Heta; destruct (Hg Heta) as [E1 E2].
      destruct (Hg' Heta) as [E3 E4]; split; congruence.
Qed.

(** With [eta = 0] an iteration reads neither the generator nor the draw
    count: two runs that agree on [x], [pred] and the queries made still
    agree afterwards, whatever their random sources. *)
Lemma sample_step_eta0 (randn1 randn2 : T -> G -> T * G)
      (model : T -> R -> T) (steps : nat) (t alphas sigmas : list R)
      (i : nat) (s1 s2 : Sampler T G) :
  local_x s1 = local_x s2 ->
  local_pred s1 = local_pred s2 ->
  queries s1 = queries s2 ->
  let r1 := sample_step randn1 model steps 0 t alphas sigmas i s1 in
  let r2 := sample_step randn2 model steps 0 t alphas sigmas i s2 in
  fst r1 = fst r2 /\
  local_x (snd r1) = local_x (snd r2) /\
  local_pred (snd r1) = local_pred (snd r2) /\
  queries (snd r1) = queries (snd r2) /\
  generator (snd r1) = generator s1 /\
  drawn (snd r1) = drawn s1.
Proof.
  intros Hx Hp Hq; cbv zeta.
  unfold sample_step, bind, get_x, index, call_model, set_pred, set_x,
    ret, raise.
  destruct (nth_error t i); step_cbn; [| tauto].
  rewrite Hx, Hq.
  destruct (nth_error alphas i); step_cbn; [| tauto].
  destruct (nth_error sigmas i); step_cbn; [| tauto].
  destruct (i <? steps - 1)%nat; step_cbn; [| tauto].
  destruct (nth_error sigmas (i + 1)); step_cbn; [| tauto].
  destruct (nth_error alphas (i + 1)); step_cbn; [| tauto].
  destruct (Req_dec_T 0 0) as [_ | Hne]; [| lra].
  step_cbn; tauto.
Qed.

Lemma sample_loop_eta0 (randn1 randn2 : T -> G -> T * G)
      (model : T -> R -> T) (steps : nat) (t alphas sigmas : list R)
      (idx : list nat) :
  forall s1 s2 : Sampler T G,
    local_x s1 = local_x s2 ->
    local_pred s1 = local_pred s2 ->
    queries s1 = queries s2 ->
    let r1 := for_each idx
                (sample_step randn1 model steps 0 t alphas sigmas) s1 in
    let r2 := for_each idx
                (sample_step randn2 model steps 0 t alphas sigmas) s2 in
    fst r1 = fst r2 /\
    local_x (snd r1) = local_x (snd r2) /\
    local_pred (snd r1) = local_pred (snd r2) /\
    queries (snd r1) = queries (snd r2) /\
    generator (snd r1) = generator s1 /\
    drawn (snd r1) = drawn s1.
Proof.
  induction idx as [| i idx IH]; intros s1 s2 Hx Hp Hq; cbv zeta.
  - cbn; tauto.
  - cbn [for_each]; unfold bind.
    pose proof (sample_step_eta0 randn1 randn2 model steps t alphas sigmas
                  i s1 s2 Hx Hp Hq) as Hstep; cbv zeta in Hstep.
    destruct (sample_step randn1 model steps 0 t alphas sigmas i s1)
      as [[[] | e1] s1'];
      destruct (sample_step randn2 model steps 0 t alphas sigmas i s2)
      as [[[] | e2] s2'];
      cbn [fst snd] in Hstep;
      destruct Hstep as (Hr & Hx' & Hp' & Hq' & Hg & Hd);
      try discriminate.
    + pose proof (IH s1' s2' Hx' Hp' Hq') as Hrest; cbv zeta in Hrest.
      rewrite Hg, Hd in Hrest; exact Hrest.
    + cbn [fst snd]; tauto.
Qed.

End SamplerFacts.

(** One step: the result is [pred], computed from a single call of the
    model at the first timestep, whatever [eta] is. *)
Example sample_one_step {T G : Type} `{Array T}
        (randn_like : T -> G -> T * G) (model : T -> R -> T) (x : T)
        (eta : R) (g : G) :
  let t0 := get_crash_schedule (1 + INR 0 * ((0 - 1) / INR (1 + 1 - 1))) in
  sample randn_like model x 1 eta g =
  (Ok (minus (scale x (fst (get_alphas_sigmas t0)))
             (scale (model x t0) (snd (get_alphas_sigmas t0)))),
   {| local_x := x;
      local_pred :=
        Some (minus (scale x (fst (get_alphas_sigmas t0)))
                    (scale (model x t0) (snd (get_alphas_sigmas t0))));
      generator := g; drawn := 0; queries := [(x, t0)] |}).
Proof. reflexivity. Qed.

(** C1: for every [steps >= 1] the working schedule of [sample] has exactly
    [steps] entries, all strictly positive, so that [sigmas[i]] is not zero
    at any step [i] (the DDIM ratio never divides by zero); and [sample]
    returns after exactly [steps] calls of the model. *)
Theorem sample_schedule_never_zero {T G : Type} `{Array T}
        (randn_like : T -> G -> T * G) (model : T -> R -> T) (x : T)
        (steps : nat) (eta : R) (g : G) :
  (1 <= steps)%nat ->
  let t := sample_schedule steps in
  let sigmas := map (fun u => snd (get_alphas_sigmas u)) t in
  List.length t = steps /\
  Forall (fun u => 0 < u) t /\
  (forall i : nat, (i < steps)%nat -> nth i sigmas 0 <> 0) /\
  exists (pred : T) (s' : Sampler T G),
    sample randn_like model x steps eta g = (Ok pred, s') /\
    List.length (queries s') = steps.
Proof.
  intros Hsteps t sigmas.
  assert (Hlen : List.length t = steps) by apply sample_schedule_length.
  split; [exact Hlen |].
  split.
  { eapply Forall_impl; [| apply sample_schedule_range].
    cbv beta; intros u Hu; lra. }
  split.
  { intros i Hi.
    pose proof (sample_sigmas_positive steps) as Hpos.
    rewrite Forall_forall in Hpos.
    assert (Hin : In (nth i sigmas 0) sigmas).
    { apply nth_In; unfold sigmas; rewrite length_map, Hlen; exact Hi. }
    apply Hpos in Hin; lra. }
  unfold sample, sample_loop, bind; fold t.
  destruct (sample_loop_runs randn_like model steps eta t
              (map (fun u => fst (get_alphas_sigmas u)) t)
              (map (fun u => snd (get_alphas_sigmas u)) t) steps
              Hlen ltac:(rewrite length_map; exact Hlen)
              ltac:(rewrite length_map; exact Hlen) 0%nat
              {| local_x := x; local_pred := None; generator := g;
                 drawn := 0; queries := [] |} ltac:(lia))
    as (s' & Hrun & Hq & Hp & _).
  rewrite Hrun; unfold get_pred.
  destruct (local_pred s') as [pred |] eqn:Hpred.
  - exists pred, s'; split; [reflexivity | exact Hq].
  - exfalso; apply Hp; [lia | reflexivity].
Qed.

Lemma sample_schedule_never_zero_witness :
  let randn_like := fun (_ : R) (g : nat) => (0, S g) in
  let model := fun (x : R) (_ : R) => x in
  let t := sample_schedule 3 in
  let sigmas := map (fun u => snd (get_alphas_sigmas u)) t in
  List.length t = 3%nat /\
  Forall (fun u => 0 < u) t /\
  (forall i : nat, (i < 3)%nat -> nth i sigmas 0 <> 0) /\
  exists (pred : R) (s' : Sampler R nat),
    sample randn_like model 1 3 (1 / 2) 0%nat = (Ok pred, s') /\
    List.length (queries s') = 3%nat.
Proof.
  intros randn_like model.
  apply (sample_schedule_never_zero randn_like model 1 3 (1 / 2) 0%nat).
  lia.
Defined.

(** C9: with [eta = 0], [sample] draws nothing from the random source (the
    generator and the draw count are as before the run) and what it returns
    does not depend on the random source: two runs on the same model, [x]
    and [steps] return the same result. *)
Theorem sample_eta0_deterministic {T G : Type} `{Array T}
        (randn1 randn2 : T -> G -> T * G) (model : T -> R -> T) (x : T)
        (steps : nat) (g1 g2 : G) :
  fst (sample randn1 model x steps 0 g1)
  = fst (sample randn2 model x steps 0 g2) /\
  generator (snd (sample randn1 model x steps 0 g1)) = g1 /\
  drawn (snd (sample randn1 model x steps 0 g1)) = 0%nat.
Proof.
  unfold sample, sample_loop, bind.
  set (t := sample_schedule steps).
  set (alphas := map (fun u => fst (get_alphas_sigmas u)) t).
  set (sigmas := map (fun u => snd (get_alphas_sigmas u)) t).
  pose proof (sample_loop_eta0 randn1 randn2 model steps t alphas sigmas
                (seq 0 steps)
                {| local_x := x; local_pred := None; generator := g1;
                   drawn := 0; queries := [] |}
                {| local_x := x; local_pred := None; generator := g2;
                   drawn := 0; queries := [] |}
                eq_refl eq_refl eq_refl) as Hloop.
  cbv zeta in Hloop.
  destruct (for_each (seq 0 steps)
              (sample_step randn1 model steps 0 t alphas sigmas) _)
    as [[[] | e1] s1];
    destruct (for_each (seq 0 steps)
                (sample_step randn2 model steps 0 t alphas sigmas) _)
    as [[[] | e2] s2];
    cbn [fst snd generator drawn] in Hloop;
    destruct Hloop as (Hr & _ & Hp & _ & Hg & Hd);
    try discriminate.
  - unfold get_pred; rewrite Hp.
    destruct (local_pred s2); cbn [fst snd]; repeat split; assumption.
  - cbn [fst snd]; injection Hr as ->.
    split; [reflexivity | split; [exact Hg | exact Hd]].
Qed.

(** ** The schedule of the style transfer *)

Lemma sorted_map_seq {A : Type} (lt : A -> A -> Prop) (f : nat -> A)
      (k : nat) :
  forall a : nat,
    (forall i j, (a <= i)%nat -> (i < j)%nat -> (j < a + k)%nat ->
                 lt (f i) (f j)) ->
    StronglySorted lt (map f (seq a k)).
Proof.
  induction k as [| k IH]; intros a Hf; cbn; constructor.
  - apply IH; intros i j Hi Hij Hj; apply Hf; lia.
  - apply Forall_forall; intros y Hy.
    apply in_map_iff in Hy as [j [<- Hj]]; apply in_seq in Hj.
    apply Hf; lia.
Qed.

Lemma sorted_filter {A : Type} (lt : A -> A -> Prop) (p : A -> bool)
      (l : list A) :
  StronglySorted lt l -> StronglySorted lt (filter p l).
Proof.
  induction 1 as [| a l Hs IH Hall]; cbn; [constructor |].
  destruct (p a); [| exact IH].
  constructor; [exact IH |].
  rewrite Forall_forall in *; intros y Hy.
  apply filter_In in Hy as [Hy _]; apply Hall, Hy.
Qed.

Lemma sorted_snoc {A : Type} (lt : A -> A -> Prop) (l : list A) (a : A) :
  StronglySorted lt l -> Forall (fun y => lt y a) l ->
  StronglySorted lt (l ++ [a]).
Proof.
  induction 1 as [| b l Hs IH Hall]; intros Hlt; cbn.
  - constructor; constructor.
  - inversion Hlt as [| ? ? Hb Hl]; subst.
    constructor; [apply IH, Hl |].
    apply Forall_app; split; [exact Hall | constructor; [exact Hb | constructor]].
Qed.

(** Flipping an increasing sequence gives a decreasing one. *)
Lemma sorted_rev (l : list R) :
  StronglySorted Rlt l -> StronglySorted Rgt (rev l).
Proof.
  induction 1 as [| a l Hs IH Hall]; cbn; [constructor |].
  apply sorted_snoc; [exact IH |].
  rewrite Forall_forall in *; intros y Hy.
  apply in_rev in Hy; apply Hall in Hy; unfold Rgt; exact Hy.
Qed.

Lemma removelast_rev_cons {A : Type} (a : A) (l : list A) :
  removelast (rev (a :: l)) = rev l.
Proof. cbn [rev]; apply removelast_last. Qed.

Lemma rev_starts_with_last {A : Type} (l : list A) (d : A) :
  l <> [] -> exists rest, rev l = last l d :: rest.
Proof.
  intros Hne; exists (rev (removelast l)).
  rewrite (app_removelast_last d Hne) at 1.
  rewrite rev_app_distr; reflexivity.
Qed.

Lemma linspace_up_entries (steps : nat) :
  map get_crash_schedule (Torch.linspace 0 1 (steps + 1)) =
  map (fun i => get_crash_schedule (0 + INR i * ((1 - 0) / INR steps)))
      (seq 0 (S steps)).
Proof.
  unfold Torch.linspace.
  replace (steps + 1)%nat with (S steps) by lia.
  replace (S steps - 1)%nat with steps by lia.
  rewrite map_map; reflexivity.
Qed.

(** The warped grid of the style transfer is strictly increasing. *)
Lemma style_grid_increasing (steps : nat) :
  (1 <= steps)%nat ->
  StronglySorted Rlt
    (map get_crash_schedule (Torch.linspace 0 1 (steps + 1))).
Proof.
  intros Hsteps; rewrite linspace_up_entries.
  apply sorted_map_seq; intros i j _ Hij Hj.
  assert (Hn : 0 < INR steps) by (apply lt_0_INR; lia).
  assert (Hin : 0 < / INR steps) by (apply Rinv_0_lt_compat; exact Hn).
  assert (Hi : 0 <= INR i) by apply pos_INR.
  assert (Hlt : INR i < INR j) by (apply lt_INR; exact Hij).
  assert (Hjn : INR j <= INR steps) by (apply le_INR; lia).
  apply crash_strictly_increasing.
  - unfold Rdiv; nra.
  - unfold Rdiv; nra.
  - replace (0 + INR j * ((1 - 0) / INR steps)) with (INR j / INR steps)
      by (unfold Rdiv; ring).
    apply Rmult_le_reg_r with (INR steps); [exact Hn |].
    unfold Rdiv; rewrite Rmult_assoc, Rinv_l by lra; lra.
Qed.

Lemma lt_mask_true (c v : R) : v < c -> Torch.lt_mask c v = true.
Proof.
  intros Hlt; unfold Torch.lt_mask.
  destruct (Rlt_dec v c); [reflexivity | contradiction].
Qed.

(** C4: in [do_style_transfer], when at least two timesteps of the warped
    grid are below [noise_level], the timesteps handed to
    [sampling.sample] are strictly decreasing, and their first element is
    the timestep whose [alpha] and [sigma] noised the audio
    ([audio * alpha + noise * sigma]). *)
Theorem style_transfer_schedule {T G : Type} `{Array T}
        (randn_like : T -> G -> T * G) {Out : Type}
        (sampling_sample :
           (T -> R -> T) -> T -> list R -> R -> M (S := G * nat) Out)
        (model : T -> R -> T) (audio_sample : T) (steps : nat)
        (noise_level eta : R) (s : G * nat) :
  (1 <= steps)%nat ->
  0 < noise_level <= 1 ->
  (2 <= List.length
          (filter (Torch.lt_mask noise_level)
             (map get_crash_schedule (Torch.linspace 0 1 (steps + 1)))))%nat ->
  exists (t0 : R) (rest : list R),
    do_style_transfer randn_like sampling_sample model audio_sample steps
      noise_level eta s
    = sampling_sample model
        (plus (scale audio_sample (fst (t_to_alpha_sigma t0)))
              (scale (fst (randn_like audio_sample (fst s)))
                     (snd (t_to_alpha_sigma t0))))
        (t0 :: rest) eta
        (snd (randn_like audio_sample (fst s)), S (snd s))
    /\ StronglySorted Rgt (t0 :: rest).
Proof.
  intros Hsteps Hnl Htwo.
  pose proof (sorted_filter Rlt (Torch.lt_mask noise_level) _
                (style_grid_increasing steps Hsteps)) as Hsorted.
  unfold do_style_transfer, bind.
  destruct (filter (Torch.lt_mask noise_level)
              (map get_crash_schedule (Torch.linspace 0 1 (steps + 1))))
    as [| a [| b l]]; cbn [List.length] in Htwo; try lia.
  inversion Hsorted as [| ? ? Htail _]; subst.
  destruct (rev_starts_with_last (b :: l) 0 ltac:(discriminate))
    as [rest Hrev].
  exists (last (b :: l) 0), rest.
  rewrite removelast_rev_cons, Hrev.
  split.
  - unfold index_last, ret, randn_shape_of.
    change (last (a :: b :: l) 0) with (last (b :: l) 0).
    unfold t_to_alpha_sigma; cbn [fst snd].
    destruct (randn_like audio_sample (fst s)) as [noise g'].
    reflexivity.
  - rewrite <- Hrev; apply sorted_rev, Htail.
Qed.

Lemma style_transfer_schedule_witness :
  let randn_like := fun (_ : R) (g : nat) => (0, S g) in
  let sampling_sample :=
    fun (_ : R -> R -> R) (x : R) (ts : list R) (_ : R) =>
      ret (S := nat * nat) (x, ts) in
  let model := fun (x : R) (_ : R) => x in
  exists (t0 : R) (rest : list R),
    (do_style_transfer randn_like sampling_sample model 1 3 1 0
       (0%nat, 0%nat)
     = sampling_sample model
         (plus (scale 1 (fst (t_to_alpha_sigma t0)))
               (scale (fst (randn_like 1 0%nat))
                      (snd (t_to_alpha_sigma t0))))
         (t0 :: rest) 0 (snd (randn_like 1 0%nat), 1%nat)
     /\ StronglySorted Rgt (t0 :: rest))
    /\ List.length (t0 :: rest) = 2%nat.
Proof.
  intros randn_like sampling_sample model.
  assert (Hgrid :
            filter (Torch.lt_mask 1)
              (map get_crash_schedule (Torch.linspace 0 1 (3 + 1)))
            = map (fun i =>
                     get_crash_schedule (0 + INR i * ((1 - 0) / INR 3)))
                  (seq 0 3)).
  { rewrite linspace_up_entries; cbn [seq map filter].
    rewrite (lt_mask_true 1
               (get_crash_schedule (0 + INR 0 * ((1 - 0) / INR 3))))
      by (apply crash_lt_1; cbn [INR]; lra).
    rewrite (lt_mask_true 1
               (get_crash_schedule (0 + INR 1 * ((1 - 0) / INR 3))))
      by (apply crash_lt_1; cbn [INR]; lra).
    rewrite (lt_mask_true 1
               (get_crash_schedule (0 + INR 2 * ((1 - 0) / INR 3))))
      by (apply crash_lt_1; cbn [INR]; lra).
    replace (0 + INR 3 * ((1 - 0) / INR 3)) with 1 by (cbn [INR]; field).
    rewrite crash_1; unfold Torch.lt_mask.
    destruct (Rlt_dec 1 1) as [Hlt | _]; [lra | reflexivity]. }
  destruct (style_transfer_schedule randn_like sampling_sample model 1 3 1 0
              (0%nat, 0%nat))
    as (t0 & rest & Hrun & Hsorted).
  - lia.
  - lra.
  - rewrite Hgrid; cbn [seq map List.length]; lia.
  - exists t0, rest; split; [split; [exact Hrun | exact Hsorted] |].
    unfold do_style_transfer, bind in Hrun.
    rewrite Hgrid in Hrun.
    cbn [seq map rev app removelast index_last last ret randn_shape_of
         fst snd] in Hrun.
    unfold sampling_sample, randn_like, index_last, ret, randn_shape_of
      in Hrun.
    cbn [fst snd] in Hrun.
    destruct (t_to_alpha_sigma _) in Hrun.
    injection Hrun as _ Hfirst Hrest.
    rewrite <- Hrest; reflexivity.
Defined.

(** * Further properties of the code *)

(** ** The schedule: what the warp does to the noise level *)

Lemma unit_circle_slope (a s : R) :
  0 < a -> a * a + s * s = 1 -> sqrt (1 + (s / a)²) = / a.
Proof.
  intros Ha Hc.
  apply sqrt_lem_1.
  - unfold Rsqr; nra.
  - left; apply Rinv_0_lt_compat; exact Ha.
  - unfold Rsqr; field_simplify; [| lra | lra].
    replace (a ^ 2 + s ^ 2) with 1 by (rewrite <- Hc; ring).
    field; lra.
Qed.

(** The angle of a point of the unit circle, in the closed first
    quadrant, has that point as its cosine and sine. *)
Lemma cos_sin_atan2 (a s : R) :
  0 <= a -> 0 <= s -> a * a + s * s = 1 ->
  cos (Torch.atan2 s a) = a /\ sin (Torch.atan2 s a) = s.
Proof.
  intros Ha Hs Hc.
  destruct (Rle_lt_or_eq_dec 0 a Ha) as [Hpos | <-].
  - rewrite atan2_pos_x by exact Hpos.
    rewrite cos_atan, sin_atan, unit_circle_slope by assumption.
    split; field; lra.
  - assert (Hs1 : s = 1) by nra.
    rewrite Hs1, atan2_zero_x by lra.
    rewrite cos_PI2, sin_PI2; split; reflexivity.
Qed.

Lemma warped_factors (t : R) :
  get_alphas_sigmas (get_crash_schedule t) =
  (sqrt (1 - (sin (t * PI / 2) ^ 2) ^ 2), sin (t * PI / 2) ^ 2).
Proof.
  pose proof PI_RGT_0 as HPI.
  pose proof (SIN_bound (t * PI / 2)) as [Hlo Hhi].
  set (s := sin (t * PI / 2) ^ 2).
  assert (Hs : 0 <= s <= 1) by (unfold s; nra).
  assert (Hrad : 0 <= 1 - s ^ 2) by nra.
  destruct (cos_sin_atan2 (sqrt (1 - s ^ 2)) s) as [Hcos Hsin].
  - apply sqrt_pos.
  - lra.
  - rewrite sqrt_sqrt by exact Hrad; ring.
  - unfold get_alphas_sigmas, get_crash_schedule, alpha_sigma_to_t.
    fold s.
    replace (Torch.atan2 s (sqrt (1 - s ^ 2)) / PI * 2 * PI / 2)
      with (Torch.atan2 s (sqrt (1 - s ^ 2))) by (field; lra).
    rewrite Hcos, Hsin; reflexivity.
Qed.

(** X1: for every timestep [t], the scaling factors at the warped
    timestep are the factors the warp was built from: the noise scale is
    [sin(t*PI/2)^2] and the signal scale [sqrt(1 - sin(t*PI/2)^4)]. *)
Theorem crash_schedule_noise_level (t : R) :
  get_alphas_sigmas (get_crash_schedule t) =
  (sqrt (1 - (sin (t * PI / 2) ^ 2) ^ 2), sin (t * PI / 2) ^ 2).
Proof. exact (warped_factors t). Qed.

(** X2: a pair of non-negative scaling factors on the unit circle is
    recovered from its timestep: [get_alphas_sigmas] undoes
    [alpha_sigma_to_t]. *)
Theorem alphas_sigmas_of_timestep (alpha sigma : R) :
  0 <= alpha -> 0 <= sigma -> alpha * alpha + sigma * sigma = 1 ->
  get_alphas_sigmas (alpha_sigma_to_t alpha sigma) = (alpha, sigma).
Proof.
  intros Ha Hs Hc; pose proof PI_RGT_0 as HPI.
  destruct (cos_sin_atan2 alpha sigma Ha Hs Hc) as [Hcos Hsin].
  unfold get_alphas_sigmas, alpha_sigma_to_t.
  replace (Torch.atan2 sigma alpha / PI * 2 * PI / 2)
    with (Torch.atan2 sigma alpha) by (field; lra).
  rewrite Hcos, Hsin; reflexivity.
Qed.

Lemma alphas_sigmas_of_timestep_witness :
  get_alphas_sigmas (alpha_sigma_to_t (3 / 5) (4 / 5)) = (3 / 5, 4 / 5).
Proof. apply (alphas_sigmas_of_timestep (3 / 5) (4 / 5)); lra. Defined.

Lemma sample_schedule_head (steps : nat) :
  (1 <= steps)%nat -> nth 0 (sample_schedule steps) 0 = 1.
Proof.
  intros Hsteps; rewrite sample_schedule_entries.
  destruct steps as [| n]; [lia |].
  cbn [seq map nth].
  replace (1 + INR 0 * ((0 - 1) / INR (S n))) with 1
    by (cbn [INR]; unfold Rdiv; ring).
  apply crash_1.
Qed.

Lemma sample_schedule_sorted (steps : nat) :
  StronglySorted Rgt (sample_schedule steps).
Proof.
  rewrite sample_schedule_entries.
  apply sorted_map_seq; intros i j _ Hij Hj.
  pose proof (linspace_down_range i steps ltac:(lia)) as Hi.
  pose proof (linspace_down_range j steps ltac:(lia)) as Hjr.
  assert (Hn : 0 < / INR steps)
    by (apply Rinv_0_lt_compat, lt_0_INR; lia).
  assert (Hlt : INR i < INR j) by (apply lt_INR; exact Hij).
  apply crash_strictly_increasing; [lra | | lra].
  unfold Rdiv; nra.
Qed.

(** X3: the schedule of [sample] starts at timestep 1 and is strictly
    decreasing. *)
Theorem sample_schedule_decreasing (steps : nat) :
  (1 <= steps)%nat ->
  nth 0 (sample_schedule steps) 0 = 1 /\
  StronglySorted Rgt (sample_schedule steps).
Proof.
  intros Hsteps; split.
  - apply sample_schedule_head, Hsteps.
  - apply sample_schedule_sorted.
Qed.

Lemma sample_schedule_decreasing_witness :
  nth 0 (sample_schedule 4) 0 = 1 /\
  StronglySorted Rgt (sample_schedule 4).
Proof. apply (sample_schedule_decreasing 4); lia. Defined.

(** ** The sampler: when it returns and what it asks the model *)

Section SamplerCalls.

Context {T G : Type} `{Array T}.

Variable randn_like : T -> G -> T * G.
Variable model : T -> R -> T.

(** The calls made by the iterations [a], ..., [a + k - 1], oldest
    first: one per iteration, at the timesteps [t[a]], ..., the first of
    them on the [x] the loop was entered with. *)
Lemma sample_loop_calls (steps : nat) (eta : R) (t alphas sigmas : list R)
      (k : nat) :
  List.length t = steps ->
  List.length alphas = steps ->
  List.length sigmas = steps ->
  forall (a : nat) (s : Sampler T G),
    (a + k <= steps)%nat ->
    exists (s' : Sampler T G) (calls : list (T * R)),
      for_each (seq a k)
               (sample_step randn_like model steps eta t alphas sigmas) s
      = (Ok tt, s')
      /\ rev (queries s') = rev (queries s) ++ calls
      /\ map snd calls = map (fun i => nth i t 0) (seq a k)
      /\ ((0 < k)%nat -> hd_error calls = Some (local_x s, nth a t 0)).
Proof.
  intros Ht Ha Hs; induction k as [| k IH]; intros a s Hak.
  - exists s, []; cbn; rewrite app_nil_r; repeat split; lia.
  - cbn [seq for_each]; unfold bind.
    destruct (sample_step_runs randn_like model steps eta t alphas sigmas
                a s Ht Ha Hs ltac:(lia)) as (s1 & Hrun & Hq & _).
    rewrite Hrun.
    destruct (IH (S a) s1 ltac:(lia)) as (s' & calls & Hrun' & Hq' & Hts & _).
    exists s', ((local_x s, nth a t 0) :: calls).
    split; [exact Hrun' |].
    split; [| split].
    + rewrite Hq', Hq; cbn [rev]; rewrite <- app_assoc; reflexivity.
    + cbn [map snd]; rewrite Hts; reflexivity.
    + intros _; reflexivity.
Qed.

End SamplerCalls.

(** X4: [sample] returns a tensor exactly when [steps >= 1]; with
    [steps = 0] the loop body never runs and [return pred] raises
    [UnboundLocalError], the model not having been called and nothing
    having been drawn. *)
Theorem sample_returns_iff_steps {T G : Type} `{Array T}
        (randn_like : T -> G -> T * G) (model : T -> R -> T) (x : T)
        (steps : nat) (eta : R) (g : G) :
  ((exists (pred : T) (s' : Sampler T G),
      sample randn_like model x steps eta g = (Ok pred, s'))
   <-> (1 <= steps)%nat) /\
  (steps = 0%nat ->
   sample randn_like model x steps eta g =
   (Raise UnboundLocalError,
    {| local_x := x; local_pred := None; generator := g; drawn := 0;
       queries := [] |})).
Proof.
  split; [split |].
  - intros (pred & s' & Hrun).
    destruct steps as [| n]; [| lia].
    cbv in Hrun; discriminate.
  - intros Hsteps.
    unfold sample, sample_loop, bind.
    set (t := sample_schedule steps).
    assert (Hlen : List.length t = steps) by apply sample_schedule_length.
    destruct (sample_loop_runs randn_like model steps eta t
                (map (fun u => fst (get_alphas_sigmas u)) t)
                (map (fun u => snd (get_alphas_sigmas u)) t) steps
                Hlen ltac:(rewrite length_map; exact Hlen)
                ltac:(rewrite length_map; exact Hlen) 0%nat
                {| local_x := x; local_pred := None; generator := g;
                   drawn := 0; queries := [] |} ltac:(lia))
      as (s' & Hrun & _ & Hp & _).
    rewrite Hrun; unfold get_pred.
    destruct (local_pred s') as [pred |] eqn:Hpred.
    + exists pred, s'; reflexivity.
    + exfalso; apply Hp; [lia | reflexivity].
  - intros ->; reflexivity.
Qed.

Lemma sample_returns_iff_steps_witness :
  sample (fun (_ : R) (g : nat) => (0, S g)) (fun (x : R) (_ : R) => x)
         1 0 (1 / 2) 0%nat =
  (Raise UnboundLocalError,
   {| local_x := 1; local_pred := None; generator := 0%nat; drawn := 0;
      queries := [] |}).
Proof.
  apply (sample_returns_iff_steps
           (fun (_ : R) (g : nat) => (0, S g)) (fun (x : R) (_ : R) => x)
           1 0 (1 / 2) 0%nat).
  reflexivity.
Defined.

Lemma map_nth_seq (l : list R) :
  map (fun i => nth i l 0) (seq 0 (List.length l)) = l.
Proof.
  apply nth_ext with (d := 0) (d' := 0).
  - rewrite length_map, length_seq; reflexivity.
  - intros i Hi; rewrite length_map, length_seq in Hi.
    rewrite (nth_indep _ 0 (nth 0 l 0)) by (rewrite length_map, length_seq; lia).
    rewrite (map_nth (fun i => nth i l 0)), seq_nth by lia.
    reflexivity.
Qed.

(** X5: for [steps >= 1], [sample] calls the model at the timesteps of its
    schedule, in schedule order, one call per timestep; the first call is
    on the start tensor [x] at timestep 1. *)
Theorem sample_calls_follow_schedule {T G : Type} `{Array T}
        (randn_like : T -> G -> T * G) (model : T -> R -> T) (x : T)
        (steps : nat) (eta : R) (g : G) :
  (1 <= steps)%nat ->
  let s' := snd (sample randn_like model x steps eta g) in
  map snd (rev (queries s')) = sample_schedule steps /\
  hd_error (rev (queries s')) = Some (x, 1).
Proof.
  intros Hsteps.
  unfold sample, sample_loop, bind.
  set (t := sample_schedule steps).
  assert (Hlen : List.length t = steps) by apply sample_schedule_length.
  destruct (sample_loop_calls randn_like model steps eta t
              (map (fun u => fst (get_alphas_sigmas u)) t)
              (map (fun u => snd (get_alphas_sigmas u)) t) steps
              Hlen ltac:(rewrite length_map; exact Hlen)
              ltac:(rewrite length_map; exact Hlen) 0%nat
              {| local_x := x; local_pred := None; generator := g;
                 drawn := 0; queries := [] |} ltac:(lia))
    as (s1 & calls & Hrun & Hq & Hts & Hhd).
  rewrite Hrun; cbn [queries rev app local_x] in Hq, Hhd.
  assert (Hsnd : snd (get_pred s1) = s1)
    by (unfold get_pred; destruct (local_pred s1); reflexivity).
  cbv zeta; rewrite Hsnd, Hq.
  split.
  - rewrite Hts, <- Hlen; apply map_nth_seq.
  - rewrite Hhd by lia.
    pose proof (sample_schedule_head steps Hsteps) as H1.
    fold t in H1; rewrite H1; reflexivity.
Qed.

Lemma sample_calls_follow_schedule_witness :
  let s' := snd (sample (fun (_ : R) (g : nat) => (0, S g))
                        (fun (x : R) (_ : R) => x) 1 3 (1 / 2) 0%nat) in
  map snd (rev (queries s')) = sample_schedule 3 /\
  hd_error (rev (queries s')) = Some (1, 1).
Proof.
  apply (sample_calls_follow_schedule
           (fun (_ : R) (g : nat) => (0, S g)) (fun (x : R) (_ : R) => x)
           1 3 (1 / 2) 0%nat).
  lia.
Defined.

(** ** The sampler: the square roots of the DDIM step *)

Lemma nth_map_seq (f : nat -> R) (n i : nat) :
  (i < n)%nat -> nth i (map f (seq 0 n)) 0 = f i.
Proof.
  intros Hi.
  rewrite (nth_indep _ 0 (f 0%nat)) by (rewrite length_map, length_seq; lia).
  rewrite map_nth, seq_nth by lia; reflexivity.
Qed.

(** Entry [i] of [sigmas] is the warped noise level of the timestep
    [1 - i / steps], entry [i] of [alphas] its companion; the noise levels
    decrease along the schedule. *)
Lemma sample_factors (steps i : nat) :
  (i + 1 < steps)%nat ->
  let t := sample_schedule steps in
  let alphas := map (fun u => fst (get_alphas_sigmas u)) t in
  let sigmas := map (fun u => snd (get_alphas_sigmas u)) t in
  exists u w : R,
    0 < w /\ w < u /\ u <= 1 /\
    nth i sigmas 0 = u /\ nth (i + 1) sigmas 0 = w /\
    nth i alphas 0 = sqrt (1 - u ^ 2) /\
    nth (i + 1) alphas 0 = sqrt (1 - w ^ 2).
Proof.
  intros Hi t alphas sigmas.
  pose proof (linspace_down_range i steps ltac:(lia)) as Hri.
  pose proof (linspace_down_range (i + 1) steps ltac:(lia)) as Hrn.
  set (ti := 1 + INR i * ((0 - 1) / INR steps)) in *.
  set (tn := 1 + INR (i + 1) * ((0 - 1) / INR steps)) in *.
  assert (Hlt : tn < ti).
  { unfold tn, ti.
    assert (Hn : 0 < / INR steps)
      by (apply Rinv_0_lt_compat, lt_0_INR; lia).
    assert (Hii : INR i < INR (i + 1)) by (apply lt_INR; lia).
    unfold Rdiv; nra. }
  exists (sin (ti * PI / 2) ^ 2), (sin (tn * PI / 2) ^ 2).
  split; [pose proof (sin_scaled_pos tn Hrn); nra |].
  split; [apply crash_sigma_incr; lra |].
  split; [apply crash_sigma_range; lra |].
  unfold alphas, sigmas, t.
  rewrite sample_schedule_entries, !map_map.
  rewrite !nth_map_seq by lia.
  fold ti tn; rewrite !warped_factors; cbn [fst snd].
  repeat split; reflexivity.
Qed.

(** For noise levels [0 < w < u <= 1] of two consecutive steps and
    [eta] in [0,1], what the DDIM step divides by is not zero and what it
    takes square roots of is not negative. *)
Lemma ddim_bound (eta u w : R) :
  0 <= eta <= 1 -> 0 < w -> w < u -> u <= 1 ->
  sqrt (1 - w ^ 2) <> 0 /\
  0 <= 1 - sqrt (1 - u ^ 2) ^ 2 / sqrt (1 - w ^ 2) ^ 2 /\
  0 <= w ^ 2 -
       (eta * sqrt (w ^ 2 / u ^ 2) *
        sqrt (1 - sqrt (1 - u ^ 2) ^ 2 / sqrt (1 - w ^ 2) ^ 2)) ^ 2.
Proof.
  intros Heta Hw Hwu Hu.
  assert (HA : 0 <= 1 - u ^ 2) by nra.
  assert (HB : 0 < 1 - w ^ 2) by nra.
  assert (Hu2 : 0 < u ^ 2) by nra.
  rewrite !pow2_sqrt by lra.
  assert (HQ : 1 - (1 - u ^ 2) / (1 - w ^ 2) = (u ^ 2 - w ^ 2) / (1 - w ^ 2))
    by (field; lra).
  assert (HQ0 : 0 <= (u ^ 2 - w ^ 2) / (1 - w ^ 2)).
  { unfold Rdiv; apply Rmult_le_pos; [nra |].
    left; apply Rinv_0_lt_compat; exact HB. }
  assert (HP0 : 0 <= w ^ 2 / u ^ 2).
  { unfold Rdiv; apply Rmult_le_pos; [nra |].
    left; apply Rinv_0_lt_compat; exact Hu2. }
  split; [| split].
  - intros Hz; apply (f_equal (fun x => x ^ 2)) in Hz.
    rewrite pow2_sqrt in Hz by lra; lra.
  - rewrite HQ; exact HQ0.
  - rewrite HQ.
    rewrite !Rpow_mult_distr, !pow2_sqrt by assumption.
    assert (Hfrac : (u ^ 2 - w ^ 2) / (u ^ 2 * (1 - w ^ 2)) <= 1).
    { apply Rmult_le_reg_r with (u ^ 2 * (1 - w ^ 2)); [nra |].
      replace ((u ^ 2 - w ^ 2) / (u ^ 2 * (1 - w ^ 2)) *
               (u ^ 2 * (1 - w ^ 2))) with (u ^ 2 - w ^ 2) by (field; lra).
      nra. }
    assert (Hfrac0 : 0 <= (u ^ 2 - w ^ 2) / (u ^ 2 * (1 - w ^ 2))).
    { unfold Rdiv; apply Rmult_le_pos; [nra |].
      left; apply Rinv_0_lt_compat; nra. }
    replace (eta ^ 2 * (w ^ 2 / u ^ 2) * ((u ^ 2 - w ^ 2) / (1 - w ^ 2)))
      with (w ^ 2 * (eta ^ 2 * ((u ^ 2 - w ^ 2) / (u ^ 2 * (1 - w ^ 2)))))
      by (field; lra).
    assert (He : 0 <= eta ^ 2 <= 1) by nra.
    assert (Hprod : eta ^ 2 * ((u ^ 2 - w ^ 2) / (u ^ 2 * (1 - w ^ 2))) <= 1)
      by nra.
    nra.
Qed.



Lemma sample_step_eta0_run {T G : Type} `{Array T}
        (randn_like : T -> G -> T * G) (model : T -> R -> T)
        (steps i : nat) (s : Sampler T G) :
  (i + 1 < steps)%nat ->
  let t := sample_schedule steps in
  let alphas := map (fun u => fst (get_alphas_sigmas u)) t in
  let sigmas := map (fun u => snd (get_alphas_sigmas u)) t in
  let x := local_x s in
  let v := model x (nth i t 0) in
  let pred := minus (scale x (nth i alphas 0)) (scale v (nth i sigmas 0)) in
  let eps := plus (scale x (nth i sigmas 0)) (scale v (nth i alphas 0)) in
  sample_step randn_like model steps 0 t alphas sigmas i s =
  (Ok tt,
   {| local_x := plus (scale pred (nth (i + 1) alphas 0))
                      (scale eps (nth (i + 1) sigmas 0));
      local_pred := Some pred;
      generator := generator s;
      drawn := drawn s;
      queries := (x, nth i t 0) :: queries s |}).
Proof.
  intros Hi t alphas sigmas x v pred eps.
  assert (Ht : List.length t = steps) by apply sample_schedule_length.
  assert (Ha : List.length alphas = steps)
    by (unfold alphas; rewrite length_map; exact Ht).
  assert (Hs : List.length sigmas = steps)
    by (unfold sigmas; rewrite length_map; exact Ht).
  destruct (sample_factors steps i Hi) as (u & w & Hw & _ & _ & _ & Hn & _).
  fold t sigmas in Hn.
  unfold sample_step, bind, get_x.
  rewrite (index_in_range t i 0) by lia.
  unfold call_model.
  rewrite (index_in_range alphas i 0), (index_in_range sigmas i 0) by lia.
  unfold set_pred; step_cbn.
  assert (Hnext : (i <? steps - 1)%nat = true) by (apply Nat.ltb_lt; lia).
  rewrite Hnext.
  rewrite (index_in_range sigmas (i + 1) 0),
          (index_in_range alphas (i + 1) 0) by lia.
  unfold set_x; step_cbn.
  destruct (Req_dec_T 0 0) as [_ | Hne]; [| lra].
  unfold ret; fold x v pred eps.
  repeat f_equal.
  rewrite !Rmult_0_l.
  replace (nth (i + 1) sigmas 0 ^ 2 - 0 ^ 2) with (nth (i + 1) sigmas 0 ^ 2)
    by ring.
  apply sqrt_pow2; rewrite Hn; lra.
Qed.

(** X7: with [eta = 0] a step of [sample] that is not the last moves [x]
    to [pred * alphas[i+1] + eps * sigmas[i+1]] (the noise estimate is
    rescaled by [sigmas[i+1]] itself), binds [pred], calls the model once
    and leaves the random generator alone. *)
Theorem ddim_step_eta0 {T G : Type} `{Array T}
        (randn_like : T -> G -> T * G) (model : T -> R -> T)
        (steps i : nat) (s : Sampler T G) :
  (i + 1 < steps)%nat ->
  let t := sample_schedule steps in
  let alphas := map (fun u => fst (get_alphas_sigmas u)) t in
  let sigmas := map (fun u => snd (get_alphas_sigmas u)) t in
  let x := local_x s in
  let v := model x (nth i t 0) in
  let pred := minus (scale x (nth i alphas 0)) (scale v (nth i sigmas 0)) in
  let eps := plus (scale x (nth i sigmas 0)) (scale v (nth i alphas 0)) in
  sample_step randn_like model steps 0 t alphas sigmas i s =
  (Ok tt,
   {| local_x := plus (scale pred (nth (i + 1) alphas 0))
                      (scale eps (nth (i + 1) sigmas 0));
      local_pred := Some pred;
      generator := generator s;
      drawn := drawn s;
      queries := (x, nth i t 0) :: queries s |}).
Proof. exact (sample_step_eta0_run randn_like model steps i s). Qed.

Lemma ddim_step_eta0_witness :
  let randn_like := fun (_ : R) (g : nat) => (0, S g) in
  let model := fun (x : R) (_ : R) => x in
  let s := {| local_x := 1; local_pred := None; generator := 0%nat;
              drawn := 0; queries := [] |} in
  let t := sample_schedule 3 in
  let alphas := map (fun u => fst (get_alphas_sigmas u)) t in
  let sigmas := map (fun u => snd (get_alphas_sigmas u)) t in
  let x := local_x s in
  let v := model x (nth 0 t 0) in
  let pred := minus (scale x (nth 0 alphas 0)) (scale v (nth 0 sigmas 0)) in
  let eps := plus (scale x (nth 0 sigmas 0)) (scale v (nth 0 alphas 0)) in
  sample_step randn_like model 3 0 t alphas sigmas 0 s =
  (Ok tt,
   {| local_x := plus (scale pred (nth (0 + 1) alphas 0))
                      (scale eps (nth (0 + 1) sigmas 0));
      local_pred := Some pred;
      generator := generator s;
      drawn := drawn s;
      queries := (x, nth 0 t 0) :: queries s |}).
Proof.
  intros randn_like model s.
  apply (ddim_step_eta0 randn_like model 3 0 s); lia.
Defined.

(** ** ema_update: what it keeps *)

Lemma shapes_dict_set (d : Dict) (k : string) (a v : Tensor) :
  dict_get d k = Some a -> List.length v = List.length a ->
  shapes (dict_set d k v) = shapes d.
Proof.
  induction d as [| [k0 v0] d IH]; cbn; [discriminate |].
  destruct (String.eqb_spec k0 k) as [-> | Hne]; cbn.
  - intros [= ->] Hlen; rewrite Hlen; reflexivity.
  - intros Hget Hlen; f_equal; apply IH; assumption.
Qed.

Lemma length_add_scaled (a p : Tensor) (alpha : R) :
  List.length a = List.length p ->
  List.length (TensorOps.add_scaled a p alpha) = List.length a.
Proof.
  revert p; induction a as [| x a IH]; intros [| y p] Hlen;
    cbn in *; try discriminate; try reflexivity.
  f_equal; apply IH; lia.
Qed.

(** One iteration of either loop keeps the names and shapes of the
    shadow, whether it completes or raises. *)
Lemma update_param_shapes (decay : R) (item : string * Tensor) (s : Model) :
  shapes (named_parameters (snd (update_param decay item s)))
  = shapes (named_parameters s).
Proof.
  destruct item as [name p].
  unfold update_param, bind, averaged_param, store_param, lift.
  destruct (dict_get (named_parameters s) name) as [a |] eqn:Hget;
    [| reflexivity].
  cbn [named_parameters named_buffers].
  unfold TensorOps.add_.
  destruct (Nat.eqb_spec (List.length (TensorOps.mul_ a decay))
                         (List.length p)) as [Hlen | Hlen];
    cbn [snd named_parameters].
  - rewrite dict_set_set.
    apply (shapes_dict_set _ _ a); [exact Hget |].
    rewrite length_add_scaled by exact Hlen; apply length_mul_.
  - apply (shapes_dict_set _ _ a); [exact Hget | apply length_mul_].
Qed.

Lemma update_buffer_shapes (item : string * Tensor) (s : Model) :
  shapes (named_buffers (snd (update_buffer item s)))
  = shapes (named_buffers s) /\
  named_parameters (snd (update_buffer item s)) = named_parameters s.
Proof.
  destruct item as [name buf].
  unfold update_buffer, bind, averaged_buffer, store_buffer, lift.
  destruct (dict_get (named_buffers s) name) as [b |] eqn:Hget;
    [| split; reflexivity].
  unfold TensorOps.copy_.
  destruct (Nat.eqb_spec (List.length b) (List.length buf)) as [Hlen | Hlen];
    cbn [snd named_parameters named_buffers]; split; try reflexivity.
  apply (shapes_dict_set _ _ b); [exact Hget | symmetry; exact Hlen].
Qed.

Lemma param_loop_shapes (decay : R) (items : Dict) (s : Model) :
  shapes (named_parameters (snd (for_each items (update_param decay) s)))
  = shapes (named_parameters s).
Proof.
  revert s; induction items as [| item items IH]; intros s; [reflexivity |].
  cbn [for_each]; unfold bind.
  pose proof (update_param_shapes decay item s) as Hs.
  destruct (update_param decay item s) as [[[] | e] s1]; cbn [snd] in *.
  - rewrite IH; exact Hs.
  - exact Hs.
Qed.

Lemma buffer_loop_shapes (items : Dict) (s : Model) :
  shapes (named_buffers (snd (for_each items update_buffer s)))
  = shapes (named_buffers s) /\
  named_parameters (snd (for_each items update_buffer s))
  = named_parameters s.
Proof.
  revert s; induction items as [| item items IH]; intros s;
    [split; reflexivity |].
  cbn [for_each]; unfold bind.
  pose proof (update_buffer_shapes item s) as [Hs Hp].
  destruct (update_buffer item s) as [[[] | e] s1]; cbn [snd] in *.
  - destruct (IH s1) as [Hs' Hp']; rewrite Hs', Hp'; split; assumption.
  - split; assumption.
Qed.

Lemma n_params_of_shapes (m : Model) :
  n_params m = list_sum (map snd (shapes (named_parameters m))).
Proof. unfold n_params, shapes; rewrite map_map; reflexivity. Qed.

(** X8: whatever [ema_update] does, complete or raise, the shadow keeps
    its names and the shape stored under each of them, for parameters and
    for buffers; so its number of parameters ([n_params]) is unchanged. *)
Theorem ema_update_keeps_shapes (model : Model) (decay : R)
        (averaged : Model) :
  let s' := snd (ema_update model decay averaged) in
  shapes (named_parameters s') = shapes (named_parameters averaged) /\
  shapes (named_buffers s') = shapes (named_buffers averaged) /\
  n_params s' = n_params averaged.
Proof.
  cbv zeta.
  assert (Hmain :
    shapes (named_parameters (snd (ema_update model decay averaged)))
    = shapes (named_parameters averaged) /\
    shapes (named_buffers (snd (ema_update model decay averaged)))
    = shapes (named_buffers averaged)).
  { rewrite ema_update_unfold.
    destruct (keys_eq (named_parameters model) (named_parameters averaged));
      [| split; reflexivity].
    pose proof (param_loop_shapes decay (named_parameters model) averaged)
      as Hp.
    pose proof (param_loop_buffers decay (named_parameters model) averaged)
      as Hb.
    destruct (for_each _ _ averaged) as [[[] | e] s1]; cbn [snd] in *.
    - destruct (keys_eq (named_buffers model) (named_buffers s1)).
      + destruct (buffer_loop_shapes (named_buffers model) s1) as [Hs2 Hp2].
        rewrite Hs2, Hp2, Hp, Hb; split; reflexivity.
      + cbn [snd]; rewrite Hp, Hb; split; reflexivity.
    - rewrite Hp, Hb; split; reflexivity. }
  destruct Hmain as [Hp Hb].
  repeat split; try assumption.
  rewrite !n_params_of_shapes, Hp; reflexivity.
Qed.

(** ** ema_update: the blend, entry by entry *)

Lemma nth_mul_ (a : Tensor) (c : R) (j : nat) :
  nth j (TensorOps.mul_ a c) 0 = nth j a 0 * c.
Proof.
  unfold TensorOps.mul_.
  replace 0 with (0 * c) at 1 by ring.
  exact (map_nth (fun x => x * c) a 0 j).
Qed.

Lemma nth_add_scaled (a p : Tensor) (alpha : R) (j : nat) :
  List.length a = List.length p ->
  nth j (TensorOps.add_scaled a p alpha) 0
  = nth j a 0 + alpha * nth j p 0.
Proof.
  revert p j; induction a as [| x a IH]; intros [| y p] j Hlen;
    cbn in *; try discriminate.
  - destruct j; ring.
  - destruct j as [| j]; [reflexivity | apply IH; lia].
Qed.

Lemma nth_blend (a p : Tensor) (decay : R) (j : nat) :
  List.length a = List.length p ->
  nth j (TensorOps.add_scaled (TensorOps.mul_ a decay) p (1 - decay)) 0
  = nth j a 0 * decay + (1 - decay) * nth j p 0.
Proof.
  intros Hlen.
  rewrite nth_add_scaled by (rewrite length_mul_; exact Hlen).
  rewrite nth_mul_; reflexivity.
Qed.

(** X9: for a decay in [0,1] and a completed update, every entry of every
    shadow parameter ends between its old value and the model's entry: the
    update is a convex combination. *)
Theorem ema_update_convex (model : Model) (decay : R) (averaged : Model) :
  0 <= decay <= 1 ->
  dict_ok (named_parameters model) ->
  dict_ok (named_buffers model) ->
  keys_eq (named_parameters model) (named_parameters averaged) = true ->
  keys_eq (named_buffers model) (named_buffers averaged) = true ->
  same_shapes (named_parameters model) (named_parameters averaged) ->
  same_shapes (named_buffers model) (named_buffers averaged) ->
  exists s' : Model,
    ema_update model decay averaged = (Ok tt, s') /\
    forall name p a,
      dict_get (named_parameters model) name = Some p ->
      dict_get (named_parameters averaged) name = Some a ->
      exists a' : Tensor,
        dict_get (named_parameters s') name = Some a' /\
        forall j : nat,
          Rmin (nth j a 0) (nth j p 0) <= nth j a' 0
          <= Rmax (nth j a 0) (nth j p 0).
Proof.
  intros Hd Hokp Hokb Hkp Hkb Hsp Hsb.
  destruct (ema_update_completes model decay averaged
              Hokp Hokb Hkp Hkb Hsp Hsb) as (s' & Hrun & Hblend & _).
  exists s'; split; [exact Hrun |].
  intros name p a Hp Ha; eexists; split; [exact (Hblend name p a Hp Ha) |].
  intros j; rewrite nth_blend by (eapply Hsp; eassumption).
  unfold Rmin, Rmax; destruct (Rle_dec (nth j a 0) (nth j p 0)); nra.
Qed.

Lemma ema_update_convex_witness :
  let model := {| named_parameters := [("w"%string, [1; 2])];
                  named_buffers := [("running_mean"%string, [3])] |} in
  let averaged := {| named_parameters := [("w"%string, [5; 6])];
                     named_buffers := [("running_mean"%string, [0])] |} in
  exists s' : Model,
    ema_update model (95 / 100) averaged = (Ok tt, s') /\
    forall name p a,
      dict_get (named_parameters model) name = Some p ->
      dict_get (named_parameters averaged) name = Some a ->
      exists a' : Tensor,
        dict_get (named_parameters s') name = Some a' /\
        forall j : nat,
          Rmin (nth j a 0) (nth j p 0) <= nth j a' 0
          <= Rmax (nth j a 0) (nth j p 0).
Proof.
  intros model averaged.
  apply (ema_update_convex model (95 / 100) averaged); subst model averaged.
  - lra.
  - one_entry_ok.
  - one_entry_ok.
  - reflexivity.
  - reflexivity.
  - one_entry_shapes.
  - one_entry_shapes.
Defined.

(** X10: with [inv_gamma = 1], [power = 1] and the default bounds, the
    decay of [EMAWarmup] at epoch [n >= 0] turns [ema_update] into a
    running average: an entry [a] of the shadow becomes
    [(n * a + p) / (n + 1)], [p] being the model's entry. *)
Theorem ema_warmup_simple_average (n : Z) (model averaged : Model) :
  (0 <= n)%Z ->
  dict_ok (named_parameters model) ->
  dict_ok (named_buffers model) ->
  keys_eq (named_parameters model) (named_parameters averaged) = true ->
  keys_eq (named_buffers model) (named_buffers averaged) = true ->
  same_shapes (named_parameters model) (named_parameters averaged) ->
  same_shapes (named_buffers model) (named_buffers averaged) ->
  exists (decay : R) (s' : Model),
    get_value (Build_EMAWarmup 1 1 0 1 0 n) = Ok decay /\
    ema_update model decay averaged = (Ok tt, s') /\
    forall name p a,
      dict_get (named_parameters model) name = Some p ->
      dict_get (named_parameters averaged) name = Some a ->
      exists a' : Tensor,
        dict_get (named_parameters s') name = Some a' /\
        forall j : nat,
          nth j a' 0 = (IZR n * nth j a 0 + nth j p 0) / (IZR n + 1).
Proof.
  intros Hn Hokp Hokb Hkp Hkb Hsp Hsb.
  assert (H0 : 0 <= IZR n) by (apply IZR_le; exact Hn).
  destruct (ema_update_completes model (1 - / (1 + IZR n)) averaged
              Hokp Hokb Hkp Hkb Hsp Hsb) as (s' & Hrun & Hblend & _).
  exists (1 - / (1 + IZR n)), s'.
  split; [apply get_value_default; exact Hn |].
  split; [exact Hrun |].
  intros name p a Hp Ha; eexists; split; [exact (Hblend name p a Hp Ha) |].
  intros j; rewrite nth_blend by (eapply Hsp; eassumption).
  field; lra.
Qed.

Lemma ema_warmup_simple_average_witness :
  let model := {| named_parameters := [("w"%string, [1; 2])];
                  named_buffers := [("running_mean"%string, [3])] |} in
  let averaged := {| named_parameters := [("w"%string, [5; 6])];
                     named_buffers := [("running_mean"%string, [0])] |} in
  exists (decay : R) (s' : Model),
    get_value (Build_EMAWarmup 1 1 0 1 0 3) = Ok decay /\
    ema_update model decay averaged = (Ok tt, s') /\
    forall name p a,
      dict_get (named_parameters model) name = Some p ->
      dict_get (named_parameters averaged) name = Some a ->
      exists a' : Tensor,
        dict_get (named_parameters s') name = Some a' /\
        forall j : nat,
          nth j a' 0 = (IZR 3 * nth j a 0 + nth j p 0) / (IZR 3 + 1).
Proof.
  intros model averaged.
  apply (ema_warmup_simple_average 3 model averaged); subst model averaged.
  - lia.
  - one_entry_ok.
  - one_entry_ok.
  - reflexivity.
  - reflexivity.
  - one_entry_shapes.
  - one_entry_shapes.
Defined.

(** ** InverseLR: the closed form of the learning rates *)

Lemma float_pow_zero_pos (y : R) : 0 < y -> float_pow 0 y = Ok 0.
Proof.
  intros Hy; unfold float_pow.
  destruct (Req_dec_T y 0); [lra |].
  destruct (Rlt_dec 0 0); [lra |].
  destruct (Req_dec_T 0 0); [| lra].
  destruct (Rlt_dec y 0); [lra | reflexivity].
Qed.

Lemma Rpower_below_1 (x y : R) : 0 < x < 1 -> 0 < y -> 0 < Rpower x y < 1.
Proof.
  intros [Hx0 Hx1] Hy; unfold Rpower; split; [apply exp_pos |].
  rewrite <- exp_0; apply exp_increasing.
  assert (Hln : ln x < 0) by (rewrite <- ln_1; apply ln_increasing; lra).
  nra.
Qed.

(** The warmup power [warmup ** (last_epoch + 1)] of an accepted
    scheduler, once stepped, is in [0,1). *)
Lemma warmup_power (w : R) (e : Z) :
  0 <= w < 1 -> (0 <= e)%Z ->
  exists v : R, float_pow w (IZR (e + 1)) = Ok v /\ 0 <= v < 1.
Proof.
  intros [Hw0 Hw1] He.
  assert (Hk : 0 < IZR (e + 1)) by (apply IZR_lt; lia).
  destruct (Rle_lt_or_eq_dec 0 w Hw0) as [Hpos | <-].
  - exists (Rpower w (IZR (e + 1))); split; [apply float_pow_pos, Hpos |].
    pose proof (Rpower_below_1 w (IZR (e + 1)) ltac:(lra) Hk); lra.
  - exists 0; split; [apply float_pow_zero_pos, Hk | lra].
Qed.

Lemma decay_factor_range (g p : R) (e : Z) :
  0 < g -> 0 <= p -> (0 <= e)%Z ->
  0 < Rpower (1 + IZR e / g) (- p) <= 1.
Proof.
  intros Hg Hp He; split; [apply exp_pos |].
  pose proof (curve_monotone g p 0 e Hg Hp ltac:(lia)) as Hm.
  replace (1 + 0 / g) with 1 in Hm by (unfold Rdiv; ring).
  rewrite Rpower_base_1 in Hm; lra.
Qed.

Lemma closed_form_regular (self : InverseLR.t) :
  0 <= InverseLR.warmup self < 1 ->
  0 < InverseLR.inv_gamma self ->
  (0 <= InverseLR.last_epoch self)%Z ->
  exists v : R,
    0 <= v < 1 /\
    float_pow (InverseLR.warmup self) (IZR (InverseLR.last_epoch self + 1))
    = Ok v /\
    InverseLR._get_closed_form_lr self =
    Ok (map (fun base_lr =>
               (1 - v) *
               Rmax (InverseLR.final_lr self)
                    (base_lr *
                     Rpower (1 + IZR (InverseLR.last_epoch self)
                                 / InverseLR.inv_gamma self)
                            (- InverseLR.power self)))
            (InverseLR.base_lrs self)).
Proof.
  intros Hw Hg He.
  destruct (warmup_power _ _ Hw He) as (v & Hv & Hrange).
  exists v; split; [exact Hrange | split; [exact Hv |]].
  unfold InverseLR._get_closed_form_lr.
  rewrite Hv, float_div_nonzero by lra.
  rewrite float_pow_pos; [reflexivity |].
  assert (0 <= IZR (InverseLR.last_epoch self)) by (apply IZR_le; exact He).
  assert (0 < / InverseLR.inv_gamma self)
    by (apply Rinv_0_lt_compat; exact Hg).
  unfold Rdiv; nra.
Qed.

Lemma nth_map_in_range (f : R -> R) (l : list R) (j : nat) :
  (j < List.length l)%nat -> nth j (map f l) 0 = f (nth j l 0).
Proof.
  intros Hj.
  rewrite (nth_indep _ 0 (f 0)) by (rewrite length_map; exact Hj).
  apply map_nth.
Qed.

(** X11: the constructor of [InverseLR] raises [ValueError] when [warmup]
    is outside [0,1), whatever the constructor of the base class would
    do; otherwise its outcome is that of the base constructor on the
    object holding the four arguments.  When the base constructor leaves
    these four attributes as they are, every scheduler the constructor
    returns holds the arguments and a [warmup] in [0,1); with
    [inv_gamma > 0], [power >= 0], [final_lr >= 0] and a [last_epoch]
    that is not negative, its closed form does not raise and gives one
    rate per base rate, each between 0 and [max(final_lr, base_lr)] when
    the base rate is not negative. *)
Theorem inverse_lr_validated_range {Optimizer : Type}
        (super_init :
           InverseLR.t -> Optimizer -> Z -> bool -> result InverseLR.t)
        (self : InverseLR.t) (optimizer : Optimizer)
        (inv_gamma power warmup final_lr : R) (last_epoch : Z)
        (verbose : bool) :
  (~ 0 <= warmup < 1 ->
   InverseLR.init super_init self optimizer inv_gamma power warmup
     final_lr last_epoch verbose
   = Raise ValueError) /\
  (0 <= warmup < 1 ->
   InverseLR.init super_init self optimizer inv_gamma power warmup
     final_lr last_epoch verbose
   = super_init
       {| InverseLR.inv_gamma := inv_gamma; InverseLR.power := power;
          InverseLR.warmup := warmup; InverseLR.final_lr := final_lr;
          InverseLR.last_epoch := InverseLR.last_epoch self;
          InverseLR.base_lrs := InverseLR.base_lrs self |}
       optimizer last_epoch verbose) /\
  ((forall (o o' : InverseLR.t) (opt : Optimizer) (e : Z) (vb : bool),
       super_init o opt e vb = Ok o' ->
       InverseLR.inv_gamma o' = InverseLR.inv_gamma o /\
       InverseLR.power o' = InverseLR.power o /\
       InverseLR.warmup o' = InverseLR.warmup o /\
       InverseLR.final_lr o' = InverseLR.final_lr o) ->
   forall sched : InverseLR.t,
     InverseLR.init super_init self optimizer inv_gamma power warmup
       final_lr last_epoch verbose
     = Ok sched ->
     (InverseLR.inv_gamma sched = inv_gamma /\
      InverseLR.power sched = power /\
      InverseLR.warmup sched = warmup /\
      InverseLR.final_lr sched = final_lr) /\
     0 <= InverseLR.warmup sched < 1 /\
     (0 < inv_gamma -> 0 <= power -> 0 <= final_lr ->
      (0 <= InverseLR.last_epoch sched)%Z ->
      exists lrs : list R,
        InverseLR._get_closed_form_lr sched = Ok lrs /\
        List.length lrs = List.length (InverseLR.base_lrs sched) /\
        forall j : nat,
          (j < List.length (InverseLR.base_lrs sched))%nat ->
          0 <= nth j (InverseLR.base_lrs sched) 0 ->
          0 <= nth j lrs 0
            <= Rmax final_lr (nth j (InverseLR.base_lrs sched) 0))).
Proof.
  unfold InverseLR.init, InverseLR.set_final_lr, InverseLR.set_warmup,
    InverseLR.set_power, InverseLR.set_inv_gamma.
  cbn [InverseLR.inv_gamma InverseLR.power InverseLR.warmup
       InverseLR.final_lr InverseLR.last_epoch InverseLR.base_lrs].
  split; [| split].
  - intros Hbad.
    destruct (Rle_dec 0 warmup); [| reflexivity].
    destruct (Rlt_dec warmup 1); [| reflexivity].
    exfalso; apply Hbad; split; assumption.
  - intros [Hw0 Hw1].
    destruct (Rle_dec 0 warmup); [| contradiction].
    destruct (Rlt_dec warmup 1); [| contradiction].
    reflexivity.
  - intros Hframe sched Hinit.
    destruct (Rle_dec 0 warmup) as [Hw0 |]; [| discriminate].
    destruct (Rlt_dec warmup 1) as [Hw1 |]; [| discriminate].
    destruct (Hframe _ _ _ _ _ Hinit) as (Eg & Ep & Ew & Ef).
    cbn [InverseLR.inv_gamma InverseLR.power InverseLR.warmup
         InverseLR.final_lr] in Eg, Ep, Ew, Ef.
    split; [repeat split; assumption |].
    split; [rewrite Ew; split; assumption |].
    intros Hg Hp Hf He.
    destruct (closed_form_regular sched) as (v & Hv & _ & Hform);
      [rewrite Ew; split; assumption | rewrite Eg; exact Hg | exact He |].
    rewrite Eg, Ep, Ef in Hform.
    eexists; split; [exact Hform |].
    split; [apply length_map |].
    intros j Hj Hb.
    rewrite (nth_map_in_range _ (InverseLR.base_lrs sched) j Hj).
    pose proof (decay_factor_range inv_gamma power
                  (InverseLR.last_epoch sched) Hg Hp He) as Hm.
    set (m := Rpower (1 + IZR (InverseLR.last_epoch sched) / inv_gamma)
                     (- power)) in *.
    set (b := nth j (InverseLR.base_lrs sched) 0) in *.
    assert (Hbm : b * m <= b) by nra.
    assert (Hbm0 : 0 <= b * m) by nra.
    assert (Hmax : 0 <= Rmax final_lr (b * m) <= Rmax final_lr b).
    { unfold Rmax; repeat destruct (Rle_dec _ _); lra. }
    nra.
Qed.

Lemma inverse_lr_validated_range_witness :
  let super_init :=
    fun (o : InverseLR.t) (opt : list R) (e : Z) (_ : bool) =>
      let o' :=
        {| InverseLR.inv_gamma := InverseLR.inv_gamma o;
           InverseLR.power := InverseLR.power o;
           InverseLR.warmup := InverseLR.warmup o;
           InverseLR.final_lr := InverseLR.final_lr o;
           InverseLR.last_epoch := (e + 1)%Z;
           InverseLR.base_lrs := opt |} in
      match InverseLR._get_closed_form_lr o' with
      | Raise x => Raise x
      | Ok _ => Ok o'
      end in
  let fresh := InverseLR.Build_t 0 0 0 0 0 [] in
  InverseLR.init super_init fresh [1; 2] 1 1 2 0 (-1) false
  = Raise ValueError /\
  exists sched : InverseLR.t,
    InverseLR.init super_init fresh [1; 2] 1 1 (1 / 2) 0 (-1) false
    = Ok sched /\
    0 <= InverseLR.warmup sched < 1 /\
    exists lrs : list R,
      InverseLR._get_closed_form_lr sched = Ok lrs /\
      List.length lrs = List.length (InverseLR.base_lrs sched) /\
      forall j : nat,
        (j < List.length (InverseLR.base_lrs sched))%nat ->
        0 <= nth j (InverseLR.base_lrs sched) 0 ->
        0 <= nth j lrs 0 <= Rmax 0 (nth j (InverseLR.base_lrs sched) 0).
Proof.
  intros super_init fresh.
  assert (Hframe :
            forall (o o' : InverseLR.t) (opt : list R) (e : Z) (vb : bool),
              super_init o opt e vb = Ok o' ->
              InverseLR.inv_gamma o' = InverseLR.inv_gamma o /\
              InverseLR.power o' = InverseLR.power o /\
              InverseLR.warmup o' = InverseLR.warmup o /\
              InverseLR.final_lr o' = InverseLR.final_lr o).
  { intros o o' opt e vb; unfold super_init.
    destruct (InverseLR._get_closed_form_lr _); [| discriminate].
    intros Ho; injection Ho as <-; cbn; repeat split; reflexivity. }
  split.
  - apply (inverse_lr_validated_range super_init fresh [1; 2] 1 1 2 0 (-1)
             false); lra.
  - destruct (inverse_lr_validated_range super_init fresh [1; 2] 1 1
                (1 / 2) 0 (-1) false) as (_ & Hrun & Hsched).
    specialize (Hrun ltac:(lra)).
    set (built :=
           {| InverseLR.inv_gamma := 1; InverseLR.power := 1;
              InverseLR.warmup := 1 / 2; InverseLR.final_lr := 0;
              InverseLR.last_epoch := (-1 + 1)%Z;
              InverseLR.base_lrs := [1; 2] |}).
    assert (Hbase :
              InverseLR.init super_init fresh [1; 2] 1 1 (1 / 2) 0 (-1) false
              = Ok built).
    { rewrite Hrun; unfold super_init.
      cbn [InverseLR.inv_gamma InverseLR.power InverseLR.warmup
           InverseLR.final_lr InverseLR.last_epoch InverseLR.base_lrs].
      fold built.
      destruct (closed_form_regular built) as (v & _ & _ & Hform);
        [cbn; lra | cbn; lra | cbn; lia |].
      rewrite Hform; reflexivity. }
    destruct (Hsched Hframe built Hbase) as (_ & Hw & Hrange).
    exists built; split; [exact Hbase |].
    split; [exact Hw |].
    apply Hrange; [lra | lra | lra | cbn; lia].
Defined.

Lemma Rpower_half (p : R) : Rpower 2 (- p) = Rpower (1 / 2) p.
Proof.
  unfold Rpower; f_equal.
  replace (1 / 2) with (/ 2) by lra.
  rewrite ln_Rinv by lra; ring.
Qed.

(** Without warmup the factor [1 - warmup ** (last_epoch + 1)] is 1. *)
Lemma closed_form_no_warmup (g p f : R) (e : Z) (base : list R) :
  0 < g -> (0 <= e)%Z ->
  InverseLR._get_closed_form_lr (InverseLR.Build_t g p 0 f e base) =
  Ok (map (fun b => Rmax f (b * Rpower (1 + IZR e / g) (- p))) base).
Proof.
  intros Hg He.
  destruct (closed_form_regular (InverseLR.Build_t g p 0 f e base))
    as (v & _ & Hv & Hform); cbn; try assumption; [lra |].
  cbn in Hv, Hform.
  rewrite float_pow_zero_pos in Hv by (apply IZR_lt; lia).
  injection Hv as <-.
  rewrite Hform; f_equal; apply map_ext; intros b; ring.
Qed.

(** X12: without warmup, after [inv_gamma] steps ([inv_gamma] a positive
    whole number) every learning rate is
    [max(final_lr, base_lr * (1/2) ** power)]: the base rate has decayed
    to [(1/2) ** power] of its value, as the docstring says. *)
Theorem inverse_lr_half_life (g : Z) (p f : R) (base : list R) :
  (0 < g)%Z ->
  InverseLR._get_closed_form_lr (InverseLR.Build_t (IZR g) p 0 f g base) =
  Ok (map (fun b => Rmax f (b * Rpower (1 / 2) p)) base).
Proof.
  intros Hg.
  assert (Hgr : 0 < IZR g) by (apply IZR_lt; exact Hg).
  rewrite closed_form_no_warmup by (try assumption; lia).
  replace (1 + IZR g / IZR g) with 2 by (field; lra).
  rewrite Rpower_half; reflexivity.
Qed.

Lemma inverse_lr_half_life_witness :
  InverseLR._get_closed_form_lr
    (InverseLR.Build_t (IZR 1000) 1 0 0 1000 [4]) =
  Ok (map (fun b => Rmax 0 (b * Rpower (1 / 2) 1)) [4]).
Proof. apply (inverse_lr_half_life 1000 1 0 [4]); lia. Defined.

(** X13: without warmup, with [inv_gamma > 0] and [power >= 0], the
    learning rate of a non-negative base rate does not increase from an
    epoch to a later one. *)
Theorem inverse_lr_decays (g p f : R) (e e' : Z) (base : list R) :
  0 < g -> 0 <= p -> (0 <= e <= e')%Z ->
  Forall (fun b => 0 <= b) base ->
  exists lrs lrs' : list R,
    InverseLR._get_closed_form_lr (InverseLR.Build_t g p 0 f e base)
    = Ok lrs /\
    InverseLR._get_closed_form_lr (InverseLR.Build_t g p 0 f e' base)
    = Ok lrs' /\
    Forall2 Rle lrs' lrs.
Proof.
  intros Hg Hp [He Hee] Hbase.
  do 2 eexists.
  split; [apply closed_form_no_warmup; [assumption | lia] |].
  split; [apply closed_form_no_warmup; [assumption | lia] |].
  pose proof (curve_monotone g p e e' Hg Hp ltac:(lia)) as Hm.
  induction Hbase as [| b base Hb _ IH]; cbn [map]; constructor;
    [| exact IH].
  assert (Hbm : b * Rpower (1 + IZR e' / g) (- p)
                <= b * Rpower (1 + IZR e / g) (- p)) by nra.
  unfold Rmax; repeat destruct (Rle_dec _ _); lra.
Qed.

Lemma inverse_lr_decays_witness :
  exists lrs lrs' : list R,
    InverseLR._get_closed_form_lr (InverseLR.Build_t 1 1 0 0 0 [4; 0])
    = Ok lrs /\
    InverseLR._get_closed_form_lr (InverseLR.Build_t 1 1 0 0 5 [4; 0])
    = Ok lrs' /\
    Forall2 Rle lrs' lrs.
Proof.
  apply (inverse_lr_decays 1 1 0 0 5 [4; 0]); [lra | lra | lia |].
  repeat constructor; lra.
Defined.

(** ** PadCrop: a window of the signal, padded with zeros *)

Lemma skipn_repeat_zero (k n : nat) :
  skipn k (repeat 0 n) = repeat 0 (n - k).
Proof.
  revert n; induction k as [| k IH]; intros n.
  - rewrite Nat.sub_0_r; reflexivity.
  - destruct n as [| n]; [reflexivity | cbn; apply IH].
Qed.

Lemma assign_rows_zeros (l : list (list R)) (f : list R -> list R)
      (k w : nat) :
  assign_rows (repeat (repeat 0 w) (List.length l)) (map f l) k
  = map (fun row => f row ++ repeat 0 (w - k)) l.
Proof.
  induction l as [| row l IH]; cbn; [reflexivity |].
  rewrite skipn_repeat_zero, IH; reflexivity.
Qed.

(** With the window start within bounds, [PadCrop]'s assignment is
    accepted and writes the window, followed by the zeros left of the
    fresh tensor. *)
Lemma pad_crop_assign (n_samples start : nat) (signal : Matrix) :
  (start + Nat.min (width signal) n_samples <= width signal)%nat ->
  assign_columns (new_zeros (List.length (rows signal)) n_samples)
                 (Nat.min (width signal) n_samples)
                 (slice_columns signal start (start + n_samples))
  = Ok {| width := n_samples;
          rows := map (fun row =>
                         firstn n_samples (skipn start row)
                         ++ repeat 0 (n_samples - width signal))
                      (rows signal) |}.
Proof.
  intros Hstart; unfold assign_columns, slice_columns, new_zeros.
  cbn [width rows].
  rewrite repeat_length, length_map, Nat.eqb_refl, andb_true_r.
  replace (Nat.min (Nat.min (width signal) n_samples) n_samples =?
           Nat.min (start + n_samples) (width signal)
           - Nat.min start (width signal))%nat with true
    by (symmetry; apply Nat.eqb_eq; lia).
  f_equal; f_equal.
  replace (start + n_samples - start)%nat with n_samples by lia.
  rewrite (assign_rows_zeros (rows signal)
             (fun row => firstn n_samples (skipn start row))).
  apply map_ext; intros row; do 2 f_equal; lia.
Qed.

(** X14: on a well-formed signal of shape [(n, s)], with [randint]
    drawing below its bound, [PadCrop] never raises and returns a tensor
    of shape [(n, n_samples)]: each row is the window of [n_samples]
    entries of the signal's row from [start] on, cut at the end of the
    signal and then filled with zeros; the window lies inside the signal
    when the signal is long enough, and starts at 0 when it is not or
    when [randomize] is off, in which case nothing is drawn. *)
Theorem pad_crop_window {G : Type} (randint : nat -> G -> nat * G)
        (n_samples : nat) (randomize : bool) (signal : Matrix) (g : G) :
  matrix_ok signal ->
  (forall (high : nat) (g0 : G),
      (0 < high)%nat -> (fst (randint high g0) < high)%nat) ->
  exists (start : nat) (g' : G),
    PadCrop randint n_samples randomize signal g =
    (Ok {| width := n_samples;
           rows := map (fun row =>
                          firstn n_samples (skipn start row)
                          ++ repeat 0 (n_samples - width signal))
                       (rows signal) |}, g') /\
    (start + Nat.min (width signal) n_samples <= width signal)%nat /\
    (randomize = false -> start = 0%nat /\ g' = g) /\
    Forall (fun row => List.length row = n_samples)
           (map (fun row =>
                   firstn n_samples (skipn start row)
                   ++ repeat 0 (n_samples - width signal))
                (rows signal)).
Proof.
  intros Hok Hdraw.
  assert (Hshape : forall start,
            (start + Nat.min (width signal) n_samples <= width signal)%nat ->
            Forall (fun row => List.length row = n_samples)
                   (map (fun row =>
                           firstn n_samples (skipn start row)
                           ++ repeat 0 (n_samples - width signal))
                        (rows signal))).
  { intros start Hstart; apply Forall_forall; intros r Hr.
    apply in_map_iff in Hr as [row [<- Hrow]].
    unfold matrix_ok in Hok; rewrite Forall_forall in Hok.
    rewrite length_app, length_firstn, length_skipn, repeat_length,
      (Hok row Hrow); lia. }
  unfold PadCrop, bind, lift.
  destruct randomize; cbn [negb].
  - unfold draw_int.
    replace (Nat.max 0 (width signal - n_samples) + 1 =? 0)%nat with false
      by (symmetry; apply Nat.eqb_neq; lia).
    pose proof (Hdraw (Nat.max 0 (width signal - n_samples) + 1)%nat g
                  ltac:(lia)) as Hlt.
    destruct (randint _ g) as [start g']; cbn [fst] in Hlt.
    assert (Hstart : (start + Nat.min (width signal) n_samples
                      <= width signal)%nat) by lia.
    exists start, g'; rewrite pad_crop_assign by exact Hstart.
    repeat split; try discriminate; auto.
  - exists 0%nat, g; unfold ret.
    rewrite pad_crop_assign by lia.
    repeat split; auto; try lia; apply Hshape; lia.
Qed.

Lemma pad_crop_window_witness :
  let randint := fun (high g : nat) => (Nat.modulo g high, S g) in
  let signal := {| width := 3; rows := [[1; 2; 3]; [4; 5; 6]] |} in
  exists (start : nat) (g' : nat),
    PadCrop randint 2 true signal 7%nat =
    (Ok {| width := 2;
           rows := map (fun row =>
                          firstn 2 (skipn start row)
                          ++ repeat 0 (2 - width signal))
                       (rows signal) |}, g') /\
    (start + Nat.min (width signal) 2 <= width signal)%nat /\
    (true = false -> start = 0%nat /\ g' = 7%nat) /\
    Forall (fun row => List.length row = 2%nat)
           (map (fun row =>
                   firstn 2 (skipn start row)
                   ++ repeat 0 (2 - width signal))
                (rows signal)).
Proof.
  intros randint signal.
  apply (pad_crop_window randint 2 true signal 7%nat).
  - repeat constructor.
  - intros high g0 Hhigh; cbn [fst].
    apply Nat.mod_upper_bound; lia.
Defined.

(** ** EqualMix: the mean of the channels *)

Lemma length_row_add (a b : list R) :
  List.length a = List.length b ->
  List.length (row_add a b) = List.length a.
Proof.
  revert b; induction a as [| x a IH]; intros [| y b] Hlen;
    cbn in *; try discriminate; try reflexivity.
  f_equal; apply IH; lia.
Qed.

Lemma nth_row_add (a b : list R) (j : nat) :
  List.length a = List.length b ->
  nth j (row_add a b) 0 = nth j a 0 + nth j b 0.
Proof.
  revert b j; induction a as [| x a IH]; intros [| y b] j Hlen;
    cbn in *; try discriminate.
  - destruct j; ring.
  - destruct j as [| j]; [reflexivity | apply IH; lia].
Qed.

Lemma weighted_sum_equal (c : R) (w : nat) (rs : list (list R)) :
  Forall (fun row => List.length row = w) rs ->
  List.length (weighted_sum (repeat c (List.length rs)) rs w) = w /\
  forall j : nat,
    nth j (weighted_sum (repeat c (List.length rs)) rs w) 0
    = c * fold_right Rplus 0 (map (fun row => nth j row 0) rs).
Proof.
  induction 1 as [| row rs Hrow _ [IHlen IHnth]]; cbn.
  - split; [apply repeat_length |].
    intros j; rewrite nth_repeat; ring.
  - assert (Hlen : List.length (map (fun x => c * x) row)
                   = List.length
                       (weighted_sum (repeat c (List.length rs)) rs w))
      by (rewrite length_map, IHlen; exact Hrow).
    split.
    + rewrite length_row_add by exact Hlen.
      rewrite length_map; exact Hrow.
    + intros j; rewrite nth_row_add by exact Hlen.
      rewrite IHnth.
      replace (nth j (map (fun x => c * x) row) 0) with (c * nth j row 0).
      * ring.
      * replace 0 with (c * 0) at 2 by ring.
        symmetry; exact (map_nth (fun x => c * x) row 0 j).
Qed.

(** X15: [EqualMix] turns a 1-D signal into a one-row 2-D signal, leaves
    a 2-D signal of at most one channel (and any signal of another rank)
    as it is, and replaces a well-formed 2-D signal of [n >= 2] channels
    by one row of the same width whose entry [j] is the mean of the
    channels' entries [j]. *)
Theorem equal_mix_mean :
  (forall v : list R, EqualMix (Sig1 v) = Sig2 (unsqueeze0 v)) /\
  (forall (sh : list nat) (e : list R),
      EqualMix (SigOther sh e) = SigOther sh e) /\
  (forall m : Matrix,
      (List.length (rows m) <= 1)%nat -> EqualMix (Sig2 m) = Sig2 m) /\
  (forall m : Matrix,
      matrix_ok m ->
      (2 <= List.length (rows m))%nat ->
      exists mean : list R,
        EqualMix (Sig2 m) = Sig2 {| width := width m; rows := [mean] |} /\
        List.length mean = width m /\
        forall j : nat,
          nth j mean 0 =
          fold_right Rplus 0 (map (fun row => nth j row 0) (rows m))
          / INR (List.length (rows m))).
Proof.
  repeat split.
  - intros m Hn; unfold EqualMix.
    replace (1 <? List.length (rows m))%nat with false
      by (symmetry; apply Nat.ltb_ge; exact Hn).
    reflexivity.
  - intros m Hok Hn; unfold EqualMix.
    replace (1 <? List.length (rows m))%nat with true
      by (symmetry; apply Nat.ltb_lt; lia).
    destruct (weighted_sum_equal (1 / INR (List.length (rows m)))
                (width m) (rows m) Hok) as [Hlen Hnth].
    eexists; split; [reflexivity |].
    split; [exact Hlen |].
    intros j; rewrite Hnth; unfold Rdiv; ring.
Qed.

Lemma equal_mix_mean_witness :
  exists mean : list R,
    EqualMix (Sig2 {| width := 2; rows := [[1; 2]; [3; 4]] |}) =
    Sig2 {| width := 2; rows := [mean] |} /\
    List.length mean = 2%nat /\
    forall j : nat,
      nth j mean 0 =
      fold_right Rplus 0 (map (fun row => nth j row 0) [[1; 2]; [3; 4]])
      / INR 2.
Proof.
  destruct equal_mix_mean as (_ & _ & _ & Hmean).
  apply (Hmean {| width := 2; rows := [[1; 2]; [3; 4]] |}).
  - repeat constructor.
  - cbn; lia.
Defined.

(** ** RandomPhaseInvert and append_dims *)

(** X16: [RandomPhaseInvert] draws once and returns the signal or its
    negation, so every entry keeps its magnitude; with [random()] in
    [0,1), a probability [p <= 0] never inverts and [p >= 1] always
    does. *)
Theorem random_phase_invert_cases {G : Type} (random : G -> R * G) (p : R)
        (signal : list R) (g : G) :
  0 <= fst (random g) < 1 ->
  exists out : list R,
    RandomPhaseInvert random p signal g = (Ok out, snd (random g)) /\
    (out = signal \/ out = map Ropp signal) /\
    (forall j : nat, Rabs (nth j out 0) = Rabs (nth j signal 0)) /\
    (p <= 0 -> out = signal) /\
    (1 <= p -> out = map Ropp signal).
Proof.
  intros Hu; unfold RandomPhaseInvert.
  destruct (random g) as [u g']; cbn [fst snd] in *.
  assert (Hneg : forall j, Rabs (nth j (map Ropp signal) 0)
                           = Rabs (nth j signal 0)).
  { intros j; replace 0 with (- 0) at 1 by ring.
    rewrite (map_nth Ropp signal 0 j); apply Rabs_Ropp. }
  destruct (Rlt_dec u p) as [Hlt | Hge]; eexists; split; try reflexivity.
  - split; [right; reflexivity |].
    split; [exact Hneg |].
    split; [intros Hp; lra | intros _; reflexivity].
  - split; [left; reflexivity |].
    split; [reflexivity |].
    split; [intros _; reflexivity | intros Hp; exfalso; apply Hge; lra].
Qed.

Lemma random_phase_invert_cases_witness :
  let random := fun g : nat => (1 / 4, S g) in
  exists out : list R,
    RandomPhaseInvert random (1 / 2) [1; -2] 0%nat
    = (Ok out, snd (random 0%nat)) /\
    (out = [1; -2] \/ out = map Ropp [1; -2]) /\
    (forall j : nat, Rabs (nth j out 0) = Rabs (nth j [1; -2] 0)) /\
    (1 / 2 <= 0 -> out = [1; -2]) /\
    (1 <= 1 / 2 -> out = map Ropp [1; -2]).
Proof.
  intros random.
  apply (random_phase_invert_cases random (1 / 2) [1; -2] 0%nat).
  cbn [fst random]; lra.
Defined.

Lemma append_dims_ok (x : Shaped) (target_dims : Z) :
  (Z.of_nat (ndim x) <= target_dims)%Z ->
  append_dims x target_dims =
  Ok {| shape := shape x
                 ++ repeat 1%nat (Z.to_nat (target_dims - Z.of_nat (ndim x)));
        entries := entries x |}.
Proof.
  intros Hle; unfold append_dims.
  replace (target_dims - Z.of_nat (ndim x) <? 0)%Z with false
    by (symmetry; apply Z.ltb_ge; lia).
  reflexivity.
Qed.

Lemma product_of_ones (k : nat) :
  fold_right Nat.mul 1%nat (repeat 1%nat k) = 1%nat.
Proof. induction k as [| k IH]; cbn; [reflexivity | rewrite IH; reflexivity]. Qed.

(** X17: [append_dims] raises [ValueError] exactly when the tensor has
    more than [target_dims] dimensions; otherwise the result has
    [target_dims] dimensions, the same entries and the same number of
    elements (only dimensions of size 1 are added), and appending up to
    [a] and then up to [b >= a] is appending up to [b] at once. *)
Theorem append_dims_spec (x : Shaped) (target_dims : Z) :
  ((target_dims < Z.of_nat (ndim x))%Z ->
   append_dims x target_dims = Raise ValueError) /\
  ((Z.of_nat (ndim x) <= target_dims)%Z ->
   exists y : Shaped,
     append_dims x target_dims = Ok y /\
     Z.of_nat (ndim y) = target_dims /\
     entries y = entries x /\
     fold_right Nat.mul 1%nat (shape y) = fold_right Nat.mul 1%nat (shape x)
     /\
     forall b : Z, (target_dims <= b)%Z ->
                   append_dims y b = append_dims x b).
Proof.
  split.
  - intros Hlt; unfold append_dims.
    replace (target_dims - Z.of_nat (ndim x) <? 0)%Z with true
      by (symmetry; apply Z.ltb_lt; lia).
    reflexivity.
  - intros Hle; eexists; split; [apply append_dims_ok, Hle |].
    set (k := Z.to_nat (target_dims - Z.of_nat (ndim x))).
    assert (Hnd : ndim {| shape := shape x ++ repeat 1%nat k;
                          entries := entries x |}
                  = (ndim x + k)%nat)
      by (unfold ndim; cbn [shape]; rewrite length_app, repeat_length;
          reflexivity).
    split; [rewrite Hnd; unfold k; lia |].
    split; [reflexivity |].
    split.
    + cbn [shape]; rewrite fold_right_app.
      rewrite product_of_ones; reflexivity.
    + intros b Hb.
      rewrite !append_dims_ok by (rewrite ?Hnd; unfold k; lia).
      rewrite Hnd; cbn [shape entries]; f_equal; f_equal.
      rewrite <- app_assoc, <- repeat_app; do 2 f_equal.
      unfold k; lia.
Qed.

Lemma append_dims_spec_witness :
  append_dims {| shape := [2%nat; 3%nat]; entries := [1; 2; 3; 4; 5; 6] |} 1
  = Raise ValueError /\
  exists y : Shaped,
    append_dims {| shape := [2%nat]; entries := [1; 2] |} 3 = Ok y /\
    Z.of_nat (ndim y) = 3%Z /\
    entries y = [1; 2] /\
    fold_right Nat.mul 1%nat (shape y) = fold_right Nat.mul 1%nat [2%nat]
    /\
    forall b : Z, (3 <= b)%Z ->
                  append_dims y b
                  = append_dims {| shape := [2%nat]; entries := [1; 2] |} b.
Proof.
  split.
  - apply (append_dims_spec
             {| shape := [2%nat; 3%nat]; entries := [1; 2; 3; 4; 5; 6] |} 1).
    cbn; lia.
  - apply (append_dims_spec {| shape := [2%nat]; entries := [1; 2] |} 3).
    cbn; lia.
Defined.

(** ** train_mode: the flags come back *)

Lemma restore_modes_prefix (modes flags : list bool) :
  (List.length flags <= List.length modes)%nat ->
  restore_modes modes flags = (Ok tt, firstn (List.length flags) modes).
Proof.
  revert modes; induction flags as [| f flags IH]; intros modes Hlen;
    [destruct modes; reflexivity |].
  destruct modes as [| m modes]; cbn in Hlen; [lia |].
  cbn; rewrite IH by lia; reflexivity.
Qed.

Lemma restore_modes_overflow (modes flags : list bool) :
  (List.length modes < List.length flags)%nat ->
  fst (restore_modes modes flags) = Raise IndexError.
Proof.
  revert modes; induction flags as [| f flags IH]; intros modes Hlen;
    cbn in Hlen; [lia |].
  destruct modes as [| m modes]; [reflexivity |].
  cbn in *; specialize (IH modes ltac:(lia)).
  destruct (restore_modes modes flags); exact IH.
Qed.

(** X18: the body of [train_mode(model, mode)] starts with the flag of
    every module set to [mode].  If the body, returning or raising, leaves
    as many modules as it found, the context ends with every flag as it
    was before, and with the value or the exception of the body; with
    fewer modules the flags of those left are restored; with more,
    [IndexError] is raised in place of what the body did.  [eval_mode] is
    [train_mode] with [mode = False]. *)
Theorem train_mode_restores {A : Type} (mode : bool)
        (body : M (S := list bool) A) (flags : list bool) :
  let r := fst (body (repeat mode (List.length flags))) in
  let after := snd (body (repeat mode (List.length flags))) in
  (List.length after = List.length flags ->
   train_mode mode body flags = (r, flags)) /\
  ((List.length after <= List.length flags)%nat ->
   train_mode mode body flags = (r, firstn (List.length after) flags)) /\
  ((List.length flags < List.length after)%nat ->
   fst (train_mode mode body flags) = Raise IndexError) /\
  eval_mode body flags = train_mode false body flags.
Proof.
  cbv zeta.
  assert (Hentry : map (fun _ : bool => mode) flags
                   = repeat mode (List.length flags))
    by (induction flags as [| f fl IH]; cbn; [| rewrite IH]; reflexivity).
  assert (Hrun : train_mode mode body flags =
                 match body (repeat mode (List.length flags)) with
                 | (r, s1) => match restore_modes flags s1 with
                              | (Ok _, s2) => (r, s2)
                              | (Raise e, s2) => (Raise e, s2)
                              end
                 end).
  { unfold train_mode, try_finally, bind, get, put.
    rewrite Hentry; reflexivity. }
  rewrite Hrun; clear Hrun.
  destruct (body (repeat mode (List.length flags))) as [r after];
    cbn [fst snd].
  split; [| split; [| split]].
  - intros Hlen; rewrite restore_modes_prefix by lia.
    rewrite Hlen, firstn_all; reflexivity.
  - intros Hlen; rewrite restore_modes_prefix by lia; reflexivity.
  - intros Hlen; pose proof (restore_modes_overflow flags after Hlen) as Hov.
    destruct (restore_modes flags after) as [[[] | e] s2]; cbn [fst] in *;
      [discriminate | injection Hov as ->; reflexivity].
  - reflexivity.
Qed.

Lemma train_mode_restores_witness :
  train_mode (A := nat) false
             (fun s => (Raise RuntimeError, map negb s))
             [true; false; true]
  = (Raise RuntimeError, [true; false; true]).
Proof.
  destruct (train_mode_restores (A := nat) false
              (fun s => (Raise RuntimeError, map negb s))
              [true; false; true]) as [Hsame _].
  apply Hsame; reflexivity.
Defined.

(** ** The sampler undoes the noising of the training objective *)

Lemma sample_step_last_run {T G : Type} `{Array T}
      (randn_like : T -> G -> T * G) (model : T -> R -> T)
      (steps : nat) (eta : R) (t alphas sigmas : list R)
      (s : Sampler T G) :
  List.length t = steps ->
  List.length alphas = steps ->
  List.length sigmas = steps ->
  (1 <= steps)%nat ->
  let i := (steps - 1)%nat in
  let x := local_x s in
  let v := model x (nth i t 0) in
  sample_step randn_like model steps eta t alphas sigmas i s =
  (Ok tt,
   {| local_x := x;
      local_pred :=
        Some (minus (scale x (nth i alphas 0)) (scale v (nth i sigmas 0)));
      generator := generator s;
      drawn := drawn s;
      queries := (x, nth i t 0) :: queries s |}).
Proof.
  intros Ht Ha Hs Hsteps i x v.
  unfold sample_step, bind, get_x.
  rewrite (index_in_range t i 0) by (unfold i; lia).
  unfold call_model.
  rewrite (index_in_range alphas i 0), (index_in_range sigmas i 0)
    by (unfold i; lia).
  unfold set_pred; step_cbn.
  replace (i <? steps - 1)%nat with false
    by (symmetry; apply Nat.ltb_ge; unfold i; lia).
  reflexivity.
Qed.

(** Arrays of rank 0 and arrays of any one shape are read entry by
    entry. *)
Lemma real_entrywise : Entrywise (fun (x : R) (_ : unit) => x).
Proof. split; cbn; intros; try reflexivity; auto using tt. Qed.

Lemma fun_entrywise (I : Type) :
  @Entrywise I (I -> R) (fun_array I) (fun x => x).
Proof.
  split; cbn; intros; try reflexivity.
  apply functional_extensionality; assumption.
Qed.

(** The estimates of one step, on a sample noised as in training, when
    the model returns the training target: [pred] is the clean sample and
    [eps] the noise. *)
Lemma velocity_inverted {I T : Type} `{Array T} (entry : T -> I -> R)
      (real noise : T) (t : R) :
  Entrywise entry ->
  let x := fst (velocity_target real noise t) in
  let v := snd (velocity_target real noise t) in
  let alpha := fst (get_alphas_sigmas t) in
  let sigma := snd (get_alphas_sigmas t) in
  minus (scale x alpha) (scale v sigma) = real /\
  plus (scale x sigma) (scale v alpha) = noise.
Proof.
  intros [Hscale Hplus Hminus Hext].
  unfold velocity_target, get_alphas_sigmas; cbn [fst snd].
  pose proof (sin2_cos2 (t * PI / 2)) as Hc; unfold Rsqr in Hc.
  set (c := cos (t * PI / 2)) in *; set (s := sin (t * PI / 2)) in *.
  split; apply Hext; intros i.
  - rewrite Hminus, !Hscale, Hplus, Hminus, !Hscale.
    replace ((entry real i * c + entry noise i * s) * c
             - (entry noise i * c - entry real i * s) * s)
      with (entry real i * (s * s + c * c)) by ring.
    rewrite Hc; ring.
  - rewrite Hplus, !Hscale, Hplus, Hminus, !Hscale.
    replace ((entry real i * c + entry noise i * s) * s
             + (entry noise i * c - entry real i * s) * c)
      with (entry noise i * (s * s + c * c)) by ring.
    rewrite Hc; ring.
Qed.

(** At timestep 1 the noised sample is the noise. *)
Lemma velocity_target_at_1 {I T : Type} `{Array T} (entry : T -> I -> R)
      (real noise : T) :
  Entrywise entry -> fst (velocity_target real noise 1) = noise.
Proof.
  intros [Hscale Hplus _ Hext].
  unfold velocity_target, get_alphas_sigmas; cbn [fst snd].
  replace (1 * PI / 2) with (PI / 2) by lra.
  rewrite cos_PI2, sin_PI2.
  apply Hext; intros i; rewrite Hplus, !Hscale; ring.
Qed.

Section Recovery.

Context {T G I : Type} `{Array T}.

Variable entry : T -> I -> R.
Hypothesis entrywise : Entrywise entry.

Variable randn_like : T -> G -> T * G.
Variable model : T -> R -> T.
Variables real noise : T.
Variable steps : nat.

Let t := sample_schedule steps.
Let alphas := map (fun u => fst (get_alphas_sigmas u)) t.
Let sigmas := map (fun u => snd (get_alphas_sigmas u)) t.

(** The model returns the training target on the sample noised at each
    timestep of the schedule. *)
Hypothesis model_exact :
  forall u : R,
    In u t ->
    model (fst (velocity_target real noise u)) u
    = snd (velocity_target real noise u).

Lemma schedule_factors_at (i : nat) :
  (i < steps)%nat ->
  In (nth i t 0) t /\
  nth i alphas 0 = fst (get_alphas_sigmas (nth i t 0)) /\
  nth i sigmas 0 = snd (get_alphas_sigmas (nth i t 0)).
Proof.
  intros Hi.
  assert (Hlen : List.length t = steps) by apply sample_schedule_length.
  split; [apply nth_In; lia |].
  unfold alphas, sigmas.
  rewrite !nth_map_in_range by lia; split; reflexivity.
Qed.

(** Along the deterministic sampler, [x] stays the clean sample noised at
    the current timestep, and [pred] is the clean sample. *)
Lemma recovery_loop (k : nat) :
  forall (a : nat) (s : Sampler T G),
    (a + k = steps)%nat -> (1 <= k)%nat ->
    local_x s = fst (velocity_target real noise (nth a t 0)) ->
    exists s' : Sampler T G,
      for_each (seq a k)
               (sample_step randn_like model steps 0 t alphas sigmas) s
      = (Ok tt, s') /\
      local_pred s' = Some real.
Proof.
  assert (Hlen : List.length t = steps) by apply sample_schedule_length.
  assert (Hla : List.length alphas = steps)
    by (unfold alphas; rewrite length_map; exact Hlen).
  assert (Hls : List.length sigmas = steps)
    by (unfold sigmas; rewrite length_map; exact Hlen).
  induction k as [| k IH]; intros a s Hak Hk Hx; [lia |].
  destruct (schedule_factors_at a ltac:(lia)) as (Hin & Ha & Hs).
  destruct (velocity_inverted entry real noise (nth a t 0) entrywise)
    as [Hpred Heps].
  cbv zeta in Hpred, Heps.
  cbn [seq for_each]; unfold bind.
  destruct k as [| k'].
  - replace a with (steps - 1)%nat in * by lia.
    pose proof (sample_step_last_run randn_like model steps 0 t alphas
                  sigmas s Hlen Hla Hls ltac:(lia)) as Hrun.
    cbv zeta in Hrun; rewrite Hrun; cbn [seq for_each].
    eexists; split; [reflexivity |].
    cbn [local_pred]; f_equal.
    rewrite Hx, Ha, Hs, (model_exact _ Hin); exact Hpred.
  - pose proof (sample_step_eta0_run randn_like model steps a s
                  ltac:(lia)) as Hrun.
    cbv zeta in Hrun; fold t alphas sigmas in Hrun; rewrite Hrun.
    apply IH; [lia | lia |].
    destruct (schedule_factors_at (a + 1) ltac:(lia)) as (_ & Ha' & Hs').
    cbn [local_x].
    rewrite Hx, Ha, Hs, (model_exact _ Hin), Hpred, Heps, Ha', Hs'.
    replace (S a) with (a + 1)%nat by lia.
    unfold velocity_target.
    destruct (get_alphas_sigmas (nth (a + 1) t 0)); reflexivity.
Qed.

End Recovery.

(** X19: for arrays of any one shape, read entry by entry: if the model
    returns, on a sample noised as [training_step] noises it
    ([real * alpha + noise * sigma]), the target [training_step] compares
    it with ([noise * alpha - real * sigma]), at every timestep of the
    schedule, then [sample] with [eta = 0], started from the noise,
    returns the clean sample. *)
Theorem sample_recovers_clean {T G I : Type} `{Array T}
        (entry : T -> I -> R) (randn_like : T -> G -> T * G)
        (model : T -> R -> T) (real noise : T) (steps : nat) (g : G) :
  Entrywise entry ->
  (1 <= steps)%nat ->
  (forall u : R,
      In u (sample_schedule steps) ->
      model (fst (velocity_target real noise u)) u
      = snd (velocity_target real noise u)) ->
  fst (sample randn_like model noise steps 0 g) = Ok real.
Proof.
  intros Hentry Hsteps Hexact.
  unfold sample, sample_loop, bind.
  destruct (recovery_loop entry Hentry randn_like model real noise steps
              Hexact steps 0%nat
              {| local_x := noise; local_pred := None; generator := g;
                 drawn := 0; queries := [] |} ltac:(lia) Hsteps)
    as (s' & Hrun & Hpred).
  { cbn [local_x]; rewrite sample_schedule_head by exact Hsteps.
    symmetry; apply (velocity_target_at_1 entry), Hentry. }
  rewrite Hrun; unfold get_pred; rewrite Hpred; reflexivity.
Qed.

Lemma sample_recovers_clean_witness :
  let real := fun i : bool => if i then 3 else -1 in
  let noise := fun i : bool => if i then 5 else 2 in
  let model :=
    fun (x : bool -> R) (u : R) (i : bool) =>
      (x i * fst (get_alphas_sigmas u) - real i)
      / snd (get_alphas_sigmas u) in
  fst (@sample (bool -> R) nat (fun_array bool)
               (fun (_ : bool -> R) (g : nat) => (fun _ => 0, S g))
               model noise 2 0 0%nat) = Ok real.
Proof.
  intros real noise model.
  apply (@sample_recovers_clean (bool -> R) nat bool (fun_array bool)
           (fun x => x)
           (fun (_ : bool -> R) (g : nat) => (fun _ => 0, S g))
           model real noise 2 0%nat);
    [apply fun_entrywise | lia |].
  intros u Hu.
  pose proof (sample_schedule_range 2) as Hr.
  rewrite Forall_forall in Hr; specialize (Hr u Hu).
  pose proof (sin_scaled_pos u Hr) as Hs.
  pose proof (sin2_cos2 (u * PI / 2)) as Hc; unfold Rsqr in Hc.
  unfold velocity_target, get_alphas_sigmas, model; cbn.
  set (c := cos (u * PI / 2)) in *; set (s := sin (u * PI / 2)) in *.
  apply functional_extensionality; intros i.
  apply Rmult_eq_reg_r with s; [| lra].
  replace (((real i * c + noise i * s) * c - real i) / s * s)
    with ((real i * c + noise i * s) * c - real i) by (field; lra).
  replace ((real i * c + noise i * s) * c - real i)
    with (noise i * s * c + real i * (s * s + c * c) - real i
          - real i * (s * s)) by ring.
  rewrite Hc; ring.
Defined.

(** ** training_step and validation_step *)

Lemma length_velocity_targets {T : Type} `{Array T}
      (reals noise : list T) (t : list R) :
  List.length noise = List.length reals ->
  List.length t = List.length reals ->
  List.length (velocity_targets reals noise t) = List.length reals.
Proof.
  revert noise t; induction reals as [| r reals IH];
    intros [| n noise] [| u t] Hn Ht; cbn in *; try discriminate;
    try reflexivity.
  f_equal; apply IH; lia.
Qed.



(** ** The callbacks of the training loop *)

(** X21: during the first 25 epochs [on_before_zero_grad] ignores
    [ema_decay] and blends with decay 0.95: on a model and a shadow with
    matching names and shapes it completes, and every entry of every
    shadow parameter moves a twentieth of the way to the model's entry. *)
Theorem on_before_zero_grad_early (current_epoch : Z) (ema_decay : R)
        (diffusion diffusion_ema : Model) :
  (current_epoch < 25)%Z ->
  dict_ok (named_parameters diffusion) ->
  dict_ok (named_buffers diffusion) ->
  keys_eq (named_parameters diffusion) (named_parameters diffusion_ema)
  = true ->
  keys_eq (named_buffers diffusion) (named_buffers diffusion_ema) = true ->
  same_shapes (named_parameters diffusion) (named_parameters diffusion_ema) ->
  same_shapes (named_buffers diffusion) (named_buffers diffusion_ema) ->
  exists s' : Model,
    on_before_zero_grad current_epoch ema_decay diffusion diffusion_ema
    = (Ok tt, s') /\
    forall name p a,
      dict_get (named_parameters diffusion) name = Some p ->
      dict_get (named_parameters diffusion_ema) name = Some a ->
      exists a' : Tensor,
        dict_get (named_parameters s') name = Some a' /\
        forall j : nat,
          nth j a' 0 = nth j a 0 + (nth j p 0 - nth j a 0) / 20.
Proof.
  intros Hepoch Hokp Hokb Hkp Hkb Hsp Hsb.
  unfold on_before_zero_grad.
  replace (current_epoch <? 25)%Z with true
    by (symmetry; apply Z.ltb_lt; exact Hepoch).
  destruct (ema_update_completes diffusion (95 / 100) diffusion_ema
              Hokp Hokb Hkp Hkb Hsp Hsb) as (s' & Hrun & Hblend & _).
  exists s'; split; [exact Hrun |].
  intros name p a Hp Ha; eexists; split; [exact (Hblend name p a Hp Ha) |].
  intros j; rewrite nth_blend by (eapply Hsp; eassumption).
  field.
Qed.

Lemma on_before_zero_grad_early_witness :
  let model := {| named_parameters := [("w"%string, [1; 2])];
                  named_buffers := [("running_mean"%string, [3])] |} in
  let averaged := {| named_parameters := [("w"%string, [5; 6])];
                     named_buffers := [("running_mean"%string, [0])] |} in
  exists s' : Model,
    on_before_zero_grad 3 2 model averaged = (Ok tt, s') /\
    forall name p a,
      dict_get (named_parameters model) name = Some p ->
      dict_get (named_parameters averaged) name = Some a ->
      exists a' : Tensor,
        dict_get (named_parameters s') name = Some a' /\
        forall j : nat,
          nth j a' 0 = nth j a 0 + (nth j p 0 - nth j a 0) / 20.
Proof.
  intros model averaged.
  apply (on_before_zero_grad_early 3 2 model averaged);
    subst model averaged.
  - lia.
  - one_entry_ok.
  - one_entry_ok.
  - reflexivity.
  - reflexivity.
  - one_entry_shapes.
  - one_entry_shapes.
Defined.

Section DemoFacts.

Context {T G : Type} `{Array T}.

Variable randn_like : T -> G -> T * G.
Variable randn : nat -> nat -> G -> T * G.
Variable rearrange : T -> result T.
Variable add_audio : T -> result unit.
Variable add_image : T -> result unit.

(** The guarded part of the callback returns normally whatever happens
    in it, and never touches the counter. *)
Lemma demo_guarded (model : T -> R -> T) (noise : T) (demo_steps : nat)
      (s : Demo T G) :
  exists s' : Demo T G,
    try_except
      (fakes <- demo_sample randn_like model noise demo_steps ;;
       fakes <- lift (rearrange fakes) ;;
       log_audio add_audio fakes ;;
       log_image add_image fakes)
      print_stderr s
    = (Ok tt, s') /\
    epoch_num s' = epoch_num s /\
    (demo_steps = 0%nat ->
     stderr s' = UnboundLocalError :: stderr s /\
     audio_logged s' = audio_logged s /\
     image_logged s' = image_logged s /\
     torch_generator s' = torch_generator s).
Proof.
  unfold try_except, bind, demo_sample, lift, log_audio, log_image,
    print_stderr.
  destruct demo_steps as [| n].
  - eexists; split; [reflexivity |].
    split; [reflexivity |]; intros _; repeat split; reflexivity.
  - destruct (sample randn_like model noise (S n) 0 (torch_generator s))
      as [[fakes | e] final];
      [| eexists; split; [reflexivity |];
         split; [reflexivity | discriminate]].
    destruct (rearrange fakes) as [fakes' | e];
      [| eexists; split; [reflexivity |];
         split; [reflexivity | discriminate]].
    destruct (add_audio fakes') as [[] | e];
      [| eexists; split; [reflexivity |];
         split; [reflexivity | discriminate]].
    cbn [epoch_num torch_generator stderr audio_logged image_logged].
    destruct (add_image fakes') as [[] | e];
      eexists; (split; [reflexivity |]);
      (split; [reflexivity | discriminate]).
Qed.

End DemoFacts.



(** ** The sampler: how much randomness it uses *)

Section SamplerDraws.

Context {T G : Type} `{Array T}.

Variable randn_like : T -> G -> T * G.
Variable model : T -> R -> T.

Lemma sample_step_draws (steps : nat) (eta : R) (t alphas sigmas : list R)
      (i : nat) (s : Sampler T G) :
  eta <> 0 ->
  List.length t = steps ->
  List.length alphas = steps ->
  List.length sigmas = steps ->
  (i < steps)%nat ->
  exists s' : Sampler T G,
    sample_step randn_like model steps eta t alphas sigmas i s = (Ok tt, s')
    /\ drawn s' = (drawn s + (if (i <? steps - 1)%nat then 1 else 0))%nat.
Proof.
  intros Heta Ht Ha Hs Hi.
  unfold sample_step, bind, get_x.
  rewrite (index_in_range t i 0) by lia.
  unfold call_model.
  rewrite (index_in_range alphas i 0), (index_in_range sigmas i 0) by lia.
  unfold set_pred; step_cbn.
  destruct (i <? steps - 1)%nat eqn:Hnext.
  - apply Nat.ltb_lt in Hnext.
    rewrite (index_in_range sigmas (i + 1) 0),
            (index_in_range alphas (i + 1) 0) by lia.
    unfold set_x; step_cbn.
    destruct (Req_dec_T eta 0) as [Hz | _]; [contradiction |].
    unfold draw_like; step_cbn.
    destruct (randn_like _ _) as [noise g'].
    eexists; split; [reflexivity |]; cbn [drawn]; lia.
  - eexists; split; [reflexivity |]; cbn [drawn]; lia.
Qed.

Lemma sample_loop_draws (steps : nat) (eta : R) (t alphas sigmas : list R)
      (k : nat) :
  eta <> 0 ->
  List.length t = steps ->
  List.length alphas = steps ->
  List.length sigmas = steps ->
  forall (a : nat) (s : Sampler T G),
    (a + k = steps)%nat ->
    exists s' : Sampler T G,
      for_each (seq a k)
               (sample_step randn_like model steps eta t alphas sigmas) s
      = (Ok tt, s')
      /\ drawn s' = (drawn s + (k - 1))%nat.
Proof.
  intros Heta Ht Ha Hs; induction k as [| k IH]; intros a s Hak.
  - exists s; split; [reflexivity | cbn; lia].
  - cbn [seq for_each]; unfold bind.
    destruct (sample_step_draws steps eta t alphas sigmas a s
                Heta Ht Ha Hs ltac:(lia)) as (s1 & Hrun & Hd).
    rewrite Hrun.
    destruct (IH (S a) s1 ltac:(lia)) as (s' & Hrun' & Hd').
    exists s'; split; [exact Hrun' |].
    rewrite Hd', Hd.
    destruct (a <? steps - 1)%nat eqn:Hnext.
    + apply Nat.ltb_lt in Hnext; lia.
    + apply Nat.ltb_ge in Hnext; lia.
Qed.

End SamplerDraws.

(** X23: with [eta] not 0 and [steps >= 1], [sample] draws fresh noise
    once after every step but the last: [steps - 1] draws in all. *)
Theorem sample_draws_per_step {T G : Type} `{Array T}
        (randn_like : T -> G -> T * G) (model : T -> R -> T) (x : T)
        (steps : nat) (eta : R) (g : G) :
  eta <> 0 ->
  (1 <= steps)%nat ->
  drawn (snd (sample randn_like model x steps eta g)) = (steps - 1)%nat.
Proof.
  intros Heta Hsteps.
  unfold sample, sample_loop, bind.
  set (t := sample_schedule steps).
  assert (Hlen : List.length t = steps) by apply sample_schedule_length.
  destruct (sample_loop_draws randn_like model steps eta t
              (map (fun u => fst (get_alphas_sigmas u)) t)
              (map (fun u => snd (get_alphas_sigmas u)) t) steps Heta
              Hlen ltac:(rewrite length_map; exact Hlen)
              ltac:(rewrite length_map; exact Hlen) 0%nat
              {| local_x := x; local_pred := None; generator := g;
                 drawn := 0; queries := [] |} ltac:(lia))
    as (s' & Hrun & Hd).
  rewrite Hrun; unfold get_pred.
  destruct (local_pred s'); cbn [snd]; rewrite Hd; reflexivity.
Qed.

Lemma sample_draws_per_step_witness :
  drawn (snd (sample (fun (_ : R) (g : nat) => (0, S g))
                     (fun (x : R) (_ : R) => x) 1 4 (1 / 2) 0%nat))
  = (4 - 1)%nat.
Proof.
  apply (sample_draws_per_step
           (fun (_ : R) (g : nat) => (0, S g)) (fun (x : R) (_ : R) => x)
           1 4 (1 / 2) 0%nat); [lra | lia].
Defined.

(** ** Style transfer: the ends of the range of [noise_level] *)

Lemma lt_mask_false (c v : R) : c <= v -> Torch.lt_mask c v = false.
Proof.
  intros Hle; unfold Torch.lt_mask.
  destruct (Rlt_dec v c); [lra | reflexivity].
Qed.

Lemma filter_none {A : Type} (p : A -> bool) (l : list A) :
  Forall (fun x => p x = false) l -> filter p l = [].
Proof.
  induction 1 as [| x l Hx _ IH]; cbn; [reflexivity |].
  rewrite Hx; exact IH.
Qed.

Lemma filter_all {A : Type} (p : A -> bool) (l : list A) :
  Forall (fun x => p x = true) l -> filter p l = l.
Proof.
  induction 1 as [| x l Hx _ IH]; cbn; [reflexivity |].
  rewrite Hx, IH; reflexivity.
Qed.

(** The grid of the style transfer, point by point. *)
Lemma style_grid_point (steps i : nat) :
  (i <= steps)%nat ->
  0 <= 0 + INR i * ((1 - 0) / INR steps) <= 1.
Proof.
  intros Hi.
  destruct (Nat.eq_dec i steps) as [-> | Hne].
  - destruct steps as [| n].
    + cbn [INR]; lra.
    + assert (Hn : 0 < INR (S n)) by (apply lt_0_INR; lia).
      replace (0 + INR (S n) * ((1 - 0) / INR (S n))) with 1
        by (field; lra).
      lra.
  - pose proof (fraction_range i steps ltac:(lia)) as Hq.
    replace (0 + INR i * ((1 - 0) / INR steps)) with (INR i / INR steps)
      by (unfold Rdiv; ring).
    lra.
Qed.

Lemma crash_nonneg (u : R) : 0 <= u <= 1 -> 0 <= get_crash_schedule u.
Proof.
  intros [H0 H1]; destruct (Rle_lt_or_eq_dec 0 u H0) as [Hpos | <-].
  - left; apply crash_pos; lra.
  - rewrite crash_0; lra.
Qed.

Lemma style_grid_range (steps : nat) :
  Forall (fun v => 0 <= v <= 1)
         (map get_crash_schedule (Torch.linspace 0 1 (steps + 1))).
Proof.
  rewrite linspace_up_entries; apply Forall_forall; intros v Hv.
  apply in_map_iff in Hv as [i [<- Hi]]; apply in_seq in Hi.
  pose proof (style_grid_point steps i ltac:(lia)) as Hr.
  split; [apply crash_nonneg | apply crash_le_1]; exact Hr.
Qed.

(** X24: [do_style_transfer] with [noise_level <= 0] keeps no timestep and
    raises [IndexError] at [step_list[-1]], before anything is drawn.
    With [0 < noise_level] not above the first warped grid point
    [get_crash_schedule(1/steps)], only timestep 0 is kept:
    [sampling.sample] receives no timestep at all and the audio itself as
    start tensor ([audio * 1 + noise * 0]). *)
Theorem style_transfer_low_noise {T G : Type} `{Array T}
        (randn_like : T -> G -> T * G) {Out : Type}
        (sampling_sample :
           (T -> R -> T) -> T -> list R -> R -> M (S := G * nat) Out)
        (model : T -> R -> T) (audio_sample : T) (steps : nat)
        (noise_level eta : R) (s : G * nat) :
  (noise_level <= 0 ->
   do_style_transfer randn_like sampling_sample model audio_sample steps
     noise_level eta s = (Raise IndexError, s)) /\
  ((1 <= steps)%nat ->
   0 < noise_level <= get_crash_schedule (1 / INR steps) ->
   do_style_transfer randn_like sampling_sample model audio_sample steps
     noise_level eta s
   = sampling_sample model
       (plus (scale audio_sample 1)
             (scale (fst (randn_like audio_sample (fst s))) 0))
       [] eta (snd (randn_like audio_sample (fst s)), S (snd s))).
Proof.
  split.
  - intros Hnl; unfold do_style_transfer, bind.
    rewrite filter_none; [reflexivity |].
    eapply Forall_impl; [| apply style_grid_range].
    cbv beta; intros v Hv; apply lt_mask_false; lra.
  - intros Hsteps [Hpos Hle]; unfold do_style_transfer, bind.
    rewrite linspace_up_entries.
    cbn [seq map filter].
    replace (0 + INR 0 * ((1 - 0) / INR steps)) with 0
      by (cbn [INR]; ring).
    rewrite crash_0, lt_mask_true by exact Hpos.
    rewrite filter_none.
    + cbn [index_last last rev app removelast].
      unfold ret, randn_shape_of, t_to_alpha_sigma.
      replace (0 * PI / 2) with 0 by lra.
      rewrite cos_0, sin_0.
      destruct (randn_like audio_sample (fst s)) as [noise g'].
      reflexivity.
    + apply Forall_forall; intros v Hv.
      apply in_map_iff in Hv as [i [<- Hi]]; apply in_seq in Hi.
      apply lt_mask_false.
      apply Rle_trans with (get_crash_schedule (1 / INR steps));
        [exact Hle |].
      assert (Hn : 0 < INR steps) by (apply lt_0_INR; lia).
      assert (Hin : 0 < / INR steps) by (apply Rinv_0_lt_compat; exact Hn).
      assert (H1i : 1 <= INR i)
        by (replace 1 with (INR 1) by reflexivity; apply le_INR; lia).
      pose proof (style_grid_point steps i ltac:(lia)) as Hr.
      destruct (Rle_lt_or_eq_dec 1 (INR i) H1i) as [Hlt | Heq].
      * left; apply crash_strictly_increasing;
          [unfold Rdiv; nra | unfold Rdiv; nra | lra].
      * right; f_equal; rewrite <- Heq; unfold Rdiv; ring.
Qed.

Lemma style_transfer_low_noise_witness :
  let randn_like := fun (_ : R) (g : nat) => (0, S g) in
  let sampling_sample :=
    fun (_ : R -> R -> R) (x : R) (ts : list R) (_ : R) =>
      ret (S := nat * nat) (x, ts) in
  let model := fun (x : R) (_ : R) => x in
  do_style_transfer randn_like sampling_sample model 1 2 (-1) 0
    (0%nat, 0%nat) = (Raise IndexError, (0%nat, 0%nat)) /\
  do_style_transfer randn_like sampling_sample model 1 1 1 0
    (0%nat, 0%nat)
  = sampling_sample model
      (plus (scale 1 1) (scale (fst (randn_like 1 0%nat)) 0))
      [] 0 (snd (randn_like 1 0%nat), 1%nat).
Proof.
  intros randn_like sampling_sample model; split.
  - apply (style_transfer_low_noise randn_like sampling_sample model 1 2
             (-1) 0 (0%nat, 0%nat)); lra.
  - apply (style_transfer_low_noise randn_like sampling_sample model 1 1
             1 0 (0%nat, 0%nat)); [lia |].
    replace (1 / INR 1) with 1 by (cbn [INR]; field).
    rewrite crash_1; lra.
Defined.

Lemma rev_map_seq_from_1 {A : Type} (f : nat -> A) (m : nat) :
  rev (map f (seq 1 m)) = map (fun j => f (m - j)%nat) (seq 0 m).
Proof.
  induction m as [| m IH]; [reflexivity |].
  rewrite seq_S, map_app, rev_app_distr; cbn [map rev app].
  rewrite IH; cbn [seq map].
  f_equal.
  rewrite <- seq_shift, map_map; reflexivity.
Qed.

(** The warped grid ends with timestep 1. *)
Lemma style_grid_split (steps : nat) :
  (1 <= steps)%nat ->
  map get_crash_schedule (Torch.linspace 0 1 (steps + 1)) =
  map (fun i => get_crash_schedule (0 + INR i * ((1 - 0) / INR steps)))
      (seq 0 steps) ++ [1].
Proof.
  intros Hsteps.
  rewrite linspace_up_entries, seq_S, map_app; cbn [map].
  do 2 f_equal.
  assert (Hn : 0 < INR steps) by (apply lt_0_INR; lia).
  replace (0 + INR (0 + steps) * ((1 - 0) / INR steps)) with 1
    by (cbn [Nat.add]; field; lra).
  apply crash_1.
Qed.

Lemma style_grid_below_1 (steps : nat) :
  Forall (fun v => v < 1)
         (map (fun i =>
                 get_crash_schedule (0 + INR i * ((1 - 0) / INR steps)))
              (seq 0 steps)).
Proof.
  apply Forall_forall; intros v Hv.
  apply in_map_iff in Hv as [i [<- Hi]]; apply in_seq in Hi.
  pose proof (fraction_range i steps ltac:(lia)) as Hq.
  apply crash_lt_1.
  replace (0 + INR i * ((1 - 0) / INR steps)) with (INR i / INR steps)
    by (unfold Rdiv; ring).
  exact Hq.
Qed.

(** Flipped and without the timestep 0, the first [m + 1] points of the
    warped grid are the last [m] timesteps of the sampler's schedule. *)
Lemma flipped_grid (steps m : nat) :
  (1 <= steps)%nat -> (m <= steps)%nat ->
  removelast
    (rev (map (fun i =>
                 get_crash_schedule (0 + INR i * ((1 - 0) / INR steps)))
              (seq 0 (S m))))
  = map (fun j =>
           get_crash_schedule
             (1 + INR (steps - m + j) * ((0 - 1) / INR steps)))
        (seq 0 m).
Proof.
  intros Hsteps Hm; cbn [seq map].
  rewrite removelast_rev_cons, rev_map_seq_from_1.
  apply map_ext_in; intros j Hj; apply in_seq in Hj; f_equal.
  assert (Hn : 0 < INR steps) by (apply lt_0_INR; lia).
  replace (steps - m + j)%nat with (steps - (m - j))%nat by lia.
  rewrite (minus_INR steps (m - j)) by lia.
  field; lra.
Qed.

Lemma index_last_snoc {S : Type} (l : list R) (a : R) (s : S) :
  index_last (l ++ [a]) s = (Ok a, s).
Proof.
  unfold index_last.
  destruct (l ++ [a]) eqn:Hl; [destruct l; discriminate |].
  rewrite <- Hl, last_last; reflexivity.
Qed.

(** X25: with [noise_level > 1] every grid point is kept:
    [do_style_transfer] hands [sampling.sample] exactly the schedule of
    [sample], and a start tensor in which the audio is multiplied by 0
    (pure noise).  With [noise_level = 1] the grid point 1 is not below
    the level: only [steps - 1] timesteps are handed over, the schedule
    of [sample] without its first entry. *)
Theorem style_transfer_full_noise {T G : Type} `{Array T}
        (randn_like : T -> G -> T * G) {Out : Type}
        (sampling_sample :
           (T -> R -> T) -> T -> list R -> R -> M (S := G * nat) Out)
        (model : T -> R -> T) (audio_sample : T) (steps : nat)
        (noise_level eta : R) (s : G * nat) :
  (1 <= steps)%nat ->
  (1 < noise_level ->
   do_style_transfer randn_like sampling_sample model audio_sample steps
     noise_level eta s
   = sampling_sample model
       (plus (scale audio_sample 0)
             (scale (fst (randn_like audio_sample (fst s))) 1))
       (sample_schedule steps) eta
       (snd (randn_like audio_sample (fst s)), S (snd s))) /\
  (noise_level = 1 ->
   let t0 := get_crash_schedule
               (0 + INR (steps - 1) * ((1 - 0) / INR steps)) in
   do_style_transfer randn_like sampling_sample model audio_sample steps
     noise_level eta s
   = sampling_sample model
       (plus (scale audio_sample (fst (t_to_alpha_sigma t0)))
             (scale (fst (randn_like audio_sample (fst s)))
                    (snd (t_to_alpha_sigma t0))))
       (tl (sample_schedule steps)) eta
       (snd (randn_like audio_sample (fst s)), S (snd s))).
Proof.
  intros Hsteps; split.
  - intros Hnl; unfold do_style_transfer, bind.
    rewrite filter_all.
    2:{ eapply Forall_impl; [| apply style_grid_range].
        cbv beta; intros v Hv; apply lt_mask_true; lra. }
    assert (Hhand :
      removelast
        (rev (map get_crash_schedule (Torch.linspace 0 1 (steps + 1))))
      = sample_schedule steps).
    { rewrite linspace_up_entries, flipped_grid by lia.
      rewrite sample_schedule_entries.
      apply map_ext; intros j.
      replace (steps - steps + j)%nat with j by lia; reflexivity. }
    rewrite Hhand, style_grid_split, index_last_snoc by exact Hsteps.
    unfold randn_shape_of, t_to_alpha_sigma.
    replace (1 * PI / 2) with (PI / 2) by lra.
    rewrite cos_PI2, sin_PI2.
    destruct (randn_like audio_sample (fst s)) as [noise g'].
    reflexivity.
  - intros -> t0; unfold do_style_transfer, bind.
    rewrite style_grid_split, filter_app by exact Hsteps.
    rewrite filter_all.
    2:{ eapply Forall_impl; [| apply style_grid_below_1].
        cbv beta; intros v Hv; apply lt_mask_true; exact Hv. }
    cbn [filter]; rewrite lt_mask_false, app_nil_r by lra.
    destruct steps as [| m]; [lia |].
    assert (Hhand :
      removelast
        (rev (map (fun i =>
                     get_crash_schedule
                       (0 + INR i * ((1 - 0) / INR (S m))))
                  (seq 0 (S m))))
      = tl (sample_schedule (S m))).
    { rewrite flipped_grid by lia.
      rewrite sample_schedule_entries; cbn [seq map tl].
      rewrite <- seq_shift, map_map.
      apply map_ext; intros j.
      replace (S m - m + j)%nat with (S j) by lia; reflexivity. }
    rewrite Hhand, seq_S, map_app; cbn [map].
    rewrite index_last_snoc.
    unfold randn_shape_of.
    replace (0 + m)%nat with (S m - 1)%nat by lia; fold t0.
    destruct (t_to_alpha_sigma t0) as [alpha sigma]; cbn [fst snd].
    destruct (randn_like audio_sample (fst s)) as [noise g'].
    reflexivity.
Qed.

Lemma style_transfer_full_noise_witness :
  let randn_like := fun (_ : R) (g : nat) => (0, S g) in
  let sampling_sample :=
    fun (_ : R -> R -> R) (x : R) (ts : list R) (_ : R) =>
      ret (S := nat * nat) (x, ts) in
  let model := fun (x : R) (_ : R) => x in
  do_style_transfer randn_like sampling_sample model 1 3 2 0
    (0%nat, 0%nat)
  = sampling_sample model
      (plus (scale 1 0) (scale (fst (randn_like 1 0%nat)) 1))
      (sample_schedule 3) 0 (snd (randn_like 1 0%nat), 1%nat).
Proof.
  intros randn_like sampling_sample model.
  destruct (style_transfer_full_noise randn_like sampling_sample model 1 3
              2 0 (0%nat, 0%nat) ltac:(lia)) as [Hfull _].
  apply Hfull; lra.
Defined.

(** ** RandomMix: a convex combination of the channels *)

Lemma weighted_sum_entries (w : nat) (ws : list R) :
  forall rs : list (list R),
    List.length ws = List.length rs ->
    Forall (fun row => List.length row = w) rs ->
    List.length (weighted_sum ws rs w) = w /\
    forall j : nat,
      nth j (weighted_sum ws rs w) 0
      = fold_right Rplus 0
          (map (fun p => fst p * nth j (snd p) 0) (combine ws rs)).
Proof.
  induction ws as [| c ws IH]; intros [| row rs] Hlen Hrows;
    cbn in Hlen; try discriminate.
  - cbn; split; [apply repeat_length | intros j; apply nth_repeat].
  - inversion Hrows as [| ? ? Hrow Hrest]; subst.
    destruct (IH rs ltac:(lia) Hrest) as [IHlen IHnth].
    cbn [weighted_sum combine map fold_right fst snd].
    assert (Hl : List.length (map (fun x => c * x) row)
                 = List.length (weighted_sum ws rs (List.length row)))
      by (rewrite length_map, IHlen; reflexivity).
    split.
    + rewrite length_row_add by exact Hl; apply length_map.
    + intros j; rewrite nth_row_add by exact Hl.
      rewrite IHnth; f_equal.
      replace 0 with (c * 0) at 1 by ring.
      exact (map_nth (fun x => c * x) row 0 j).
Qed.

Lemma weighted_entries_bounded (lo hi : R) (j : nat) (ws : list R) :
  forall rs : list (list R),
    Forall (fun c => 0 <= c) ws ->
    Forall (fun row => lo <= nth j row 0 <= hi) rs ->
    lo * fold_right Rplus 0 (map fst (combine ws rs))
    <= fold_right Rplus 0
         (map (fun p => fst p * nth j (snd p) 0) (combine ws rs))
    <= hi * fold_right Rplus 0 (map fst (combine ws rs)).
Proof.
  induction ws as [| c ws IH]; intros [| row rs] Hws Hrs; cbn; try lra.
  inversion Hws as [| ? ? Hc Hws']; subst.
  inversion Hrs as [| ? ? Hrow Hrs']; subst.
  specialize (IH rs Hws' Hrs'); nra.
Qed.

Lemma sum_fst_combine (ws : list R) (rs : list (list R)) :
  List.length ws = List.length rs ->
  fold_right Rplus 0 (map fst (combine ws rs)) = fold_right Rplus 0 ws.
Proof.
  revert rs; induction ws as [| c ws IH]; intros [| row rs] Hlen;
    cbn in *; try discriminate; try reflexivity.
  rewrite IH by lia; reflexivity.
Qed.

Lemma sum_scaled (ws : list R) (total : R) :
  fold_right Rplus 0 (map (fun w => w / total) ws)
  = fold_right Rplus 0 ws / total.
Proof.
  induction ws as [| c ws IH]; cbn; [unfold Rdiv; ring |].
  rewrite IH; unfold Rdiv; ring.
Qed.

Lemma sum_nonneg (ws : list R) :
  Forall (fun c => 0 <= c) ws -> 0 <= fold_right Rplus 0 ws.
Proof. induction 1 as [| c ws Hc _ IH]; cbn; lra. Qed.

(** X26: on a well-formed 2-D signal of [n >= 2] channels, with
    [torch.rand] drawing [n] weights in [0,1), [RandomMix] returns one
    row of the signal's width in which every entry is a convex
    combination of the channels' entries (it lies between any two bounds
    that hold for all channels), unless the weights add up to 0, when
    the row is not a number. *)
Theorem random_mix_convex {G : Type} (rand : nat -> G -> list R * G)
        (m : Matrix) (g : G) :
  matrix_ok m ->
  (2 <= List.length (rows m))%nat ->
  (forall n g0, List.length (fst (rand n g0)) = n /\
                Forall (fun c => 0 <= c < 1) (fst (rand n g0))) ->
  let weights := fst (rand (List.length (rows m)) g) in
  let total := fold_right Rplus 0 weights in
  exists out : Mixed,
    RandomMix rand (Sig2 m) g
    = (Ok out, snd (rand (List.length (rows m)) g)) /\
    (total = 0 -> out = NotANumber (width m)) /\
    (total <> 0 ->
     exists mix : list R,
       out = Finite (Sig2 {| width := width m; rows := [mix] |}) /\
       List.length mix = width m /\
       forall (j : nat) (lo hi : R),
         Forall (fun row => lo <= nth j row 0 <= hi) (rows m) ->
         lo <= nth j mix 0 <= hi).
Proof.
  intros Hok Hn Hrand; cbv zeta.
  destruct (Hrand (List.length (rows m)) g) as [Hlen Hrange].
  unfold RandomMix.
  replace (1 <? List.length (rows m))%nat with true
    by (symmetry; apply Nat.ltb_lt; lia).
  destruct (rand (List.length (rows m)) g) as [ws g'];
    cbn [fst snd] in *.
  set (total := fold_right Rplus 0 ws).
  assert (Hws : Forall (fun c => 0 <= c) ws)
    by (eapply Forall_impl; [| exact Hrange]; cbv beta; intros c Hc; lra).
  assert (Htot : 0 <= total) by (apply sum_nonneg; exact Hws).
  destruct (Req_dec_T total 0) as [Hz | Hnz].
  - eexists; split; [reflexivity |].
    split; [intros _; reflexivity | intros Hne; contradiction].
  - eexists; split; [reflexivity |].
    split; [intros Hz; contradiction |].
    intros _.
    assert (Hpos : 0 < total) by lra.
    assert (Hlen' : List.length (map (fun w => w / total) ws)
                    = List.length (rows m))
      by (rewrite length_map; exact Hlen).
    destruct (weighted_sum_entries (width m) _ (rows m) Hlen' Hok)
      as [Hmixlen Hnth].
    eexists; split; [reflexivity |].
    split; [exact Hmixlen |].
    intros j lo hi Hb; rewrite Hnth.
    assert (Hws' : Forall (fun c => 0 <= c) (map (fun w => w / total) ws)).
    { apply Forall_forall; intros c Hc.
      apply in_map_iff in Hc as [w [<- Hw]].
      rewrite Forall_forall in Hws; specialize (Hws w Hw).
      unfold Rdiv; apply Rmult_le_pos; [exact Hws |].
      left; apply Rinv_0_lt_compat; exact Hpos. }
    pose proof (weighted_entries_bounded lo hi j _ (rows m) Hws' Hb) as Hbd.
    rewrite sum_fst_combine, sum_scaled in Hbd by exact Hlen'.
    fold total in Hbd.
    replace (total / total) with 1 in Hbd by (field; lra).
    lra.
Qed.

Lemma random_mix_convex_witness :
  let rand := fun (n g : nat) => (repeat (1 / 2) n, S g) in
  let m := {| width := 2; rows := [[1; 2]; [3; 4]] |} in
  let weights := fst (rand (List.length (rows m)) 0%nat) in
  let total := fold_right Rplus 0 weights in
  exists out : Mixed,
    RandomMix rand (Sig2 m) 0%nat
    = (Ok out, snd (rand (List.length (rows m)) 0%nat)) /\
    (total = 0 -> out = NotANumber (width m)) /\
    (total <> 0 ->
     exists mix : list R,
       out = Finite (Sig2 {| width := width m; rows := [mix] |}) /\
       List.length mix = width m /\
       forall (j : nat) (lo hi : R),
         Forall (fun row => lo <= nth j row 0 <= hi) (rows m) ->
         lo <= nth j mix 0 <= hi).
Proof.
  intros rand m.
  apply (random_mix_convex rand m 0%nat).
  - repeat constructor.
  - cbn; lia.
  - intros n g0; cbn [fst rand]; split; [apply repeat_length |].
    apply Forall_forall; intros c Hc.
    apply repeat_spec in Hc; subst c; lra.
Defined.
